(** * shadowsocks/tcprelay.py: the TCP relay core

    A shallow embedding of [TCPRelayHandler] and [TCPRelay] and the
    properties of the relay's timeout queue, byte pump, interest bitmap,
    destruction, handshake and stage machine.

    Conventions of the embedding.
    - A Python 2 [str] is a list of bytes.
    - A handler object lives in a heap keyed by its identity ([id(self)],
      which is also its [__hash__]); [_timeouts] holds identities, so that a
      write to [handler.last_activity] is seen through every reference.
    - A method of the handler runs on the pair of its own record and the
      server it points to ([self._server], whose [_fd_to_handlers] and
      event loop the handler shares).
    - Exceptions are results: state changes made before a [raise] persist.
    - What the operating system, the event loop and the cipher answer is an
      explicit input ([env]); what the program asks of them is appended to
      the server's [effects] log.  [logging] calls are not modelled.
    - [time.time()] is a rational number; [int(...)] of it truncates
      towards zero. *)

From Stdlib Require Import ZArith QArith Qround Lqa.
From Stdlib.Strings Require Import Byte.
From stdpp Require Import gmap list sorting.

(** ** Constants of the module *)

Definition TIMEOUTS_CLEAN_SIZE : nat := 512.
Definition TIMEOUT_PRECISION : Z := 4.

Definition CMD_CONNECT : Z := 1.
Definition CMD_BIND : Z := 2.
Definition CMD_UDP_ASSOCIATE : Z := 3.

Definition STAGE_INIT : Z := 0.
Definition STAGE_HELLO : Z := 1.
Definition STAGE_UDP_ASSOC : Z := 2.
Definition STAGE_REPLY : Z := 4.
Definition STAGE_STREAM : Z := 5.

Definition STREAM_UP : Z := 0.
Definition STREAM_DOWN : Z := 1.

Definition WAIT_STATUS_INIT : Z := 0.
Definition WAIT_STATUS_READING : Z := 1.
Definition WAIT_STATUS_WRITING : Z := 2.
Definition WAIT_STATUS_READWRITING : Z :=
  Z.lor WAIT_STATUS_READING WAIT_STATUS_WRITING.

Definition BUF_SIZE : Z := 8 * 1024.

(** ** Data *)

Definition bytes : Type := list byte.

Definition ord (b : byte) : Z := Z.of_N (Byte.to_N b).

Definition chr (z : Z) : byte :=
  default x00 (Byte.of_N (Z.to_N (z mod 256))).

(** [struct.pack('>H', port)] for a port in [0, 65535]. *)
Definition pack_H (port : Z) : bytes := [chr (port / 256); chr port].

Inductive address_family := AF_INET | AF_INET6.

(** A socket object: its identity, its descriptor and its family.
    [==] on sockets is identity. *)
Record socket := { sock_id : nat; fileno : Z; family : address_family }.

Definition sockaddr : Type := bytes * Z.

#[global] Instance address_family_eq_dec : EqDecision address_family.
Proof. solve_decision. Defined.

#[global] Instance socket_eq_dec : EqDecision socket.
Proof. solve_decision. Defined.

(** The error numbers the module tells apart. *)
Inductive errno := EAGAIN | EINPROGRESS | ETIMEDOUT | EOTHER (code : Z).

Inductive recv_result := Recv (data : bytes) | RecvError (e : errno).
Inductive send_result := Sent (s : nat) | SendError (e : errno).
Inductive accept_result := Accepted (conn : socket) | AcceptError (e : errno).

(** What the program asks of the sockets and of the event loop. *)
Inductive effect :=
| LoopAdd (s : socket) (mask : Z)
| LoopModify (s : socket) (mask : Z)
| LoopRemove (s : socket)
| SockSetBlocking (s : socket) (flag : bool)
| SockNoDelay (s : socket)
| SockSend (s : socket) (data : bytes)
| SockConnect (s : socket) (sa : sockaddr)
| SockClose (s : socket).

(** What the outside world answers during one callback. *)
Record env := {
  time_time : Q;
  recv : recv_result;
  send : send_result;
  (* inet_pton(family, addr) and port of local_sock.getsockname(), for a
     socket of family AF_INET *)
  getsockname : bytes * Z;
  (* socket.getaddrinfo(host, port, 0, SOCK_STREAM, SOL_TCP); the empty list
     also stands for a resolver error, which takes the same except branch *)
  getaddrinfo : bytes → Z → list (address_family * sockaddr);
  socket_socket : address_family → socket;
}.

(** ** Exceptions and the state monad *)

Inductive exn :=
| KeyError | IndexError | AttributeError | ValueError | Exception | DanglingRef.

Inductive result (A : Type) := Ok (a : A) | Raise (e : exn).
Arguments Ok {A} a.
Arguments Raise {A} e.

Definition M (S A : Type) : Type := S → S * result A.

#[global] Instance M_ret {S} : MRet (M S) := λ A a s, (s, Ok a).
#[global] Instance M_bind {S} : MBind (M S) := λ A B f m s,
  match m s with
  | (s', Ok a) => f a s'
  | (s', Raise e) => (s', Raise e)
  end.

Definition gets {S A} (f : S → A) : M S A := λ s, (s, Ok (f s)).
Definition modify {S} (f : S → S) : M S unit := λ s, (f s, Ok tt).
Definition raise {S A} (e : exn) : M S A := λ s, (s, Raise e).

(** [try: m except Exception: handler] *)
Definition try_except {S A} (m : M S A) (handler : exn → M S A) : M S A := λ s,
  match m s with
  | (s', Ok a) => (s', Ok a)
  | (s', Raise e) => handler e s'
  end.

(** Python's [l[i] = v]: negative indices count from the end, anything out of
    range raises [IndexError]. *)
Definition py_setitem {A} (l : list A) (i : Z) (v : A) : option (list A) :=
  let n := Z.of_nat (length l) in
  if bool_decide (0 ≤ i < n)%Z then Some (<[Z.to_nat i := v]> l)
  else if bool_decide (- n ≤ i < 0)%Z then Some (<[Z.to_nat (n + i) := v]> l)
  else None.

Definition Qltb (x y : Q) : bool := negb (Qle_bool y x).

(** [int(x)] of a float: the integer part, towards zero. *)
Definition py_int (t : Q) : Z := (Qnum t ÷ Z.pos (Qden t))%Z.

(** ** Stand-ins for the collaborators, for the examples *)

(** A keyless stream transformer in the place of the cipher: it flips every
    bit and counts the bytes it has seen. *)
Definition toy_cipher : Type := nat.

Definition toy_crypt (c : toy_cipher) (data : bytes) : bytes * toy_cipher :=
  (map (λ b, chr (Z.lxor (ord b) 255)) data, c + length data).

(** Modelled from the spec: [common.parse_header], which is not among the
    sources.  "First byte ATYP, then address (IPv4: 4 bytes; IPv6: 16 bytes;
    domain: 1-byte length + bytes), then 2-byte big-endian port"; the parser
    "returns nothing" on anything else.  ATYP is 1 for IPv4, 3 for a domain
    name and 4 for IPv6. *)
Definition parse_port (data : bytes) : option Z :=
  match data with
  | hi :: lo :: _ => Some (ord hi * 256 + ord lo)%Z
  | _ => None
  end.

Definition parse_address (n : nat) (atyp : Z) (data : bytes)
    : option (Z * bytes * Z * nat) :=
  if n + 2 <=? length data then
    port ← parse_port (drop n data);
    Some (atyp, take n data, port, 1 + n + 2)
  else None.

Definition parse_header_model (data : bytes) : option (Z * bytes * Z * nat) :=
  match data with
  | [] => None
  | atyp :: data =>
    if (ord atyp =? 1)%Z then parse_address 4 1 data
    else if (ord atyp =? 4)%Z then parse_address 16 4 data
    else if (ord atyp =? 3)%Z then
      match data with
      | [] => None
      | len :: data =>
        '(a, addr, port, n) ← parse_address (Z.to_nat (ord len)) 3 data;
        Some (a, addr, port, S n)
      end
    else None
  end.

Definition sample_socket (n : nat) : socket :=
  {| sock_id := n; fileno := Z.of_nat n; family := AF_INET |}.

(** ** The relay, over its external collaborators *)

Section Relay.

(** The cipher ([encrypt.Encryptor]): a state and two transformers. *)
Context {cipher : Type}.
Variable encrypt : cipher → bytes → bytes * cipher.
Variable decrypt : cipher → bytes → bytes * cipher.

(** [common.parse_header]: address type, address, port and header length,
    or [None]; [None] also stands for an exception of the parser, which
    reaches the same [except] branch. *)
Variable parse_header : bytes → option (Z * bytes * Z * nat).

(** The event masks of [eventloop]. *)
Variables POLL_IN POLL_OUT POLL_ERR : Z.

Record handler := {
  hid : nat;
  _is_local : bool;
  _local_sock : option socket;
  _remote_sock : option socket;
  _stage : Z;
  _encryptor : cipher;
  _data_to_write_to_local : list bytes;
  _data_to_write_to_remote : list bytes;
  _upstream_status : Z;
  _downstream_status : Z;
  _remote_address : option (bytes * Z);
  last_activity : Z;
}.

Record server := {
  is_local : bool;
  config_timeout : Z;
  config_server : bytes;
  config_server_port : Z;
  _server_socket : socket;
  _closed : bool;
  _fd_to_handlers : gmap Z nat;
  _last_time : Q;
  _timeouts : list (option nat);
  _timeout_offset : nat;
  _handler_to_timeouts : gmap nat Z;
  effects : list effect;
}.

Record world := {
  srv : server;
  heap : gmap nat handler;
  next_id : nat;
}.

Definition hstate : Type := handler * server.

(** *** Field updates *)

Definition set_local_sock (v : option socket) (h : handler) : handler :=
  {| hid := hid h; _is_local := _is_local h; _local_sock := v;
     _remote_sock := _remote_sock h; _stage := _stage h;
     _encryptor := _encryptor h;
     _data_to_write_to_local := _data_to_write_to_local h;
     _data_to_write_to_remote := _data_to_write_to_remote h;
     _upstream_status := _upstream_status h;
     _downstream_status := _downstream_status h;
     _remote_address := _remote_address h; last_activity := last_activity h |}.

Definition set_remote_sock (v : option socket) (h : handler) : handler :=
  {| hid := hid h; _is_local := _is_local h; _local_sock := _local_sock h;
     _remote_sock := v; _stage := _stage h;
     _encryptor := _encryptor h;
     _data_to_write_to_local := _data_to_write_to_local h;
     _data_to_write_to_remote := _data_to_write_to_remote h;
     _upstream_status := _upstream_status h;
     _downstream_status := _downstream_status h;
     _remote_address := _remote_address h; last_activity := last_activity h |}.

Definition set_stage (v : Z) (h : handler) : handler :=
  {| hid := hid h; _is_local := _is_local h; _local_sock := _local_sock h;
     _remote_sock := _remote_sock h; _stage := v;
     _encryptor := _encryptor h;
     _data_to_write_to_local := _data_to_write_to_local h;
     _data_to_write_to_remote := _data_to_write_to_remote h;
     _upstream_status := _upstream_status h;
     _downstream_status := _downstream_status h;
     _remote_address := _remote_address h; last_activity := last_activity h |}.

Definition set_encryptor (v : cipher) (h : handler) : handler :=
  {| hid := hid h; _is_local := _is_local h; _local_sock := _local_sock h;
     _remote_sock := _remote_sock h; _stage := _stage h;
     _encryptor := v;
     _data_to_write_to_local := _data_to_write_to_local h;
     _data_to_write_to_remote := _data_to_write_to_remote h;
     _upstream_status := _upstream_status h;
     _downstream_status := _downstream_status h;
     _remote_address := _remote_address h; last_activity := last_activity h |}.

Definition set_data_to_write_to_local (v : list bytes) (h : handler) : handler :=
  {| hid := hid h; _is_local := _is_local h; _local_sock := _local_sock h;
     _remote_sock := _remote_sock h; _stage := _stage h;
     _encryptor := _encryptor h;
     _data_to_write_to_local := v;
     _data_to_write_to_remote := _data_to_write_to_remote h;
     _upstream_status := _upstream_status h;
     _downstream_status := _downstream_status h;
     _remote_address := _remote_address h; last_activity := last_activity h |}.

Definition set_data_to_write_to_remote (v : list bytes) (h : handler) : handler :=
  {| hid := hid h; _is_local := _is_local h; _local_sock := _local_sock h;
     _remote_sock := _remote_sock h; _stage := _stage h;
     _encryptor := _encryptor h;
     _data_to_write_to_local := _data_to_write_to_local h;
     _data_to_write_to_remote := v;
     _upstream_status := _upstream_status h;
     _downstream_status := _downstream_status h;
     _remote_address := _remote_address h; last_activity := last_activity h |}.

Definition set_upstream_status (v : Z) (h : handler) : handler :=
  {| hid := hid h; _is_local := _is_local h; _local_sock := _local_sock h;
     _remote_sock := _remote_sock h; _stage := _stage h;
     _encryptor := _encryptor h;
     _data_to_write_to_local := _data_to_write_to_local h;
     _data_to_write_to_remote := _data_to_write_to_remote h;
     _upstream_status := v;
     _downstream_status := _downstream_status h;
     _remote_address := _remote_address h; last_activity := last_activity h |}.

Definition set_downstream_status (v : Z) (h : handler) : handler :=
  {| hid := hid h; _is_local := _is_local h; _local_sock := _local_sock h;
     _remote_sock := _remote_sock h; _stage := _stage h;
     _encryptor := _encryptor h;
     _data_to_write_to_local := _data_to_write_to_local h;
     _data_to_write_to_remote := _data_to_write_to_remote h;
     _upstream_status := _upstream_status h;
     _downstream_status := v;
     _remote_address := _remote_address h; last_activity := last_activity h |}.

Definition set_remote_address (v : option (bytes * Z)) (h : handler) : handler :=
  {| hid := hid h; _is_local := _is_local h; _local_sock := _local_sock h;
     _remote_sock := _remote_sock h; _stage := _stage h;
     _encryptor := _encryptor h;
     _data_to_write_to_local := _data_to_write_to_local h;
     _data_to_write_to_remote := _data_to_write_to_remote h;
     _upstream_status := _upstream_status h;
     _downstream_status := _downstream_status h;
     _remote_address := v; last_activity := last_activity h |}.

Definition set_last_activity (v : Z) (h : handler) : handler :=
  {| hid := hid h; _is_local := _is_local h; _local_sock := _local_sock h;
     _remote_sock := _remote_sock h; _stage := _stage h;
     _encryptor := _encryptor h;
     _data_to_write_to_local := _data_to_write_to_local h;
     _data_to_write_to_remote := _data_to_write_to_remote h;
     _upstream_status := _upstream_status h;
     _downstream_status := _downstream_status h;
     _remote_address := _remote_address h; last_activity := v |}.

Definition set_fd_to_handlers (v : gmap Z nat) (s : server) : server :=
  {| is_local := is_local s; config_timeout := config_timeout s;
     config_server := config_server s;
     config_server_port := config_server_port s;
     _server_socket := _server_socket s; _closed := _closed s;
     _fd_to_handlers := v; _last_time := _last_time s;
     _timeouts := _timeouts s; _timeout_offset := _timeout_offset s;
     _handler_to_timeouts := _handler_to_timeouts s; effects := effects s |}.

Definition set_last_time (v : Q) (s : server) : server :=
  {| is_local := is_local s; config_timeout := config_timeout s;
     config_server := config_server s;
     config_server_port := config_server_port s;
     _server_socket := _server_socket s; _closed := _closed s;
     _fd_to_handlers := _fd_to_handlers s; _last_time := v;
     _timeouts := _timeouts s; _timeout_offset := _timeout_offset s;
     _handler_to_timeouts := _handler_to_timeouts s; effects := effects s |}.

Definition set_timeouts (v : list (option nat)) (s : server) : server :=
  {| is_local := is_local s; config_timeout := config_timeout s;
     config_server := config_server s;
     config_server_port := config_server_port s;
     _server_socket := _server_socket s; _closed := _closed s;
     _fd_to_handlers := _fd_to_handlers s; _last_time := _last_time s;
     _timeouts := v; _timeout_offset := _timeout_offset s;
     _handler_to_timeouts := _handler_to_timeouts s; effects := effects s |}.

Definition set_timeout_offset (v : nat) (s : server) : server :=
  {| is_local := is_local s; config_timeout := config_timeout s;
     config_server := config_server s;
     config_server_port := config_server_port s;
     _server_socket := _server_socket s; _closed := _closed s;
     _fd_to_handlers := _fd_to_handlers s; _last_time := _last_time s;
     _timeouts := _timeouts s; _timeout_offset := v;
     _handler_to_timeouts := _handler_to_timeouts s; effects := effects s |}.

Definition set_handler_to_timeouts (v : gmap nat Z) (s : server) : server :=
  {| is_local := is_local s; config_timeout := config_timeout s;
     config_server := config_server s;
     config_server_port := config_server_port s;
     _server_socket := _server_socket s; _closed := _closed s;
     _fd_to_handlers := _fd_to_handlers s; _last_time := _last_time s;
     _timeouts := _timeouts s; _timeout_offset := _timeout_offset s;
     _handler_to_timeouts := v; effects := effects s |}.

Definition set_effects (v : list effect) (s : server) : server :=
  {| is_local := is_local s; config_timeout := config_timeout s;
     config_server := config_server s;
     config_server_port := config_server_port s;
     _server_socket := _server_socket s; _closed := _closed s;
     _fd_to_handlers := _fd_to_handlers s; _last_time := _last_time s;
     _timeouts := _timeouts s; _timeout_offset := _timeout_offset s;
     _handler_to_timeouts := _handler_to_timeouts s; effects := v |}.

Definition set_srv (v : server) (w : world) : world :=
  {| srv := v; heap := heap w; next_id := next_id w |}.

Definition set_heap (v : gmap nat handler) (w : world) : world :=
  {| srv := srv w; heap := v; next_id := next_id w |}.

(** *** Leaf operations *)

Definition self : M hstate handler := gets fst.
Definition server_of : M hstate server := gets snd.

Definition modify_self (f : handler → handler) : M hstate unit :=
  modify (λ st, (f st.1, st.2)).
Definition modify_server (f : server → server) : M hstate unit :=
  modify (λ st, (st.1, f st.2)).

Definition emit (ev : effect) : M hstate unit :=
  modify_server (λ s, set_effects (effects s ++ [ev]) s).

(** [self._timeouts[index] = v] *)
Definition timeouts_setitem (index : Z) (v : option nat) : M server unit := λ s,
  match py_setitem (_timeouts s) index v with
  | Some l => (set_timeouts l s, Ok tt)
  | None => (s, Raise IndexError)
  end.

(** [del self._fd_to_handlers[fd]] *)
Definition fd_to_handlers_del (fd : Z) : M server unit := λ s,
  match _fd_to_handlers s !! fd with
  | Some _ => (set_fd_to_handlers (delete fd (_fd_to_handlers s)) s, Ok tt)
  | None => (s, Raise KeyError)
  end.

(** Run a server operation from a handler method. *)
Definition on_server {A} (m : M server A) : M hstate A := λ st,
  let '(s', r) := m st.2 in ((st.1, s'), r).

Definition cipher_encrypt (data : bytes) : M hstate bytes := λ st,
  let '(out, c) := encrypt (_encryptor st.1) data in
  ((set_encryptor c st.1, st.2), Ok out).

Definition cipher_decrypt (data : bytes) : M hstate bytes := λ st,
  let '(out, c) := decrypt (_encryptor st.1) data in
  ((set_encryptor c st.1, st.2), Ok out).

Definition is_empty {A} (l : list A) : bool :=
  match l with [] => true | _ => false end.

(** Truth value of [a & b]. *)
Definition has_bits (a b : Z) : bool := negb (Z.land a b =? 0)%Z.

(** ** TCPRelay: the timeout index *)

(** [TCPRelay.remove_handler(handler)] *)
Definition remove_handler : M hstate unit :=
  h ← self;
  s ← server_of;
  let index := default (-1)%Z (_handler_to_timeouts s !! hid h) in
  if (0 <=? index)%Z then
    on_server (timeouts_setitem index None);;
    modify_server (λ s, set_handler_to_timeouts
                          (delete (hid h) (_handler_to_timeouts s)) s)
  else mret tt.

(** [TCPRelay.update_activity(handler)]; [t] is what [time.time()] reads.
    [TCPRelayHandler.update_activity] only delegates to it. *)
Definition update_activity (t : Q) : M hstate unit :=
  h ← self;
  let now := py_int t in
  if (now - last_activity h <? TIMEOUT_PRECISION)%Z then mret tt
  else
    modify_self (set_last_activity now);;
    s ← server_of;
    let index := default (-1)%Z (_handler_to_timeouts s !! hid h) in
    (if (0 <=? index)%Z then on_server (timeouts_setitem index None)
     else mret tt);;
    s ← server_of;
    let length := length (_timeouts s) in
    modify_server (λ s, set_timeouts (_timeouts s ++ [Some (hid h)]) s);;
    modify_server (λ s, set_handler_to_timeouts
                          (<[hid h := Z.of_nat length]> (_handler_to_timeouts s)) s).

(** ** TCPRelayHandler *)

(** [TCPRelayHandler.destroy()] *)
Definition destroy : M hstate unit :=
  h ← self;
  match _remote_sock h with
  | Some sock =>
      emit (LoopRemove sock);;
      on_server (fd_to_handlers_del (fileno sock));;
      emit (SockClose sock);;
      modify_self (set_remote_sock None)
  | None => mret tt
  end;;
  h ← self;
  match _local_sock h with
  | Some sock =>
      emit (LoopRemove sock);;
      on_server (fd_to_handlers_del (fileno sock));;
      emit (SockClose sock);;
      modify_self (set_local_sock None)
  | None => mret tt
  end;;
  remove_handler.

(** The masks [update_stream] hands to [loop.modify]. *)
Definition local_event (h : handler) : Z :=
  let event := POLL_ERR in
  let event := if has_bits (_downstream_status h) WAIT_STATUS_WRITING
               then Z.lor event POLL_OUT else event in
  let event := if has_bits (_upstream_status h) WAIT_STATUS_READING
               then Z.lor event POLL_IN else event in
  event.

Definition remote_event (h : handler) : Z :=
  let event := POLL_ERR in
  let event := if has_bits (_downstream_status h) WAIT_STATUS_READING
               then Z.lor event POLL_IN else event in
  let event := if has_bits (_upstream_status h) WAIT_STATUS_WRITING
               then Z.lor event POLL_OUT else event in
  event.

(** [TCPRelayHandler.update_stream(stream, status)] *)
Definition update_stream (stream status : Z) : M hstate unit :=
  h ← self;
  dirty ←
    (if (stream =? STREAM_DOWN)%Z then
       if negb (_downstream_status h =? status)%Z then
         modify_self (set_downstream_status status);; mret true
       else mret false
     else if (stream =? STREAM_UP)%Z then
       if negb (_upstream_status h =? status)%Z then
         modify_self (set_upstream_status status);; mret true
       else mret false
     else mret false);
  if dirty : bool then
    h ← self;
    match _local_sock h with
    | Some sock => emit (LoopModify sock (local_event h))
    | None => mret tt
    end;;
    match _remote_sock h with
    | Some sock => emit (LoopModify sock (remote_event h))
    | None => mret tt
    end
  else mret tt.

(** [TCPRelayHandler.write_to_sock(data, sock)]; [sent] is what
    [sock.send(data)] does. *)
Definition write_to_sock (sent : send_result) (data : bytes)
    (sock : option socket) : M hstate unit :=
  match sock with
  | None => mret tt
  | Some sock =>
    if is_empty data then mret tt else
    emit (SockSend sock data);;
    '(data, uncomplete) ←
      match sent with
      | Sent s =>
          if s <? length data then mret (drop s data, true)
          else mret (data, false)
      | SendError EAGAIN | SendError EINPROGRESS => mret (data, true)
      | SendError _ => destroy;; mret (data, false)
      end;
    h ← self;
    if uncomplete : bool then
      if bool_decide (Some sock = _local_sock h) then
        modify_self (λ h, set_data_to_write_to_local
                            (_data_to_write_to_local h ++ [data]) h);;
        update_stream STREAM_DOWN WAIT_STATUS_WRITING
      else if bool_decide (Some sock = _remote_sock h) then
        modify_self (λ h, set_data_to_write_to_remote
                            (_data_to_write_to_remote h ++ [data]) h);;
        update_stream STREAM_UP WAIT_STATUS_WRITING
      else mret tt
    else
      if bool_decide (Some sock = _local_sock h) then
        update_stream STREAM_DOWN WAIT_STATUS_READING
      else if bool_decide (Some sock = _remote_sock h) then
        update_stream STREAM_UP WAIT_STATUS_READING
      else mret tt
  end.

(** The part of the [try] block of [on_local_read] from [parse_header] on. *)
Definition on_local_read_connect (e : env) (is_local : bool) (data : bytes)
    : M hstate unit :=
  match parse_header data with
  | None => raise Exception
  | Some (addrtype, remote_addr, remote_port, header_length) =>
    modify_self (set_remote_address (Some (remote_addr, remote_port)));;
    '(remote_addr, remote_port) ←
      (if is_local then
         h ← self;
         write_to_sock (send e)
           ([x05; x00; x00; x01] ++ [x00; x00; x00; x00; x10; x10])
           (_local_sock h);;
         data_to_send ← cipher_encrypt data;
         modify_self (λ h, set_data_to_write_to_remote
                             (_data_to_write_to_remote h ++ [data_to_send]) h);;
         s ← server_of;
         mret (config_server s, config_server_port s)
       else
         (if header_length <? length data then
            modify_self (λ h, set_data_to_write_to_remote
                                (_data_to_write_to_remote h
                                 ++ [drop header_length data]) h)
          else mret tt);;
         mret (remote_addr, remote_port));
    match getaddrinfo e remote_addr remote_port with
    | [] => raise Exception
    | (af, sa) :: _ =>
      let remote_sock := socket_socket e af in
      modify_self (set_remote_sock (Some remote_sock));;
      h ← self;
      modify_server (λ s, set_fd_to_handlers
                            (<[fileno remote_sock := hid h]> (_fd_to_handlers s)) s);;
      emit (SockSetBlocking remote_sock false);;
      emit (SockNoDelay remote_sock);;
      emit (SockConnect remote_sock sa);;
      emit (LoopAdd remote_sock (Z.lor POLL_ERR POLL_OUT));;
      modify_self (set_stage STAGE_REPLY);;
      update_stream STREAM_UP WAIT_STATUS_READWRITING;;
      update_stream STREAM_DOWN WAIT_STATUS_READING
    end
  end.

(** The [try] block of [on_local_read]. *)
Definition on_local_read_try (e : env) (is_local : bool) (data : bytes)
    : M hstate unit :=
  if is_local then
    match data !! 1%nat with
    | None => raise IndexError
    | Some c =>
      let cmd := ord c in
      if (cmd =? CMD_UDP_ASSOCIATE)%Z then
        h ← self;
        match _local_sock h with
        | None => raise AttributeError
        | Some local_sock =>
          match family local_sock with
          | AF_INET6 =>
            (* header = '\x05\x00\x00\x04'; [getsockname()] of an IPv6
               socket is a 4-tuple, so [addr, port = ...] raises *)
            raise ValueError
          | AF_INET =>
            let header := [x05; x00; x00; x01] in
            let '(addr_to_send, port) := getsockname e in
            let port_to_send := pack_H port in
            write_to_sock (send e) (header ++ addr_to_send ++ port_to_send)
              (Some local_sock);;
            modify_self (set_stage STAGE_UDP_ASSOC)
          end
        end
      else if (cmd =? CMD_CONNECT)%Z then
        on_local_read_connect e is_local (drop 3 data)
      else destroy
    end
  else on_local_read_connect e is_local data.

(** [TCPRelayHandler.on_local_read()] *)
Definition on_local_read (e : env) : M hstate unit :=
  update_activity (time_time e);;
  h ← self;
  match _local_sock h with
  | None => mret tt
  | Some _ =>
    let is_local := _is_local h in
    match recv e with
    | RecvError ETIMEDOUT | RecvError EAGAIN => mret tt
    | RecvError _ => destroy
    | Recv data =>
      if is_empty data then destroy else
      data ← (if negb is_local then cipher_decrypt data else mret data);
      if negb is_local && is_empty data then mret tt else
      h ← self;
      if (_stage h =? STAGE_STREAM)%Z then
        data ← (if _is_local h then cipher_encrypt data else mret data);
        h ← self;
        write_to_sock (send e) data (_remote_sock h)
      else if is_local && (_stage h =? STAGE_INIT)%Z then
        write_to_sock (send e) [x05; x00] (_local_sock h);;
        modify_self (set_stage STAGE_HELLO)
      else if (_stage h =? STAGE_REPLY)%Z then
        data ← (if is_local then cipher_encrypt data else mret data);
        modify_self (λ h, set_data_to_write_to_remote
                            (_data_to_write_to_remote h ++ [data]) h)
      else if (is_local && (_stage h =? STAGE_HELLO)%Z)
              || (negb is_local && (_stage h =? STAGE_INIT)%Z) then
        try_except (on_local_read_try e is_local data) (λ _, destroy)
      else mret tt
    end
  end.

(** [TCPRelayHandler.on_remote_read()] *)
Definition on_remote_read (e : env) : M hstate unit :=
  update_activity (time_time e);;
  h ← self;
  match _remote_sock h with
  | None => raise AttributeError
  | Some _ =>
    match recv e with
    | RecvError ETIMEDOUT | RecvError EAGAIN => mret tt
    | RecvError _ => destroy
    | Recv data =>
      if is_empty data then destroy else
      data ← (if _is_local h then cipher_decrypt data else cipher_encrypt data);
      try_except
        (h ← self; write_to_sock (send e) data (_local_sock h))
        (λ _, destroy)
    end
  end.

(** [TCPRelayHandler.on_local_write()] *)
Definition on_local_write (e : env) : M hstate unit :=
  h ← self;
  if negb (is_empty (_data_to_write_to_local h)) then
    let data := concat (_data_to_write_to_local h) in
    modify_self (set_data_to_write_to_local []);;
    write_to_sock (send e) data (_local_sock h)
  else update_stream STREAM_DOWN WAIT_STATUS_READING.

(** [TCPRelayHandler.on_remote_write()] *)
Definition on_remote_write (e : env) : M hstate unit :=
  modify_self (set_stage STAGE_STREAM);;
  h ← self;
  if negb (is_empty (_data_to_write_to_remote h)) then
    let data := concat (_data_to_write_to_remote h) in
    modify_self (set_data_to_write_to_remote []);;
    write_to_sock (send e) data (_remote_sock h)
  else update_stream STREAM_UP WAIT_STATUS_READING.

(** [on_local_error] and [on_remote_error]: log, then destroy. *)
Definition on_local_error : M hstate unit := destroy.
Definition on_remote_error : M hstate unit := destroy.

Definition when {S} (b : bool) (m : M S unit) : M S unit :=
  if b then m else mret tt.

(** [TCPRelayHandler.handle_event(sock, event)]; [ein] answers the read
    callback and [eout] the write callback. *)
Definition handle_event (ein eout : env) (sock : socket) (event : Z)
    : M hstate unit :=
  h ← self;
  if bool_decide (Some sock = _remote_sock h) then
    when (has_bits event POLL_IN) (on_remote_read ein);;
    when (has_bits event POLL_OUT) (on_remote_write eout);;
    when (has_bits event POLL_ERR) on_remote_error
  else if bool_decide (Some sock = _local_sock h) then
    when (has_bits event POLL_IN) (on_local_read ein);;
    when (has_bits event POLL_OUT) (on_local_write eout);;
    when (has_bits event POLL_ERR) on_local_error
  else mret tt.

(** [TCPRelayHandler.__init__]: the fields of the new object ... *)
Definition new_handler (c : cipher) (id : nat) (local_sock : socket)
    (is_local : bool) : handler :=
  {| hid := id; _is_local := is_local; _local_sock := Some local_sock;
     _remote_sock := None; _stage := STAGE_INIT; _encryptor := c;
     _data_to_write_to_local := []; _data_to_write_to_remote := [];
     _upstream_status := WAIT_STATUS_READING;
     _downstream_status := WAIT_STATUS_INIT;
     _remote_address := None; last_activity := 0 |}.

(** ... and the statements that follow their assignment. *)
Definition handler_init (t : Q) : M hstate unit :=
  h ← self;
  match _local_sock h with
  | None => raise AttributeError
  | Some local_sock =>
    modify_server (λ s, set_fd_to_handlers
                          (<[fileno local_sock := hid h]> (_fd_to_handlers s)) s);;
    emit (SockSetBlocking local_sock false);;
    emit (SockNoDelay local_sock);;
    emit (LoopAdd local_sock (Z.lor POLL_IN POLL_ERR));;
    update_activity t
  end.

(** ** TCPRelay: the sweeper and the dispatcher *)

Definition in_server {A} (m : M server A) : M world A := λ w,
  let '(s', r) := m (srv w) in (set_srv s' w, r).

(** Run a method of the handler object [k]. *)
Definition with_handler {A} (k : nat) (m : M hstate A) : M world A := λ w,
  match heap w !! k with
  | None => (w, Raise DanglingRef)
  | Some h =>
    let '((h', s'), r) := m (h, srv w) in
    ({| srv := s'; heap := <[k := h']> (heap w); next_id := next_id w |}, r)
  end.

(** The [while pos < length] loop of [_sweep_timeout]; every round either
    breaks or advances [pos], so [length - pos] rounds are enough. *)
Fixpoint sweep_loop (now : Q) (length : nat) (fuel : nat) (pos : nat)
    : M world nat :=
  match fuel with
  | O => mret pos
  | S fuel =>
    if pos <? length then
      w ← gets id;
      match _timeouts (srv w) !! pos with
      | None => raise IndexError
      | Some (Some k) =>
        match heap w !! k with
        | None => raise DanglingRef
        | Some handler =>
          if Qltb (now - inject_Z (last_activity handler))
                  (inject_Z (config_timeout (srv w)))
          then mret pos
          else
            with_handler k destroy;;
            in_server (timeouts_setitem (Z.of_nat pos) None);;
            sweep_loop now length fuel (S pos)
        end
      | Some None => sweep_loop now length fuel (S pos)
      end
    else mret pos
  end.

(** [TCPRelay._sweep_timeout()]; [now] is what [time.time()] reads. *)
Definition _sweep_timeout (now : Q) : M world unit :=
  w ← gets id;
  if negb (is_empty (_timeouts (srv w))) then
    let length := length (_timeouts (srv w)) in
    let pos := _timeout_offset (srv w) in
    pos ← sweep_loop now length (length - pos) pos;
    pos ←
      (if (TIMEOUTS_CLEAN_SIZE <? pos) && (Nat.shiftr length 1 <? pos) then
         in_server (modify (λ s, set_timeouts (drop pos (_timeouts s)) s));;
         in_server (modify (λ s, set_handler_to_timeouts
                                   ((λ i, i - Z.of_nat pos)%Z
                                      <$> _handler_to_timeouts s) s));;
         mret 0
       else mret pos);
    in_server (modify (set_timeout_offset pos))
  else mret tt.

(** One entry of the batch handed to [_handle_events], with what the outside
    world answers while it is processed. *)
Record event := {
  ev_sock : option socket;
  ev_fd : Z;
  ev_mask : Z;
  ev_accept : accept_result;
  ev_cipher : cipher;
  ev_in : env;
  ev_out : env;
}.

(** The body of the [for] loop of [_handle_events] for one event. *)
Definition dispatch (ev : event) : M world unit :=
  w ← gets id;
  if bool_decide (ev_sock ev = Some (_server_socket (srv w))) then
    if has_bits (ev_mask ev) POLL_ERR then raise Exception
    else
      match ev_accept ev with
      | Accepted conn =>
        let k := next_id w in
        modify (λ w, {| srv := srv w;
                        heap := <[k := new_handler (ev_cipher ev) k conn
                                         (is_local (srv w))]> (heap w);
                        next_id := S k |});;
        with_handler k (handler_init (time_time (ev_in ev)))
      | AcceptError _ => mret tt
      end
  else
    match ev_sock ev with
    | Some sock =>
      match _fd_to_handlers (srv w) !! ev_fd ev with
      | Some k =>
        with_handler k (handle_event (ev_in ev) (ev_out ev) sock (ev_mask ev))
      | None => mret tt
      end
    | None => mret tt
    end.

Fixpoint dispatch_all (events : list event) : M world unit :=
  match events with
  | [] => mret tt
  | ev :: events => dispatch ev;; dispatch_all events
  end.

(** [TCPRelay._handle_events(events)]; [now] is read after the batch and
    [now_sweep] inside the sweeper. *)
Definition _handle_events (events : list event) (now now_sweep : Q)
    : M world unit :=
  dispatch_all events;;
  w ← gets id;
  if Qltb (inject_Z TIMEOUT_PRECISION) (now - _last_time (srv w)) then
    _sweep_timeout now_sweep;;
    in_server (modify (set_last_time now))
  else mret tt.

(** ** Specification vocabulary *)

(** *** The timeout index *)

(** Every stored index is the position of a live entry for its key ... *)
Definition index_points_to_entry (ts : list (option nat)) (ix : gmap nat Z)
    : Prop :=
  ∀ k p, ix !! k = Some p →
    (0 ≤ p)%Z ∧ ts !! Z.to_nat p = Some (Some k).

(** ... every live entry sits at the stored index of its handler (so a
    handler has at most one) ... *)
Definition entry_is_indexed (ts : list (option nat)) (ix : gmap nat Z)
    : Prop :=
  ∀ i k, ts !! i = Some (Some k) → ix !! k = Some (Z.of_nat i).

(** ... and what lies before the cursor are tombstones. *)
Definition swept_prefix (ts : list (option nat)) (off : nat) : Prop :=
  off ≤ length ts ∧ ∀ i, i < off → ts !! i = Some None.

Definition coherent_at (ts : list (option nat)) (ix : gmap nat Z) (off : nat)
    : Prop :=
  index_points_to_entry ts ix ∧ entry_is_indexed ts ix ∧ swept_prefix ts off.

Definition coherent (s : server) : Prop :=
  coherent_at (_timeouts s) (_handler_to_timeouts s) (_timeout_offset s).

(** A heap cell holds the object of that identity; an entry of [_timeouts]
    refers to an object. *)
Definition heap_ok (w : world) : Prop :=
  ∀ k h, heap w !! k = Some h → hid h = k.

Definition no_dangling (w : world) : Prop :=
  ∀ i k, _timeouts (srv w) !! i = Some (Some k) → is_Some (heap w !! k).

Definition timeout_index_ok (w : world) : Prop :=
  heap_ok w ∧ coherent (srv w).

(** [k] has an entry at exactly one position, the one stored for it. *)
Definition at_one_position (s : server) (k : nat) : Prop :=
  ∃ p, _handler_to_timeouts s !! k = Some p ∧ (0 ≤ p)%Z ∧
       ∀ i, _timeouts s !! i = Some (Some k) ↔ i = Z.to_nat p.

(** The handlers of the timeout queue: those with an entry or an index. *)
Definition queued (s : server) (k : nat) : Prop :=
  (∃ i, _timeouts s !! i = Some (Some k)) ∨
  is_Some (_handler_to_timeouts s !! k).

(** The server operations on the timeout structures. *)
Inductive timeout_op :=
| OpUpdateActivity (k : nat) (t : Q)
| OpRemoveHandler (k : nat)
| OpSweep (now : Q).

Definition run_timeout_op (op : timeout_op) : M world unit :=
  match op with
  | OpUpdateActivity k t => with_handler k (update_activity t)
  | OpRemoveHandler k => with_handler k remove_handler
  | OpSweep now => _sweep_timeout now
  end.

(** *** Activity order *)

Definition entry_activity (w : world) (entry : option nat) : option Z :=
  k ← entry; last_activity <$> heap w !! k.

(** The [last_activity] values over the non-tombstone entries, in order. *)
Definition live_activities (w : world) : list Z :=
  omap (entry_activity w) (_timeouts (srv w)).

Definition clock_not_behind (t : Q) (w : world) : Prop :=
  Forall (λ a, (a ≤ py_int t)%Z) (live_activities w).

(** [update_activity] keeps the live activities in order whatever the
    clock reads. *)
Definition activity_order_unconditional : Prop :=
  ∀ k t w h,
    timeout_index_ok w → heap w !! k = Some h → (0 <= t)%Q →
    Sorted Z.le (live_activities w) →
    Sorted Z.le (live_activities (with_handler k (update_activity t) w).1).

(** The entry of [k] turned into a tombstone, when it has one. *)
Definition tombstoned (k : nat) (s : server) : list (option nat) :=
  match _handler_to_timeouts s !! k with
  | Some p => <[Z.to_nat p := None]> (_timeouts s)
  | None => _timeouts s
  end.

(** *** Sockets and the descriptor map *)

Definition sockets_registered (h : handler) (s : server) : Prop :=
  (∀ sock, _local_sock h = Some sock →
     _fd_to_handlers s !! fileno sock = Some (hid h)) ∧
  (∀ sock, _remote_sock h = Some sock →
     _fd_to_handlers s !! fileno sock = Some (hid h)) ∧
  (∀ l r, _local_sock h = Some l → _remote_sock h = Some r →
     fileno l ≠ fileno r).

Definition fds_registered (w : world) : Prop :=
  ∀ k h, heap w !! k = Some h → sockets_registered h (srv w).

Definition released (h : handler) : Prop :=
  _local_sock h = None ∧ _remote_sock h = None.

(** The effects of releasing a socket, and how often one is closed. *)
Definition release_effects (sock : option socket) : list effect :=
  match sock with
  | Some sock => [LoopRemove sock; SockClose sock]
  | None => []
  end.

Definition is_close_of (sock : socket) (ev : effect) : bool :=
  match ev with
  | SockClose s => bool_decide (s = sock)
  | _ => false
  end.

Definition closes (sock : socket) (l : list effect) : nat :=
  length (filter (λ ev, is_close_of sock ev = true) l).

Definition unregister (sock : option socket) (fds : gmap Z nat) : gmap Z nat :=
  match sock with
  | Some sock => delete (fileno sock) fds
  | None => fds
  end.

(** The entry and the index of [k] dropped from the server. *)
Definition unindexed (k : nat) (s : server) : server :=
  match _handler_to_timeouts s !! k with
  | Some p =>
      set_handler_to_timeouts (delete k (_handler_to_timeouts s))
        (set_timeouts (<[Z.to_nat p := None]> (_timeouts s)) s)
  | None => s
  end.

(** What [destroy] makes of a handler whose sockets are registered. *)
Definition destroy_result (h : handler) (s : server) : hstate :=
  (set_local_sock None (set_remote_sock None h),
   unindexed (hid h)
     (set_effects
        (effects s ++ release_effects (_remote_sock h)
                   ++ release_effects (_local_sock h))
        (set_fd_to_handlers
           (unregister (_local_sock h)
              (unregister (_remote_sock h) (_fd_to_handlers s))) s))).

(** *** States to run the examples on *)

(** The fields [TCPRelay.__init__] sets, for a relay with timeout 300 that
    listens on descriptor 3 and forwards to port 8388. *)
Definition new_server (is_local : bool) (t : Q) : server :=
  {| is_local := is_local; config_timeout := 300;
     config_server := [x0a; x00; x00; x01]; config_server_port := 8388;
     _server_socket := sample_socket 3; _closed := false;
     _fd_to_handlers := ∅; _last_time := t; _timeouts := [];
     _timeout_offset := 0; _handler_to_timeouts := ∅; effects := [] |}.

Definition new_world (is_local : bool) (t : Q) : world :=
  {| srv := new_server is_local t; heap := ∅; next_id := 0 |}.

Definition sample_env (n : nat) (t : Q) (r : recv_result) (sd : send_result)
    : env :=
  {| time_time := t; recv := r; send := sd;
     getsockname := ([x7f; x00; x00; x01], 1080%Z);
     getaddrinfo := λ host port, [(AF_INET, (host, port))];
     socket_socket := λ af,
       {| sock_id := n; fileno := Z.of_nat n; family := af |} |}.

(** A world whose heap holds one freshly constructed handler, its socket
    registered under descriptor 5. *)
Definition one_handler_world (c : cipher) (is_local : bool) : world :=
  {| srv := set_fd_to_handlers {[ 5%Z := 0 ]} (new_server is_local 0);
     heap := {[ 0 := new_handler c 0 (sample_socket 5) is_local ]};
     next_id := 1 |}.

(** A handler of the local role that has answered the greeting and waits
    for the request; its socket is descriptor 5 of [one_handler_world]. *)
Definition hello_handler (c : cipher) : handler :=
  set_stage STAGE_HELLO (new_handler c 0 (sample_socket 5) true).

(** A relay in mid-stream: handler 0 holds the client on descriptor 5 and
    the upstream on descriptor 6, and was last active at time 100. *)
Definition streaming_handler (c : cipher) (is_local : bool) : handler :=
  {| hid := 0; _is_local := is_local;
     _local_sock := Some (sample_socket 5);
     _remote_sock := Some (sample_socket 6);
     _stage := STAGE_STREAM; _encryptor := c;
     _data_to_write_to_local := []; _data_to_write_to_remote := [];
     _upstream_status := WAIT_STATUS_READING;
     _downstream_status := WAIT_STATUS_READING;
     _remote_address := Some ([x0a; x00; x00; x02], 80%Z);
     last_activity := 100 |}.

Definition streaming_server (is_local : bool) : server :=
  set_handler_to_timeouts {[ 0 := 0%Z ]}
    (set_timeouts [Some 0]
       (set_fd_to_handlers {[ 5%Z := 0; 6%Z := 0 ]} (new_server is_local 100))).

Definition streaming_world (c : cipher) (is_local : bool) : world :=
  {| srv := streaming_server is_local;
     heap := {[ 0 := streaming_handler c is_local ]};
     next_id := 1 |}.

(** The same handler one stage earlier, while the upstream connects, with
    one chunk already queued. *)
Definition connecting_handler (c : cipher) (is_local : bool) : handler :=
  set_data_to_write_to_remote [[x01; x02]]
    (set_upstream_status WAIT_STATUS_READWRITING
       (set_stage STAGE_REPLY (streaming_handler c is_local))).

(** The streaming world with the last sweep at time 1000; its handler has
    been idle since 100. *)
Definition idle_world (c : cipher) : world :=
  set_srv (set_last_time 1000 (streaming_server true))
    (streaming_world c true).

(** Descriptor 5 is readable and the client has sent two bytes. *)
Definition readable_5 (c : cipher) : event :=
  {| ev_sock := Some (sample_socket 5); ev_fd := 5; ev_mask := 1;
     ev_accept := AcceptError EAGAIN; ev_cipher := c;
     ev_in := sample_env 7 1005 (Recv [x41; x42]) (Sent 2);
     ev_out := sample_env 7 1005 (Recv []) (Sent 2) |}.

(** A queue of 513 tombstones before the entry of the streaming handler,
    which was last active at time 100. *)
Definition compaction_world (c : cipher) : world :=
  {| srv := set_handler_to_timeouts {[ 0 := 513%Z ]}
              (set_timeouts (replicate 513 None ++ [Some 0])
                 (streaming_server true));
     heap := {[ 0 := streaming_handler c true ]};
     next_id := 1 |}.

(** Two handlers in the queue: handler 0, the streaming handler, last
    active at [a0], and handler 1, which holds a client on descriptor 7 and
    was last active at [a1]. *)
Definition two_handler_world (c : cipher) (a0 a1 : Z) : world :=
  {| srv := set_handler_to_timeouts {[ 0 := 0%Z; 1 := 1%Z ]}
              (set_timeouts [Some 0; Some 1]
                 (set_fd_to_handlers {[ 5%Z := 0; 6%Z := 0; 7%Z := 1 ]}
                    (new_server true 100)));
     heap := {[ 0 := set_last_activity a0 (streaming_handler c true);
                1 := set_last_activity a1
                       (new_handler c 1 (sample_socket 7) true) ]};
     next_id := 2 |}.

(** *** Directions of the byte pump *)

(** Writing to [local_sock] concerns the downstream, writing to
    [remote_sock] the upstream. *)
Inductive direction := Downstream | Upstream.

Definition direction_of (h : handler) (sock : socket) : option direction :=
  if bool_decide (Some sock = _local_sock h) then Some Downstream
  else if bool_decide (Some sock = _remote_sock h) then Some Upstream
  else None.

Definition pending (d : direction) (h : handler) : list bytes :=
  match d with
  | Downstream => _data_to_write_to_local h
  | Upstream => _data_to_write_to_remote h
  end.

Definition status (d : direction) (h : handler) : Z :=
  match d with
  | Downstream => _downstream_status h
  | Upstream => _upstream_status h
  end.

(** The event masks are distinct flags. *)
Definition distinct_flags : Prop :=
  POLL_IN ≠ 0%Z ∧ POLL_OUT ≠ 0%Z ∧
  Z.land POLL_ERR POLL_IN = 0%Z ∧ Z.land POLL_ERR POLL_OUT = 0%Z ∧
  Z.land POLL_IN POLL_OUT = 0%Z.

(** The interest mask: [ERR], plus [OUT] when [out] holds, plus [IN] when
    [inp] holds, and no other bit. *)
Definition interest_mask (out inp : bool) : Z :=
  Z.lor (Z.lor POLL_ERR (if out then POLL_OUT else 0%Z))
        (if inp then POLL_IN else 0%Z).

(** The [loop.modify] calls for the sockets that are still held. *)
Definition modify_effects (sock : option socket) (mask : Z) : list effect :=
  match sock with
  | Some sock => [LoopModify sock mask]
  | None => []
  end.

(** *** The sweep *)

(** The handler has been idle for at least the timeout. *)
Definition stale (now : Q) (s : server) (h : handler) : Prop :=
  (inject_Z (config_timeout s) <= now - inject_Z (last_activity h))%Q.

(** The state the dispatcher keeps between callbacks. *)
Definition sweep_ready (w : world) : Prop :=
  heap_ok w ∧ coherent (srv w) ∧ fds_registered w ∧ no_dangling w.

(** [k], whose object was [h], has been destroyed by the time of [w']. *)
Definition destroyed_in (w' : world) (k : nat) (h : handler) : Prop :=
  heap w' !! k = Some (set_local_sock None (set_remote_sock None h)) ∧
  _handler_to_timeouts (srv w') !! k = None ∧
  ∀ sock, _local_sock h = Some sock ∨ _remote_sock h = Some sock →
    SockClose sock ∈ effects (srv w').

(** The walk from [pos] to [pos'], which turns [w] into [w']: every entry
    passed is a tombstone or a stale handler, destroyed on the way; the walk
    ends at the end of the sequence or at a live entry fresher than the
    timeout. *)
Definition walked (now : Q) (w : world) (pos pos' : nat) (w' : world) : Prop :=
  pos ≤ pos' ≤ length (_timeouts (srv w)) ∧
  (∀ i, pos ≤ i < pos' →
     _timeouts (srv w) !! i = Some None ∨
     ∃ k h, _timeouts (srv w) !! i = Some (Some k) ∧ heap w !! k = Some h ∧
            stale now (srv w) h ∧ destroyed_in w' k h) ∧
  (pos' = length (_timeouts (srv w)) ∨
   ∃ k h, _timeouts (srv w) !! pos' = Some (Some k) ∧ heap w !! k = Some h ∧
          ¬ stale now (srv w) h).

(** The entries between [pos] and [pos'] made tombstones. *)
Definition tombstones_between (pos pos' : nat) (ts : list (option nat))
    : list (option nat) :=
  take pos ts ++ replicate (pos' - pos) None ++ drop pos' ts.

(** The index without the handlers indexed before [pos'], the others moved
    down by [shift]. *)
Definition index_after_sweep (pos' : nat) (shift : Z) (ix : gmap nat Z)
    : gmap nat Z :=
  omap (λ p, if (p <? Z.of_nat pos')%Z then None else Some (p - shift)%Z) ix.

(** What the walk leaves besides: the other objects, the sequence outside
    the walk, the index of the handlers not met. *)
Definition walk_frame (w : world) (pos pos' : nat) (w' : world) : Prop :=
  _timeouts (srv w') = tombstones_between pos pos' (_timeouts (srv w)) ∧
  (∀ k, (∀ i, pos ≤ i < pos' → _timeouts (srv w) !! i ≠ Some (Some k)) →
     heap w' !! k = heap w !! k ∧
     _handler_to_timeouts (srv w') !! k = _handler_to_timeouts (srv w) !! k) ∧
  effects (srv w) `prefix_of` effects (srv w') ∧
  config_timeout (srv w') = config_timeout (srv w) ∧
  _timeout_offset (srv w') = _timeout_offset (srv w).

Definition sweep_inv (pos : nat) (w : world) : Prop :=
  heap_ok w ∧
  coherent_at (_timeouts (srv w)) (_handler_to_timeouts (srv w)) pos ∧
  fds_registered w ∧ no_dangling w.

(** *** Stages *)

(** One move of the stage machine: the handler stays, or takes one of the
    transitions of its role. *)
Definition stage_edge (is_local : bool) (s s' : Z) : Prop :=
  s' = s ∨
  (is_local = true ∧ s = STAGE_INIT ∧ s' = STAGE_HELLO) ∨
  (is_local = true ∧ s = STAGE_HELLO ∧ s' = STAGE_REPLY) ∨
  (is_local = true ∧ s = STAGE_HELLO ∧ s' = STAGE_UDP_ASSOC) ∨
  (is_local = false ∧ s = STAGE_INIT ∧ s' = STAGE_REPLY) ∨
  (s = STAGE_REPLY ∧ s' = STAGE_STREAM).

(** A handler that holds a remote socket has reached [REPLY]. *)
Definition connected_when_remote (h : handler) : Prop :=
  _remote_sock h ≠ None → _stage h = STAGE_REPLY ∨ _stage h = STAGE_STREAM.

(** What one callback makes of the handler. *)
Definition edge_rel (st st' : hstate) : Prop :=
  hid st'.1 = hid st.1 ∧ _is_local st'.1 = _is_local st.1 ∧
  stage_edge (_is_local st.1) (_stage st.1) (_stage st'.1) ∧
  (_remote_sock st'.1 = _remote_sock st.1 ∨ _remote_sock st'.1 = None ∨
   _stage st'.1 = STAGE_REPLY).

(** The stage sequences of the two roles. *)
Definition stage_paths (is_local : bool) : list (list Z) :=
  if is_local then
    [[STAGE_INIT; STAGE_HELLO; STAGE_REPLY; STAGE_STREAM];
     [STAGE_INIT; STAGE_HELLO; STAGE_UDP_ASSOC]]
  else [[STAGE_INIT; STAGE_REPLY; STAGE_STREAM]].

Definition on_a_path (is_local : bool) (stages : list Z) : Prop :=
  ∃ path, path ∈ stage_paths is_local ∧ stages `prefix_of` path.

(** What happens to a handler: the dispatcher, whose server is in some state
    [s] by then, hands it an event on a socket, or the sweeper destroys
    it. *)
Inductive action :=
| Dispatched (s : server) (ein eout : env) (sock : socket) (event : Z)
| Swept (s : server).

Definition act (a : action) (h : handler) : handler :=
  match a with
  | Dispatched s ein eout sock event =>
      (handle_event ein eout sock event (h, s)).1.1
  | Swept s => (destroy (h, s)).1.1
  end.

(** The stage before and after every action. *)
Fixpoint stage_history (h : handler) (acts : list action) : list Z :=
  _stage h ::
  match acts with
  | [] => []
  | a :: acts => stage_history (act a h) acts
  end.

(** The distinct values of a sequence, in order of appearance. *)
Fixpoint distinct_stages (l : list Z) : list Z :=
  match l with
  | [] => []
  | a :: l =>
    match distinct_stages l with
    | [] => [a]
    | b :: rest => if decide (a = b) then b :: rest else a :: b :: rest
    end
  end.

(** Consecutive stages that differ by one transition. *)
Fixpoint chain (is_local : bool) (l : list Z) : Prop :=
  match l with
  | a :: l =>
    match l with
    | b :: _ => a ≠ b ∧ stage_edge is_local a b ∧ chain is_local l
    | [] => True
    end
  | [] => True
  end.

(** [_last_time] and the role and the configuration of the server stay. *)
Definition server_kept (st st' : hstate) : Prop :=
  _last_time st'.2 = _last_time st.2 ∧ is_local st'.2 = is_local st.2 ∧
  config_timeout st'.2 = config_timeout st.2 ∧
  _server_socket st'.2 = _server_socket st.2.

(** *** What is sent *)

(** The [send] calls among the effects: socket and bytes handed over. *)
Definition sends (l : list effect) : list (socket * bytes) :=
  omap (λ ev, match ev with SockSend s d => Some (s, d) | _ => None end) l.

(** The chunk as it is queued for the upstream: encrypted at the local
    role, decrypted at the remote role. *)
Definition relayed_chunk (h : handler) (data : bytes) : bytes :=
  if _is_local h then (encrypt (_encryptor h) data).1
  else (decrypt (_encryptor h) data).1.

(** Effects are only ever appended. *)
Definition effects_grow (st st' : hstate) : Prop :=
  effects st.2 `prefix_of` effects st'.2.

(** The upstream queue stays as it is. *)
Definition upstream_kept (st st' : hstate) : Prop :=
  _data_to_write_to_remote st'.1 = _data_to_write_to_remote st.1.

(** *** The CONNECT request *)

(** What a callee leaves of the request being handled: the address parsed,
    the cipher, the upstream queue, the configuration, and what has been
    sent. *)
Definition request_kept (st st' : hstate) : Prop :=
  hid st'.1 = hid st.1 ∧ _is_local st'.1 = _is_local st.1 ∧
  _remote_address st'.1 = _remote_address st.1 ∧
  _encryptor st'.1 = _encryptor st.1 ∧
  _data_to_write_to_remote st'.1 = _data_to_write_to_remote st.1 ∧
  config_server st'.2 = config_server st.2 ∧
  config_server_port st'.2 = config_server_port st.2 ∧
  sends (effects st'.2) = sends (effects st.2) ∧
  effects st.2 `prefix_of` effects st'.2.

(** The same, and the sockets and the stage as well. *)
Definition statuses_only (st st' : hstate) : Prop :=
  request_kept st st' ∧ _stage st'.1 = _stage st.1 ∧
  _remote_sock st'.1 = _remote_sock st.1 ∧
  _local_sock st'.1 = _local_sock st.1.

(** Calls that only close a socket or change what the poller watches. *)
Definition housekeeping (ev : effect) : Prop :=
  match ev with
  | LoopModify _ _ | LoopRemove _ | SockClose _ => True
  | _ => False
  end.

(** A [loop.modify] call. *)
Definition poller_update (ev : effect) : Prop :=
  match ev with
  | LoopModify _ _ => True
  | _ => False
  end.

(** The calls made between [st] and [st'] all satisfy [P]. *)
Definition grows_by (P : effect → Prop) (st st' : hstate) : Prop :=
  ∃ evs, effects st'.2 = effects st.2 ++ evs ∧ Forall P evs.

(** The calls of a non-blocking connect of [r] to [sa], in the order in
    which the source makes them: the socket is made non-blocking before
    [connect] is called, and is handed to the poller after it, for [ERR]
    and [OUT]. *)
Definition nonblocking_connect (r : socket) (sa : sockaddr) : list effect :=
  [SockSetBlocking r false; SockNoDelay r; SockConnect r sa;
   LoopAdd r (Z.lor POLL_ERR POLL_OUT)].

(** The handling of a CONNECT request [data] read from [l], as the state
    [st'] after the callback shows it: an address recorded, the success
    reply sent to the client and nothing else sent, the encrypted request
    (less its first three bytes) queued for the upstream, and a
    non-blocking connect started to the first address of the configured
    server.  The calls made are, in this order: the [send] of the reply;
    calls that only close a socket or update the poller; the calls of the
    non-blocking connect, with nothing in between them; [loop.modify]
    calls. *)
Definition connect_handled (e : env) (h : handler) (s : server) (l : socket)
    (data : bytes) (st' : hstate) : Prop :=
  is_Some (_remote_address st'.1) ∧
  sends (effects st'.2) =
    sends (effects s)
    ++ [(l, [x05; x00; x00; x01; x00; x00; x00; x00; x10; x10])] ∧
  _data_to_write_to_remote st'.1 =
    _data_to_write_to_remote h ++ [(encrypt (_encryptor h) (drop 3 data)).1] ∧
  ∃ af sa rest,
    getaddrinfo e (config_server s) (config_server_port s) = (af, sa) :: rest ∧
    _remote_sock st'.1 = Some (socket_socket e af) ∧
    ∃ during after,
      effects st'.2 =
        effects s
        ++ [SockSend l [x05; x00; x00; x01; x00; x00; x00; x00; x10; x10]]
        ++ during ++ nonblocking_connect (socket_socket e af) sa ++ after ∧
      Forall housekeeping during ∧ Forall poller_update after.

(** The same of every request read in stage [HELLO] whose byte 1 is
    [CMD_CONNECT], whether what follows its first three bytes parses or
    not. *)
Definition connect_unconditional : Prop :=
  ∀ e h s l data,
    coherent s → sockets_registered h s →
    _is_local h = true → _stage h = STAGE_HELLO → _local_sock h = Some l →
    recv e = Recv data → ord <$> data !! 1 = Some CMD_CONNECT →
    connect_handled e h s l data (on_local_read e (h, s)).1.

(** *** Frames *)

(** Every run of [m] takes a state to one that [R] relates to it. *)
Definition stable {S A} (R : relation S) (m : M S A) : Prop :=
  ∀ s, R s (m s).1.

(** A postcondition on the state and the outcome of a run. *)
Definition wp {S A} (m : M S A) (Q : S → result A → Prop) (s : S) : Prop :=
  Q (m s).1 (m s).2.

(** What a callee leaves of the handler: identity, role and stage stay; a
    socket stays or is released; the timeout structures keep their shape
    under the operations on them. *)
Definition settled (st st' : hstate) : Prop :=
  hid st'.1 = hid st.1 ∧ _is_local st'.1 = _is_local st.1 ∧
  _stage st'.1 = _stage st.1 ∧
  (_remote_sock st'.1 = _remote_sock st.1 ∨ _remote_sock st'.1 = None) ∧
  (_local_sock st'.1 = _local_sock st.1 ∨ _local_sock st'.1 = None).

(** The timeout structures and the identity of the handler stay. *)
Definition timeouts_kept (st st' : hstate) : Prop :=
  hid st'.1 = hid st.1 ∧ _timeout_offset st'.2 = _timeout_offset st.2 ∧
  _timeouts st'.2 = _timeouts st.2 ∧
  _handler_to_timeouts st'.2 = _handler_to_timeouts st.2.

(** *** The sweeper trigger *)

(** The sweeper, then [_last_time] set to the time read after the batch. *)
Definition sweep_and_stamp (now now_sweep : Q) : M world unit :=
  _sweep_timeout now_sweep;; in_server (modify (set_last_time now)).

(** The end of [_handle_events], for a notion of when a sweep is [due] given
    the time read and [_last_time]: once the batch has been processed, the
    sweeper runs and the time is recorded when the sweep is due, and nothing
    more happens when it is not. *)
Definition sweeper_trigger (due : Q → Q → Prop) : Prop :=
  ∀ events now now_sweep w,
    let batch := dispatch_all events w in
    batch.2 = Ok tt →
    (due now (_last_time (srv w)) →
       _handle_events events now now_sweep w
       = sweep_and_stamp now now_sweep batch.1) ∧
    (¬ due now (_last_time (srv w)) →
       _handle_events events now now_sweep w = batch).

(** The clock has advanced by [TIMEOUT_PRECISION] seconds or more ... *)
Definition advanced_at_least (now last : Q) : Prop :=
  (inject_Z TIMEOUT_PRECISION <= now - last)%Q.

(** ... and by more than that. *)
Definition advanced_more_than (now last : Q) : Prop :=
  (inject_Z TIMEOUT_PRECISION < now - last)%Q.

(** The time of the last sweep stays. *)
Definition last_time_kept (w w' : world) : Prop :=
  _last_time (srv w') = _last_time (srv w).

(** *** What a callback may rely on and must leave *)

(** A run of [m] from a state in [P] ends in [Q] when it returns and in [E]
    when it raises. *)
Definition triple {S A} (P : S → Prop) (m : M S A) (Q E : S → Prop) : Prop :=
  ∀ s, P s →
    match (m s).2 with Ok _ => Q (m s).1 | Raise _ => E (m s).1 end.

(** The handler [k] and its server between two callbacks: the timeout index
    is coherent, its entries and the values of the descriptor map are
    [known] objects, the sockets of the handler are registered, and the
    entries of the descriptor map that are
    [pinned] (the registrations of the other handlers, the descriptors that
    are not in use) are as they were. *)
Definition handler_ready (k : nat) (known : nat → Prop)
    (pinned : Z → option nat → Prop) (st : hstate) : Prop :=
  hid st.1 = k ∧ known k ∧ coherent st.2 ∧ sockets_registered st.1 st.2 ∧
  (∀ i k', _timeouts st.2 !! i = Some (Some k') → known k') ∧
  (∀ fd k', _fd_to_handlers st.2 !! fd = Some k' → known k') ∧
  (∀ fd v, pinned fd v → v ≠ Some k ∧ _fd_to_handlers st.2 !! fd = v).

(** [m] keeps that state and does not raise. *)
Definition safe (k : nat) (known : nat → Prop)
    (pinned : Z → option nat → Prop) {A} (m : M hstate A) : Prop :=
  triple (handler_ready k known pinned) m (handler_ready k known pinned)
    (λ _, False).

(** The descriptors the operating system may hand out during a callback
    that is answered by [e]: none of them is in use. *)
Definition descriptors_free (e : env) (s : server) : Prop :=
  ∀ af, _fd_to_handlers s !! fileno (socket_socket e af) = None.

(** The pinned entries besides the descriptors the operating system may
    hand out during a callback answered by [e]. *)
Definition pinned_besides (e : env) (pinned : Z → option nat → Prop)
    (fd : Z) (v : option nat) : Prop :=
  pinned fd v ∧ ∀ af, fd ≠ fileno (socket_socket e af).

(** *** The dispatcher *)

(** The relay between two events: the state the sweeper starts from, every
    identity from [next_id] on unused, and the descriptor map referring to
    objects. *)
Definition dispatcher_ready (w : world) : Prop :=
  sweep_ready w ∧
  (∀ k, next_id w ≤ k → heap w !! k = None) ∧
  (∀ fd k, _fd_to_handlers (srv w) !! fd = Some k → is_Some (heap w !! k)).

(** What the operating system owes an event: the listening socket reports
    no error, and a connection it accepts, or a socket it creates during
    the callback, has a descriptor that is not in use. *)
Definition event_ok (ev : event) (w : world) : Prop :=
  if bool_decide (ev_sock ev = Some (_server_socket (srv w))) then
    has_bits (ev_mask ev) POLL_ERR = false ∧
    ∀ conn, ev_accept ev = Accepted conn →
      _fd_to_handlers (srv w) !! fileno conn = None
  else descriptors_free (ev_in ev) (srv w).

(** The same of every event of a batch, in the world it is dispatched in. *)
Fixpoint batch_ok (events : list event) (w : world) : Prop :=
  match events with
  | [] => True
  | ev :: events => event_ok ev w ∧ batch_ok events (dispatch ev w).1
  end.

(** The registrations of the handlers other than [k]. *)
Definition foreign (w : world) (k : nat) (fd : Z) (v : option nat) : Prop :=
  ∃ k' h' sock,
    v = Some k' ∧ k' ≠ k ∧ heap w !! k' = Some h' ∧
    (_local_sock h' = Some sock ∨ _remote_sock h' = Some sock) ∧
    fileno sock = fd.

(** The objects of the heap. *)
Definition allocated (w : world) (k : nat) : Prop := is_Some (heap w !! k).

(** Registrations are only ever dropped. *)
Definition fds_shrink (st st' : hstate) : Prop :=
  ∀ fd k, _fd_to_handlers st'.2 !! fd = Some k →
          _fd_to_handlers st.2 !! fd = Some k.

(** The objects stay, no identity is handed out, and registrations are
    only ever dropped. *)
Definition heap_kept (w w' : world) : Prop :=
  next_id w' = next_id w ∧
  (∀ k, is_Some (heap w' !! k) ↔ is_Some (heap w !! k)) ∧
  (∀ fd k, _fd_to_handlers (srv w') !! fd = Some k →
           _fd_to_handlers (srv w) !! fd = Some k).

(** *** Parts of the read callback *)

(** What [on_local_read] does with a chunk that is not empty: the text of
    the method from [if not is_local] on. *)
Definition on_local_read_data (e : env) (is_local : bool) (data : bytes)
    : M hstate unit :=
  data ← (if negb is_local then cipher_decrypt data else mret data);
  if negb is_local && is_empty data then mret tt else
  h ← self;
  if (_stage h =? STAGE_STREAM)%Z then
    data ← (if _is_local h then cipher_encrypt data else mret data);
    h ← self;
    write_to_sock (send e) data (_remote_sock h)
  else if is_local && (_stage h =? STAGE_INIT)%Z then
    write_to_sock (send e) [x05; x00] (_local_sock h);;
    modify_self (set_stage STAGE_HELLO)
  else if (_stage h =? STAGE_REPLY)%Z then
    data ← (if is_local then cipher_encrypt data else mret data);
    modify_self (λ h, set_data_to_write_to_remote
                        (_data_to_write_to_remote h ++ [data]) h)
  else if (is_local && (_stage h =? STAGE_HELLO)%Z)
          || (negb is_local && (_stage h =? STAGE_INIT)%Z) then
    try_except (on_local_read_try e is_local data) (λ _, destroy)
  else mret tt.

(** A handler that differs from [h] in [last_activity] at most. *)
Definition refreshed (h h1 : handler) : Prop :=
  h1 = set_last_activity (last_activity h1) h.

(** *** What the handshake does *)

(** [st'] is what destruction makes of the handler [h] of the server [s],
    nothing else having happened to the sockets: both are released, removed
    from the poller and the descriptor map and closed, and the handler has
    left the timeout index. *)
Definition destroyed_from (h : handler) (s : server) (st' : hstate) : Prop :=
  released st'.1 ∧
  effects st'.2 =
    effects s ++ release_effects (_remote_sock h)
              ++ release_effects (_local_sock h) ∧
  _handler_to_timeouts st'.2 !! hid h = None ∧
  ∀ sock, _local_sock h = Some sock ∨ _remote_sock h = Some sock →
    _fd_to_handlers st'.2 !! fileno sock = None.

(** A request the local role does not serve: it has no command byte, its
    command is neither CONNECT nor UDP ASSOCIATE, or it is a CONNECT whose
    address header does not parse. *)
Definition unacceptable (data : bytes) : Prop :=
  match data !! 1%nat with
  | None => True
  | Some c =>
      (ord c ≠ CMD_UDP_ASSOCIATE ∧ ord c ≠ CMD_CONNECT) ∨
      (ord c = CMD_CONNECT ∧ parse_header (drop 3 data) = None)
  end.

(** The reply to UDP ASSOCIATE on an IPv4 socket: the address the
    client's socket is bound to. *)
Definition udp_reply (e : env) : bytes :=
  [x05; x00; x00; x01] ++ (getsockname e).1 ++ pack_H (getsockname e).2.

(** *** A reply that cannot be sent *)

(** A handler that holds a socket: it has not been destroyed, or holds a
    socket again. *)
Definition live (h : handler) : Prop := ¬ released h.

(** Every live handler of the heap appears in [_timeouts] at exactly one
    position, its stored index. *)
Definition live_handlers_queued (w : world) : Prop :=
  ∀ k h, heap w !! k = Some h → live h → at_one_position (srv w) k.

(** The same as an invariant of the relay: it holds after the dispatcher
    has handled an event, and after a server operation on the timeout
    structures that follows. *)
Definition live_handlers_stay_queued : Prop :=
  ∀ ev op w,
    dispatcher_ready w → event_ok ev w → live_handlers_queued w →
    live_handlers_queued (dispatch ev w).1 ∧
    live_handlers_queued (run_timeout_op op (dispatch ev w).1).1.

(** The local relay with one client: handler 0 has answered the greeting
    on descriptor 5 and is in the queue since time 10. *)
Definition hello_world (c : cipher) : world :=
  {| srv := set_handler_to_timeouts {[ 0 := 0%Z ]}
              (set_timeouts [Some 0]
                 (set_fd_to_handlers {[ 5%Z := 0 ]} (new_server true 10)));
     heap := {[ 0 := set_last_activity 10 (hello_handler c) ]};
     next_id := 1 |}.

(** Descriptor 5 is readable at time 10: the client has sent the request
    [05 01 00 01 7f 00 00 01 00 50], CONNECT to 127.0.0.1:80, and has gone,
    so that [send] raises errno 32 ([EPIPE]).  A socket created during the
    callback gets descriptor 6. *)
Definition connect_reply_fails (c : cipher) : event :=
  let e := sample_env 6 10
             (Recv [x05; x01; x00; x01; x7f; x00; x00; x01; x00; x50])
             (SendError (EOTHER 32)) in
  {| ev_sock := Some (sample_socket 5); ev_fd := 5; ev_mask := 1;
     ev_accept := AcceptError EAGAIN; ev_cipher := c;
     ev_in := e; ev_out := e |}.

(** *** Who is in the queue *)

(** What an operation on the timeout structures does to the membership of
    the queue.  [update_activity] drops nobody, adds nobody but its
    handler, and adds that one unless fewer than [TIMEOUT_PRECISION]
    seconds have passed on the clock; [remove_handler] drops its handler
    and nobody else; the sweep adds nobody and drops exactly the stale
    handlers it has destroyed. *)
Definition queue_kept (op : timeout_op) (w w' : world) : Prop :=
  match op with
  | OpUpdateActivity k t =>
    (∀ k', queued (srv w) k' → queued (srv w') k') ∧
    (∀ k', queued (srv w') k' → k' = k ∨ queued (srv w) k') ∧
    (∀ h, heap w !! k = Some h →
       (TIMEOUT_PRECISION ≤ py_int t - last_activity h)%Z →
       queued (srv w') k)
  | OpRemoveHandler k =>
    (∀ k', k' ≠ k → queued (srv w') k' ↔ queued (srv w) k') ∧
    (is_Some (heap w !! k) → ¬ queued (srv w') k)
  | OpSweep now =>
    sweep_ready w →
    (∀ k, queued (srv w') k → queued (srv w) k) ∧
    (∀ k, queued (srv w) k →
       queued (srv w') k ∨
       ∃ h, heap w !! k = Some h ∧ stale now (srv w) h ∧ destroyed_in w' k h)
  end.

(** * Properties *)

(** ** Reading the monad *)

Ltac munfold :=
  unfold self, server_of, emit, modify_self, modify_server, on_server, when,
    try_except, mbind, M_bind, mret, M_ret, gets, modify, raise in *.

Lemma py_setitem_in_range {A} (l : list A) (i : Z) (v : A) :
  (0 ≤ i)%Z → Z.to_nat i < length l →
  py_setitem l i v = Some (<[Z.to_nat i := v]> l).
Proof.
  intros H0 Hlt. unfold py_setitem.
  rewrite bool_decide_eq_true_2; [done | lia].
Qed.

(** Records are equal when their fields are. *)
Lemma handler_ext (h1 h2 : handler) :
  hid h1 = hid h2 → _is_local h1 = _is_local h2 →
  _local_sock h1 = _local_sock h2 → _remote_sock h1 = _remote_sock h2 →
  _stage h1 = _stage h2 → _encryptor h1 = _encryptor h2 →
  _data_to_write_to_local h1 = _data_to_write_to_local h2 →
  _data_to_write_to_remote h1 = _data_to_write_to_remote h2 →
  _upstream_status h1 = _upstream_status h2 →
  _downstream_status h1 = _downstream_status h2 →
  _remote_address h1 = _remote_address h2 →
  last_activity h1 = last_activity h2 → h1 = h2.
Proof. destruct h1, h2. simpl. by intros; subst. Qed.

Lemma server_ext (s1 s2 : server) :
  is_local s1 = is_local s2 → config_timeout s1 = config_timeout s2 →
  config_server s1 = config_server s2 →
  config_server_port s1 = config_server_port s2 →
  _server_socket s1 = _server_socket s2 → _closed s1 = _closed s2 →
  _fd_to_handlers s1 = _fd_to_handlers s2 → _last_time s1 = _last_time s2 →
  _timeouts s1 = _timeouts s2 → _timeout_offset s1 = _timeout_offset s2 →
  _handler_to_timeouts s1 = _handler_to_timeouts s2 →
  effects s1 = effects s2 → s1 = s2.
Proof. destruct s1, s2. simpl. by intros; subst. Qed.

Lemma world_ext (w1 w2 : world) :
  srv w1 = srv w2 → heap w1 = heap w2 → next_id w1 = next_id w2 → w1 = w2.
Proof. destruct w1, w2. simpl. by intros; subst. Qed.

(** Equality of states built by field updates, field by field. *)
Ltac record_eq :=
  repeat match goal with
         | |- (_, _) = (_, _) => f_equal
         | |- Ok _ = Ok _ => f_equal
         | |- unindexed _ _ = unindexed _ _ => f_equal
         | |- @eq handler _ _ => apply handler_ext; simpl
         | |- @eq server _ _ => apply server_ext; simpl
         | |- @eq world _ _ => apply world_ext; simpl
         end;
  simpl; rewrite <- ?app_assoc, ?app_nil_r; simpl; try done.

(** ** The timeout index: list and map lemmas *)

Ltac split_coherent := refine (conj _ (conj _ (conj _ _))).

Lemma coherent_at_tombstone ts ix off k p :
  coherent_at ts ix off → ix !! k = Some p →
  coherent_at (<[Z.to_nat p := None]> ts) (delete k ix) off.
Proof.
  intros (Ha & Hb & Hc & Hd) Hk.
  destruct (Ha _ _ Hk) as [Hp Hts].
  assert (Hlen : Z.to_nat p < length ts) by (eapply lookup_lt_Some; eauto).
  split_coherent.
  - intros k' p' H. apply lookup_delete_Some in H as [Hne H].
    destruct (Ha _ _ H) as [? Hts']. split; [done |].
    rewrite list_lookup_insert_ne; [done |].
    intros Heq. rewrite Heq in Hts. congruence.
  - intros i k' H. destruct (decide (i = Z.to_nat p)) as [-> | Hne].
    + rewrite list_lookup_insert_eq in H by done. congruence.
    + rewrite list_lookup_insert_ne in H by done.
      pose proof (Hb _ _ H) as Hix. rewrite lookup_delete_ne; [done |].
      intros <-. rewrite Hk in Hix. injection Hix as ->. lia.
  - by rewrite length_insert.
  - intros i Hi. destruct (decide (i = Z.to_nat p)) as [-> | Hne].
    + by rewrite list_lookup_insert_eq.
    + rewrite list_lookup_insert_ne by done. by apply Hd.
Qed.

Lemma coherent_at_append ts ix off k :
  coherent_at ts ix off → ix !! k = None →
  coherent_at (ts ++ [Some k]) (<[k := Z.of_nat (length ts)]> ix) off.
Proof.
  intros (Ha & Hb & Hc & Hd) Hk. split_coherent.
  - intros k' p' H. apply lookup_insert_Some in H as [[<- <-] | [Hne H]].
    + split; [lia |]. rewrite Nat2Z.id, lookup_app_r by done.
      by rewrite Nat.sub_diag.
    + destruct (Ha _ _ H) as [? Hts]. split; [done |].
      by apply lookup_app_l_Some.
  - intros i k' H. apply lookup_app_Some in H as [H | [Hge H]].
    + pose proof (Hb _ _ H) as Hix. rewrite lookup_insert_ne; [done |].
      intros <-. congruence.
    + apply list_lookup_singleton_Some in H as [Hi [= <-]].
      replace i with (length ts) by lia. by rewrite lookup_insert_eq.
  - rewrite length_app. simpl. lia.
  - intros i Hi. rewrite lookup_app_l by lia. by apply Hd.
Qed.

Lemma coherent_at_compact ts ix pos :
  coherent_at ts ix pos →
  coherent_at (drop pos ts) ((λ i, (i - Z.of_nat pos)%Z) <$> ix) 0.
Proof.
  intros (Ha & Hb & Hc & Hd).
  assert (Hge : ∀ k p, ix !! k = Some p → pos ≤ Z.to_nat p).
  { intros k p H. destruct (Ha _ _ H) as [? Hts].
    destruct (decide (pos ≤ Z.to_nat p)); [done |].
    rewrite Hd in Hts by lia. congruence. }
  split_coherent.
  - intros k p H. rewrite lookup_fmap in H.
    destruct (ix !! k) as [q |] eqn:Hq; [| done].
    injection H as <-. pose proof (Hge _ _ Hq). destruct (Ha _ _ Hq) as [? Hts].
    split; [lia |]. rewrite lookup_drop.
    by replace (pos + Z.to_nat (q - Z.of_nat pos)) with (Z.to_nat q) by lia.
  - intros i k H. rewrite lookup_drop in H. rewrite lookup_fmap, (Hb _ _ H).
    simpl. f_equal. lia.
  - lia.
  - lia.
Qed.

Lemma coherent_at_skip ts ix pos :
  coherent_at ts ix pos → ts !! pos = Some None → coherent_at ts ix (S pos).
Proof.
  intros (Ha & Hb & Hc & Hd) H. split_coherent; try done.
  - apply lookup_lt_Some in H. lia.
  - intros i Hi. destruct (decide (i = pos)) as [-> | ?]; [done |].
    apply Hd. lia.
Qed.

Lemma coherent_at_weaken ts ix pos off :
  coherent_at ts ix pos → off ≤ pos → coherent_at ts ix off.
Proof.
  intros (Ha & Hb & Hc & Hd) H. split_coherent; try done; [lia |].
  intros i Hi. apply Hd. lia.
Qed.

(** ** The timeout index: the operations *)

Lemma remove_handler_eq h s :
  index_points_to_entry (_timeouts s) (_handler_to_timeouts s) →
  remove_handler (h, s) =
    ((h, match _handler_to_timeouts s !! hid h with
         | Some p =>
             set_handler_to_timeouts (delete (hid h) (_handler_to_timeouts s))
               (set_timeouts (<[Z.to_nat p := None]> (_timeouts s)) s)
         | None => s
         end), Ok tt).
Proof.
  intros Ha. unfold remove_handler, timeouts_setitem. munfold. simpl.
  destruct (_handler_to_timeouts s !! hid h) as [p |] eqn:Hp; simpl; [| done].
  destruct (Ha _ _ Hp) as [H0 Hts].
  rewrite (proj2 (Z.leb_le 0 p) H0).
  rewrite py_setitem_in_range; [done | done |].
  eapply lookup_lt_Some; eauto.
Qed.

Lemma update_activity_eq t h s :
  index_points_to_entry (_timeouts s) (_handler_to_timeouts s) →
  update_activity t (h, s) =
    (if (py_int t - last_activity h <? TIMEOUT_PRECISION)%Z then (h, s)
     else (set_last_activity (py_int t) h,
           set_handler_to_timeouts
             (<[hid h := Z.of_nat (length (_timeouts s))]> (_handler_to_timeouts s))
             (set_timeouts (tombstoned (hid h) s ++ [Some (hid h)]) s)),
     Ok tt).
Proof.
  intros Ha. unfold update_activity, timeouts_setitem, tombstoned. munfold. simpl.
  destruct (py_int t - last_activity h <? TIMEOUT_PRECISION)%Z; [done |].
  simpl.
  destruct (_handler_to_timeouts s !! hid h) as [p |] eqn:Hp; simpl; [| done].
  destruct (Ha _ _ Hp) as [H0 Hts].
  rewrite (proj2 (Z.leb_le 0 p) H0).
  rewrite py_setitem_in_range; [| done | by eapply lookup_lt_Some].
  simpl. by rewrite length_insert.
Qed.

(** ** Relations that every step of a computation respects *)

Section stable.
Context {S : Type} (R : relation S) `{!PreOrder R}.

Lemma stable_ret {A} (a : A) : stable R (mret a : M S A).
Proof. intros s. simpl. reflexivity. Qed.

Lemma stable_gets {A} (f : S → A) : stable R (gets f).
Proof. intros s. simpl. reflexivity. Qed.

Lemma stable_raise {A} e : stable R (raise e : M S A).
Proof. intros s. simpl. reflexivity. Qed.

Lemma stable_modify f : (∀ s, R s (f s)) → stable R (modify f).
Proof. intros H s. apply H. Qed.

Lemma stable_bind {A B} (m : M S A) (k : A → M S B) :
  stable R m → (∀ a, stable R (k a)) → stable R (m ≫= k).
Proof.
  intros Hm Hk s. unfold mbind, M_bind. specialize (Hm s).
  destruct (m s) as [s' [a | e]]; simpl in *; [| done].
  by etrans; [| apply Hk].
Qed.

Lemma stable_try_except {A} (m : M S A) handler :
  stable R m → (∀ e, stable R (handler e)) → stable R (try_except m handler).
Proof.
  intros Hm Hk s. unfold try_except. specialize (Hm s).
  destruct (m s) as [s' [a | e]]; simpl in *; [done |].
  by etrans; [| apply Hk].
Qed.

Lemma stable_when (b : bool) (m : M S unit) :
  stable R m → stable R (when b m).
Proof. intros Hm. destruct b; [done | apply stable_ret]. Qed.
End stable.

Lemma wp_gets_bind {S A B} (f : S → A) (k : A → M S B) Q s :
  wp (k (f s)) Q s → wp (gets f ≫= k) Q s.
Proof. done. Qed.

Lemma wp_bind_stable {S A B} (R : relation S) (m : M S A) (k : A → M S B) Q s :
  stable R m →
  (∀ s' e, R s s' → Q s' (Raise e)) →
  (∀ s' a, R s s' → wp (k a) Q s') →
  wp (m ≫= k) Q s.
Proof.
  intros Hm He Hk. unfold wp, mbind, M_bind. specialize (Hm s).
  destruct (m s) as [s' [a | e]]; simpl in *; [by apply Hk | by apply He].
Qed.

Create HintDb stable discriminated.

(** Decompose a computation along its syntax; [leaf] closes what is left of
    the primitive updates. *)
Ltac stable_leaf leaf :=
  intros [? ?];
  unfold modify_self, modify_server, emit, on_server, timeouts_setitem,
    fd_to_handlers_del, cipher_encrypt, cipher_decrypt, modify in *;
  simpl; repeat case_match; simplify_eq/=; leaf.

Ltac stable_step leaf :=
  lazymatch goal with
  | |- stable ?R _ =>
    first
      [ solve [auto 1 with stable nocore]
      | apply (stable_ret R)
      | apply (stable_gets R)
      | apply (stable_raise R)
      | apply (stable_bind R); [| intros ?]
      | apply (stable_try_except R); [| intros ?]
      | apply (stable_when R)
      | lazymatch goal with
        | |- stable _ (if ?b then _ else _) => destruct b
        | |- stable _ (match ?x with _ => _ end) => destruct x
        end
      | solve [stable_leaf leaf] ]
  end.

Ltac stable_auto leaf := unfold self, server_of; repeat (stable_step leaf).

#[local] Instance settled_preorder : PreOrder settled.
Proof.
  split.
  - intros st. unfold settled. tauto.
  - intros a b c (? & ? & ? & Hr & Hl) (? & ? & ? & Hr' & Hl').
    unfold settled. repeat split; try congruence.
    + destruct Hr' as [-> | ->]; tauto.
    + destruct Hl' as [-> | ->]; tauto.
Qed.

Ltac settled_leaf := unfold settled; simpl; tauto.

Lemma remove_handler_settled : stable settled remove_handler.
Proof. unfold remove_handler. stable_auto ltac:(settled_leaf). Qed.
#[local] Hint Resolve remove_handler_settled : stable.

Lemma update_activity_settled t : stable settled (update_activity t).
Proof. unfold update_activity. stable_auto settled_leaf. Qed.
#[local] Hint Resolve update_activity_settled : stable.

Lemma destroy_settled : stable settled destroy.
Proof. unfold destroy. stable_auto settled_leaf. Qed.
#[local] Hint Resolve destroy_settled : stable.

Lemma update_stream_settled stream status :
  stable settled (update_stream stream status).
Proof. unfold update_stream. stable_auto settled_leaf. Qed.
#[local] Hint Resolve update_stream_settled : stable.

Lemma write_to_sock_settled sent data sock :
  stable settled (write_to_sock sent data sock).
Proof. unfold write_to_sock. stable_auto settled_leaf. Qed.
#[local] Hint Resolve write_to_sock_settled : stable.

#[local] Instance timeouts_kept_preorder : PreOrder timeouts_kept.
Proof.
  split.
  - by intros st.
  - intros a b c (? & ? & ? & ?) (? & ? & ? & ?).
    unfold timeouts_kept. repeat split; congruence.
Qed.

Ltac timeouts_kept_leaf := unfold timeouts_kept; simpl; done.

(** ** Destruction *)

Lemma remove_handler_unindexed h s :
  index_points_to_entry (_timeouts s) (_handler_to_timeouts s) →
  remove_handler (h, s) = ((h, unindexed (hid h) s), Ok tt).
Proof. apply remove_handler_eq. Qed.

(** Whatever happens to the sockets, the timeout structures are those
    [remove_handler] leaves, or untouched when an exception stops
    [destroy] before it. *)
Lemma destroy_timeouts h s :
  index_points_to_entry (_timeouts s) (_handler_to_timeouts s) →
  let r := destroy (h, s) in
  hid r.1.1 = hid h ∧
  _timeout_offset r.1.2 = _timeout_offset s ∧
  match r.2 with
  | Ok _ =>
      _timeouts r.1.2 = tombstoned (hid h) s ∧
      _handler_to_timeouts r.1.2 = delete (hid h) (_handler_to_timeouts s)
  | Raise _ =>
      _timeouts r.1.2 = _timeouts s ∧
      _handler_to_timeouts r.1.2 = _handler_to_timeouts s
  end.
Proof.
  intros Ha.
  change (wp destroy (λ st r,
    hid st.1 = hid h ∧ _timeout_offset st.2 = _timeout_offset s ∧
    match r with
    | Ok _ =>
        _timeouts st.2 = tombstoned (hid h) s ∧
        _handler_to_timeouts st.2 = delete (hid h) (_handler_to_timeouts s)
    | Raise _ =>
        _timeouts st.2 = _timeouts s ∧
        _handler_to_timeouts st.2 = _handler_to_timeouts s
    end) (h, s)).
  unfold destroy, self. apply wp_gets_bind.
  apply (wp_bind_stable timeouts_kept);
    [stable_auto timeouts_kept_leaf | by intros ? ? (? & ? & ? & ?) |].
  intros st1 _ (H1 & H2 & H3 & H4). apply wp_gets_bind.
  apply (wp_bind_stable timeouts_kept);
    [stable_auto timeouts_kept_leaf
    | intros ? ? (? & ? & ? & ?); simpl in *; repeat split; congruence |].
  intros [h2 s2] _ (H1' & H2' & H3' & H4'). destruct st1 as [h1 s1].
  simpl in *.
  assert (Hts : _timeouts s2 = _timeouts s) by congruence.
  assert (Hix : _handler_to_timeouts s2 = _handler_to_timeouts s) by congruence.
  assert (Hid : hid h2 = hid h) by congruence.
  unfold wp. rewrite remove_handler_unindexed by (by rewrite Hts, Hix).
  simpl. unfold unindexed, tombstoned. rewrite Hid, Hix, Hts.
  destruct (_handler_to_timeouts s !! hid h) eqn:E; simpl;
    repeat split; try congruence.
  by rewrite delete_id.
Qed.

Lemma destroy_eq h s :
  sockets_registered h s →
  index_points_to_entry (_timeouts s) (_handler_to_timeouts s) →
  destroy (h, s) = (destroy_result h s, Ok tt).
Proof.
  intros (Hl & Hr & Hlr) Ha.
  unfold destroy, destroy_result, fd_to_handlers_del. munfold. simpl.
  destruct (_remote_sock h) as [r |] eqn:Er;
    destruct (_local_sock h) as [l |] eqn:El; simpl.
  all: repeat (first
         [ rewrite El | rewrite Er | rewrite (Hr _ eq_refl)
         | rewrite (Hl _ eq_refl)
         | rewrite lookup_delete_ne by (by apply not_eq_sym, Hlr) ]; simpl).
  all: rewrite remove_handler_unindexed by done; simpl; record_eq.
Qed.

(** ** Methods run on a heap object *)

Lemma with_handler_run {A} k (m : M hstate A) w h :
  heap w !! k = Some h →
  with_handler k m w =
    ({| srv := (m (h, srv w)).1.2;
        heap := <[k := (m (h, srv w)).1.1]> (heap w);
        next_id := next_id w |}, (m (h, srv w)).2).
Proof.
  intros H. unfold with_handler. rewrite H.
  by destruct (m (h, srv w)) as [[? ?] ?].
Qed.

Lemma with_handler_dangling {A} k (m : M hstate A) w :
  heap w !! k = None → with_handler k m w = (w, Raise DanglingRef).
Proof. intros H. unfold with_handler. by rewrite H. Qed.

Lemma heap_ok_insert w k h' s' n :
  heap_ok w → hid h' = k →
  heap_ok {| srv := s'; heap := <[k := h']> (heap w); next_id := n |}.
Proof.
  intros Hw Hk k' h. simpl. intros H.
  apply lookup_insert_Some in H as [[<- <-] | [_ H]]; [done | by apply Hw].
Qed.

(** ** C1: the sweeper keeps the index coherent, whatever it raises *)

Lemma sweep_loop_S now len fuel pos :
  sweep_loop now len (S fuel) pos =
    if pos <? len then
      w ← gets id;
      match _timeouts (srv w) !! pos with
      | None => raise IndexError
      | Some (Some k) =>
        match heap w !! k with
        | None => raise DanglingRef
        | Some handler =>
          if Qltb (now - inject_Z (last_activity handler))
                  (inject_Z (config_timeout (srv w)))
          then mret pos
          else
            with_handler k destroy;;
            in_server (timeouts_setitem (Z.of_nat pos) None);;
            sweep_loop now len fuel (S pos)
        end
      | Some None => sweep_loop now len fuel (S pos)
      end
    else mret pos.
Proof. done. Qed.

Lemma sweep_loop_index now len fuel : ∀ pos w,
  heap_ok w →
  coherent_at (_timeouts (srv w)) (_handler_to_timeouts (srv w)) pos →
  let r := sweep_loop now len fuel pos w in
  heap_ok r.1 ∧ _timeout_offset (srv r.1) = _timeout_offset (srv w) ∧
  match r.2 with
  | Ok pos' =>
      pos ≤ pos' ∧
      coherent_at (_timeouts (srv r.1)) (_handler_to_timeouts (srv r.1)) pos'
  | Raise _ =>
      coherent_at (_timeouts (srv r.1)) (_handler_to_timeouts (srv r.1)) pos
  end.
Proof.
  induction fuel as [| fuel IH]; intros pos w Hheap Hco; [by simpl |].
  rewrite sweep_loop_S. destruct (pos <? len); [| by simpl].
  munfold. simpl.
  destruct (_timeouts (srv w) !! pos) as [[k |] |] eqn:Hpos; [| | by simpl].
  - destruct (heap w !! k) as [h |] eqn:Hk; [| by simpl].
    destruct (Qltb _ _); [by simpl |].
    pose proof (Hheap _ _ Hk) as Hid.
    destruct Hco as (Ha & Hb & Hc).
    pose proof (Hb _ _ Hpos) as Hix.
    rewrite (with_handler_run _ _ _ _ Hk).
    pose proof (destroy_timeouts h (srv w) Ha) as (Hd1 & Hd2 & Hd3).
    simpl in Hd1, Hd2, Hd3.
    destruct (destroy (h, srv w)) as [[h1 s1] [[] | e]] eqn:Hdes;
      simpl in *.
    2: { split; [by apply heap_ok_insert; [| congruence] |].
         split; [done |]. destruct Hd3 as [-> ->]. done. }
    destruct Hd3 as [Hts Hix1]. unfold tombstoned in Hts.
    rewrite Hid, Hix, Nat2Z.id in Hts. rewrite Hid in Hix1.
    assert (Hco1 : coherent_at (_timeouts s1) (_handler_to_timeouts s1) pos).
    { rewrite Hts, Hix1. rewrite <- (Nat2Z.id pos) at 1.
      by apply coherent_at_tombstone. }
    assert (Hlt : pos < length (_timeouts (srv w)))
      by (by eapply lookup_lt_Some).
    assert (Hnone : _timeouts s1 !! pos = Some None)
      by (rewrite Hts; by apply list_lookup_insert_eq).
    unfold in_server, timeouts_setitem. simpl.
    rewrite py_setitem_in_range by (rewrite ?Nat2Z.id, ?Hts, ?length_insert; lia).
    simpl. rewrite Nat2Z.id, (list_insert_id _ _ _ Hnone).
    match goal with
    | |- context [sweep_loop now len fuel (S pos) ?w1] =>
        specialize (IH (S pos) w1)
    end.
    simpl in IH.
    destruct IH as (IH1 & IH2 & IH3).
    { by apply heap_ok_insert; [| congruence]. }
    { by apply coherent_at_skip. }
    split; [done |]. split; [congruence |].
    destruct (sweep_loop _ _ _ _ _).2.
    + destruct IH3. split; [lia | done].
    + eapply coherent_at_weaken; [done | lia].
  - specialize (IH (S pos) w Hheap (coherent_at_skip _ _ _ Hco Hpos)).
    simpl in IH. destruct IH as (IH1 & IH2 & IH3).
    split; [done |]. split; [done |].
    destruct (sweep_loop _ _ _ _ _).2.
    + destruct IH3. split; [lia | done].
    + eapply coherent_at_weaken; [done | lia].
Qed.

Lemma _sweep_timeout_index now w :
  timeout_index_ok w → timeout_index_ok (_sweep_timeout now w).1.
Proof.
  intros [Hheap Hco]. unfold _sweep_timeout. munfold. simpl.
  destruct (is_empty (_timeouts (srv w))); [done |]. simpl.
  pose proof (sweep_loop_index now (length (_timeouts (srv w)))
                (length (_timeouts (srv w)) - _timeout_offset (srv w))
                _ w Hheap Hco) as (H1 & H2 & H3).
  simpl in H3.
  destruct (sweep_loop _ _ _ _ w) as [w1 [pos | e]]; simpl in *.
  - destruct H3 as [Hle Hco1]. unfold in_server. simpl.
    destruct (_ && _); simpl; (split; [done |]).
    + by apply coherent_at_compact.
    + done.
  - split; [done |]. unfold coherent. by rewrite H2.
Qed.

Lemma coherent_at_one_position s k :
  coherent s → queued s k → at_one_position s k.
Proof.
  intros (Ha & Hb & _) Hq.
  assert (∃ p, _handler_to_timeouts s !! k = Some p) as [p Hp].
  { destruct Hq as [[i Hi] | [p Hp]]; [| by exists p].
    exists (Z.of_nat i). by apply Hb. }
  destruct (Ha _ _ Hp) as [H0 Hts].
  exists p. split; [done |]. split; [done |]. intros i. split.
  - intros Hi. apply Hb in Hi. rewrite Hp in Hi. injection Hi as ->.
    by rewrite Nat2Z.id.
  - by intros ->.
Qed.

Lemma run_timeout_op_index op w :
  timeout_index_ok w → timeout_index_ok (run_timeout_op op w).1.
Proof.
  intros Hok. destruct op as [k t | k | now]; simpl;
    [| | by apply _sweep_timeout_index].
  - destruct Hok as [Hheap Hco].
    destruct (heap w !! k) as [h |] eqn:Hk;
      [| by rewrite with_handler_dangling].
    rewrite (with_handler_run _ _ _ _ Hk).
    rewrite update_activity_eq by apply Hco. simpl.
    pose proof (Hheap _ _ Hk) as Hid.
    destruct (_ <? _)%Z; simpl;
      (split; [by apply heap_ok_insert |]); [done |].
    unfold coherent, tombstoned. simpl. rewrite Hid.
    destruct (_handler_to_timeouts (srv w) !! k) as [p |] eqn:Hp.
    + rewrite <- (insert_delete_eq (_handler_to_timeouts (srv w))).
      rewrite <- (length_insert (_timeouts (srv w)) (Z.to_nat p) None).
      apply coherent_at_append; [| apply lookup_delete_eq].
      by apply coherent_at_tombstone.
    + by apply coherent_at_append.
  - destruct Hok as [Hheap Hco].
    destruct (heap w !! k) as [h |] eqn:Hk;
      [| by rewrite with_handler_dangling].
    rewrite (with_handler_run _ _ _ _ Hk).
    rewrite remove_handler_eq by apply Hco. simpl.
    pose proof (Hheap _ _ Hk) as Hid.
    split; [by apply heap_ok_insert |].
    rewrite Hid. unfold coherent.
    destruct (_handler_to_timeouts (srv w) !! k) as [p |] eqn:Hp; [| done].
    simpl. by apply coherent_at_tombstone.
Qed.

(** X1. Timeout-index coherence: after each server operation on the timeout
    structures ([update_activity], [remove_handler], a sweep with its
    compaction), whether it returns or raises, every key of
    [_handler_to_timeouts] that points to a position [p] has at
    [_timeouts[p]] a non-tombstone entry of that handler, and every handler
    of the queue appears in [_timeouts] at exactly one non-tombstone
    position, which is its stored index.  The property is an invariant: it
    is assumed before the operation, together with the heap holding each
    object under its identity. *)
Theorem timeout_index_coherence op w :
  timeout_index_ok w →
  let w' := (run_timeout_op op w).1 in
  timeout_index_ok w' ∧
  (∀ k p, _handler_to_timeouts (srv w') !! k = Some p →
     (0 ≤ p)%Z ∧ _timeouts (srv w') !! Z.to_nat p = Some (Some k)) ∧
  (∀ k, queued (srv w') k → at_one_position (srv w') k).
Proof.
  intros Hok w'. pose proof (run_timeout_op_index op w Hok) as Hok'.
  fold w' in Hok'. split; [done |]. destruct Hok' as [_ Hco]. split.
  - apply Hco.
  - intros k. by apply coherent_at_one_position.
Qed.

Lemma timeout_index_ok_fresh w :
  heap_ok w → _timeouts (srv w) = [] → _handler_to_timeouts (srv w) = ∅ →
  _timeout_offset (srv w) = 0 → timeout_index_ok w.
Proof.
  intros Hheap Hts Hix Hoff. split; [done |].
  unfold coherent. rewrite Hts, Hix, Hoff. split_coherent.
  - intros k p H. by rewrite lookup_empty in H.
  - intros i k H. by rewrite lookup_nil in H.
  - done.
  - lia.
Qed.

Lemma one_handler_world_ok c b : timeout_index_ok (one_handler_world c b).
Proof.
  apply timeout_index_ok_fresh; try done.
  intros k h H. simpl in H. apply lookup_singleton_Some in H as [<- <-]. done.
Qed.

(** ** C4: destruction *)

Lemma unindexed_lookup k s : _handler_to_timeouts (unindexed k s) !! k = None.
Proof.
  unfold unindexed.
  destruct (_handler_to_timeouts s !! k) eqn:E; simpl; [| done].
  apply lookup_delete_eq.
Qed.

Lemma unindexed_effects k s : effects (unindexed k s) = effects s.
Proof. unfold unindexed. by destruct (_handler_to_timeouts s !! k). Qed.

Lemma unindexed_fd_to_handlers k s :
  _fd_to_handlers (unindexed k s) = _fd_to_handlers s.
Proof. unfold unindexed. by destruct (_handler_to_timeouts s !! k). Qed.

Lemma destroy_released h s :
  released h → _handler_to_timeouts s !! hid h = None →
  destroy (h, s) = ((h, s), Ok tt).
Proof.
  intros [Hl Hr] Hix. unfold destroy, remove_handler. munfold. simpl.
  rewrite Hr. simpl. rewrite Hl. simpl. rewrite Hix. done.
Qed.

Lemma closes_app sock l1 l2 :
  closes sock (l1 ++ l2) = closes sock l1 + closes sock l2.
Proof. unfold closes. by rewrite filter_app, length_app. Qed.

Lemma closes_release_same sock :
  closes sock (release_effects (Some sock)) = 1.
Proof.
  unfold closes. simpl. rewrite filter_cons_False by (simpl; congruence).
  rewrite filter_cons_True; [done |]. simpl. by apply bool_decide_eq_true_2.
Qed.

Lemma closes_release_other sock o :
  o ≠ Some sock → closes sock (release_effects o) = 0.
Proof.
  intros Hne. destruct o as [s' |]; [| done].
  unfold closes. simpl. rewrite filter_cons_False by (simpl; congruence).
  rewrite filter_cons_False; [done |]. simpl.
  rewrite bool_decide_eq_false_2; congruence.
Qed.

(** C4. Destroy releases everything once and is idempotent: after the first
    call both sockets have been removed from the poller and closed, their
    descriptors are absent from [_fd_to_handlers], both references are
    [None] and the handler has no entry in the timeout index; a second call
    changes nothing, so that each socket is closed exactly once over the two
    calls.  The handler is one whose sockets are registered, under distinct
    descriptors, with a server whose timeout index is coherent. *)
Theorem destroy_idempotent h s :
  coherent s → sockets_registered h s →
  let st1 := (destroy (h, s)).1 in
  (destroy (h, s)).2 = Ok tt ∧
  effects st1.2 =
    effects s ++ release_effects (_remote_sock h)
              ++ release_effects (_local_sock h) ∧
  (∀ sock, _local_sock h = Some sock ∨ _remote_sock h = Some sock →
     _fd_to_handlers st1.2 !! fileno sock = None) ∧
  released st1.1 ∧
  _handler_to_timeouts st1.2 !! hid h = None ∧
  destroy st1 = (st1, Ok tt) ∧
  (∀ sock, _local_sock h = Some sock ∨ _remote_sock h = Some sock →
     closes sock (effects (destroy st1).1.2) = S (closes sock (effects s))).
Proof.
  intros (Ha & _) Hreg. rewrite (destroy_eq _ _ Hreg Ha). simpl.
  assert (Hsecond : destroy (destroy_result h s) = (destroy_result h s, Ok tt)).
  { unfold destroy_result. apply destroy_released; [done |].
    simpl. apply unindexed_lookup. }
  assert (Heff : effects (destroy_result h s).2 =
    effects s ++ release_effects (_remote_sock h)
              ++ release_effects (_local_sock h)).
  { unfold destroy_result. simpl. by rewrite unindexed_effects. }
  destruct Hreg as (Hl & Hr & Hlr).
  split; [done |]. split; [done |]. split.
  { intros sock Hs. unfold destroy_result. simpl.
    rewrite unindexed_fd_to_handlers. simpl.
    destruct Hs as [Hs | Hs]; rewrite Hs; simpl.
    - apply lookup_delete_eq.
    - destruct (_local_sock h) as [l |] eqn:El; simpl;
        [| apply lookup_delete_eq].
      rewrite lookup_delete_ne by (by apply Hlr).
      apply lookup_delete_eq. }
  split; [done |]. split; [apply unindexed_lookup |]. split; [done |].
  intros sock Hs. rewrite Hsecond. cbn [fst snd]. rewrite Heff, !closes_app.
  destruct Hs as [Hs | Hs]; rewrite Hs.
  - rewrite closes_release_same, closes_release_other; [lia |].
    intros Hr'. by apply (Hlr _ _ Hs Hr').
  - rewrite closes_release_same, closes_release_other; [lia |].
    intros Hl'. by apply (Hlr _ _ Hl' Hs).
Qed.

(** ** C5: activity order *)

(** Whole seconds: [int(time.time()) - last_activity < TIMEOUT_PRECISION]
    says that fewer than four seconds have elapsed. *)
Lemma elapsed_floor t la :
  (Qfloor t - la < TIMEOUT_PRECISION)%Z ↔
  (t - inject_Z la < inject_Z TIMEOUT_PRECISION)%Q.
Proof.
  unfold TIMEOUT_PRECISION. change (inject_Z 4) with 4%Q. split.
  - intros H. pose proof (Qlt_floor t) as Hf.
    assert (Hle : (inject_Z (Qfloor t + 1) <= inject_Z (la + 4))%Q)
      by (rewrite <- Zle_Qle; lia).
    rewrite !inject_Z_plus in *.
    change (inject_Z 4) with 4%Q in *. change (inject_Z 1) with 1%Q in *.
    lra.
  - intros H. pose proof (Qfloor_le t) as Hf.
    assert (Hlt : (inject_Z (Qfloor t) < inject_Z (la + 4))%Q).
    { rewrite inject_Z_plus. change (inject_Z 4) with 4%Q. lra. }
    rewrite <- Zlt_Qlt in Hlt. lia.
Qed.

Lemma py_int_floor t : (0 <= t)%Q → py_int t = Qfloor t.
Proof.
  intros H. unfold py_int, Qfloor. destruct t as [n d]. simpl.
  apply Z.quot_div_nonneg; [| done].
  unfold Qle in H. simpl in H. lia.
Qed.

Lemma elapsed_int t la :
  (0 <= t)%Q →
  (py_int t - la < TIMEOUT_PRECISION)%Z ↔
  (t - inject_Z la < inject_Z TIMEOUT_PRECISION)%Q.
Proof. intros H. rewrite py_int_floor by done. apply elapsed_floor. Qed.

Lemma sorted_without_middle (l1 l2 : list Z) x :
  StronglySorted Z.le (l1 ++ x :: l2) → StronglySorted Z.le (l1 ++ l2).
Proof.
  intros H. apply StronglySorted_app in H as (Hx & H1 & H2).
  apply StronglySorted_app. split; [| split; [done |]].
  - intros a b Ha Hb. apply Hx; [done |]. by apply list_elem_of_further.
  - by inversion H2.
Qed.

Lemma sorted_snoc_max (l : list Z) x :
  StronglySorted Z.le l → Forall (λ a, (a ≤ x)%Z) l →
  StronglySorted Z.le (l ++ [x]).
Proof.
  intros Hl Hx. apply StronglySorted_app. split; [| split; [done |]].
  - intros a b Ha Hb. apply list_elem_of_singleton in Hb as ->.
    by apply (proj1 (Forall_forall _ _) Hx).
  - repeat constructor.
Qed.

(** Entries of other handlers read the same activity after [k]'s object is
    rewritten. *)
Lemma omap_entry_activity_other w w' k (l : list (option nat)) :
  (∀ k', k' ≠ k → heap w' !! k' = heap w !! k') →
  Some k ∉ l →
  omap (entry_activity w') l = omap (entry_activity w) l.
Proof.
  intros Hheap. induction l as [| e l IH]; intros Hk; [done |].
  apply not_elem_of_cons in Hk as [Hne Hk]. cbn [omap list_omap].
  rewrite (IH Hk).
  destruct e as [k' |]; simpl; [| done].
  rewrite Hheap by congruence. done.
Qed.

Lemma entry_not_in_take (ts : list (option nat)) ix k p :
  entry_is_indexed ts ix → ix !! k = Some (Z.of_nat p) → Some k ∉ take p ts.
Proof.
  intros Hb Hk Hin. apply list_elem_of_lookup in Hin as [i Hi].
  pose proof (lookup_lt_Some _ _ _ Hi) as Hlt. rewrite length_take in Hlt.
  rewrite lookup_take_lt in Hi by lia.
  pose proof (Hb _ _ Hi) as Hix. rewrite Hk in Hix. injection Hix. lia.
Qed.

Lemma entry_not_in_drop (ts : list (option nat)) ix k p :
  entry_is_indexed ts ix → ix !! k = Some (Z.of_nat p) →
  Some k ∉ drop (S p) ts.
Proof.
  intros Hb Hk Hin. apply list_elem_of_lookup in Hin as [i Hi].
  rewrite lookup_drop in Hi.
  pose proof (Hb _ _ Hi) as Hix. rewrite Hk in Hix. injection Hix. lia.
Qed.

Lemma entry_not_in_unindexed (ts : list (option nat)) ix k :
  entry_is_indexed ts ix → ix !! k = None → Some k ∉ ts.
Proof.
  intros Hb Hk Hin. apply list_elem_of_lookup in Hin as [i Hi].
  pose proof (Hb _ _ Hi) as Hix. congruence.
Qed.

Lemma live_activities_update k t w h :
  timeout_index_ok w → heap w !! k = Some h →
  let w' :=
    {| srv := set_handler_to_timeouts
                (<[k := Z.of_nat (length (_timeouts (srv w)))]>
                   (_handler_to_timeouts (srv w)))
                (set_timeouts (tombstoned k (srv w) ++ [Some k]) (srv w));
       heap := <[k := set_last_activity (py_int t) h]> (heap w);
       next_id := next_id w |} in
  ∃ l1 l2,
    live_activities w' = l1 ++ l2 ++ [py_int t] ∧
    (live_activities w = l1 ++ l2 ∨
     live_activities w = l1 ++ last_activity h :: l2).
Proof.
  intros [Hheap (Ha & Hb & _)] Hk w'.
  assert (Hother : ∀ k', k' ≠ k → heap w' !! k' = heap w !! k').
  { intros k' Hne. simpl. by rewrite lookup_insert_ne. }
  assert (Hnew : entry_activity w' (Some k) = Some (py_int t)).
  { simpl. by rewrite lookup_insert_eq. }
  unfold live_activities at 1. simpl. rewrite omap_app. simpl.
  rewrite lookup_insert_eq. simpl. unfold tombstoned.
  destruct (_handler_to_timeouts (srv w) !! k) as [p |] eqn:Hp.
  - destruct (Ha _ _ Hp) as [H0 Hts]. set (i := Z.to_nat p) in *.
    assert (Hpi : _handler_to_timeouts (srv w) !! k = Some (Z.of_nat i))
      by (rewrite Hp; f_equal; lia).
    rewrite insert_take_drop by (by eapply lookup_lt_Some).
    rewrite omap_app. cbn [omap list_omap entry_activity mbind option_bind].
    rewrite !(omap_entry_activity_other w w' k) by
      eauto using entry_not_in_take, entry_not_in_drop.
    eexists _, _. split; [by rewrite <- app_assoc |]. right.
    unfold live_activities.
    rewrite <- (take_drop_middle _ _ _ Hts) at 1.
    rewrite omap_app. cbn [omap list_omap]. simpl. by rewrite Hk.
  - rewrite (omap_entry_activity_other w w' k) by
      eauto using entry_not_in_unindexed.
    exists (live_activities w), []. split; [done |]. left.
    by rewrite app_nil_r.
Qed.

(** C5 (as amended). [update_activity(handler)] does nothing when fewer than
    [TIMEOUT_PRECISION] = 4 seconds have elapsed since
    [handler.last_activity]; otherwise it makes the handler's prior entry a
    tombstone (when there is one), appends a fresh entry at the end of
    [_timeouts] and stores its position; either way the [last_activity]
    values over the non-tombstone entries stay non-decreasing, the clock
    not being behind the activities already recorded.  The clock reads a
    time since the epoch, which is not negative, and the handler is an
    object of a world whose timeout index is coherent. *)
Theorem update_activity_order k t w h :
  timeout_index_ok w → heap w !! k = Some h → (0 <= t)%Q →
  let r := with_handler k (update_activity t) w in
  r.2 = Ok tt ∧
  ((t - inject_Z (last_activity h) < inject_Z TIMEOUT_PRECISION)%Q →
     r.1 = w) ∧
  (¬ (t - inject_Z (last_activity h) < inject_Z TIMEOUT_PRECISION)%Q →
     _timeouts (srv r.1) = tombstoned k (srv w) ++ [Some k] ∧
     _handler_to_timeouts (srv r.1) =
       <[k := Z.of_nat (length (_timeouts (srv w)))]>
         (_handler_to_timeouts (srv w)) ∧
     heap r.1 = <[k := set_last_activity (py_int t) h]> (heap w)) ∧
  (Sorted Z.le (live_activities w) → clock_not_behind t w →
     Sorted Z.le (live_activities r.1)).
Proof.
  intros Hok Hk Ht. pose proof Hok as [Hheap Hco].
  pose proof (Hheap _ _ Hk) as Hid.
  rewrite (with_handler_run _ _ _ _ Hk).
  rewrite update_activity_eq by apply Hco.
  pose proof (elapsed_int t (last_activity h) Ht) as Hel.
  destruct (py_int t - last_activity h <? TIMEOUT_PRECISION)%Z eqn:E.
  - apply Z.ltb_lt in E. simpl.
    assert (Hsame : {| srv := srv w; heap := <[k := h]> (heap w);
                       next_id := next_id w |} = w).
    { apply world_ext; simpl; [done | by apply insert_id | done]. }
    rewrite Hsame. split; [done |]. split; [done |].
    split; [intros Hn; exfalso; apply Hn; by apply Hel | by intros].
  - apply Z.ltb_ge in E. simpl. rewrite Hid.
    split; [done |]. split; [intros H; apply Hel in H; lia |].
    split; [done |]. intros Hsorted Hclock.
    destruct (live_activities_update k t w h Hok Hk) as (l1 & l2 & -> & Hold).
    apply Sorted_StronglySorted in Hsorted; [| apply _].
    unfold clock_not_behind in Hclock.
    apply StronglySorted_Sorted. rewrite app_assoc.
    destruct Hold as [Hold | Hold]; rewrite Hold in Hsorted, Hclock.
    + by apply sorted_snoc_max.
    + apply sorted_snoc_max; [by eapply sorted_without_middle |].
      apply Forall_app in Hclock as [H1 H2]. apply Forall_app. split; [done |].
      by inversion H2.
Qed.

(** ** C3: the interest bitmap *)

Lemma has_bits_bit a n :
  (0 ≤ n)%Z → has_bits a (2 ^ n) = Z.testbit a n.
Proof.
  intros Hn. unfold has_bits.
  assert (H : Z.land a (2 ^ n) = if Z.testbit a n then (2 ^ n)%Z else 0%Z).
  { apply Z.bits_inj'. intros m Hm. rewrite Z.land_spec, Z.pow2_bits_eqb by done.
    destruct (Z.eqb_spec n m) as [-> | Hne].
    - rewrite andb_true_r. destruct (Z.testbit a m) eqn:E.
      + by rewrite Z.pow2_bits_true.
      + by rewrite Z.bits_0.
    - rewrite andb_false_r. destruct (Z.testbit a n).
      + rewrite Z.pow2_bits_false; [done | congruence].
      + by rewrite Z.bits_0. }
  rewrite H. destruct (Z.testbit a n); [| done].
  apply negb_true_iff, Z.eqb_neq. apply Z.pow_nonzero; lia.
Qed.

Lemma has_bits_WRITING a : has_bits a WAIT_STATUS_WRITING = Z.testbit a 1.
Proof. apply (has_bits_bit a 1). lia. Qed.

Lemma has_bits_READING a : has_bits a WAIT_STATUS_READING = Z.testbit a 0.
Proof. apply (has_bits_bit a 0). lia. Qed.

Lemma has_bits_self a : a ≠ 0%Z → has_bits a a = true.
Proof.
  intros H. unfold has_bits. rewrite Z.land_diag.
  by apply negb_true_iff, Z.eqb_neq.
Qed.

Lemma has_bits_lor a b c :
  has_bits (Z.lor a b) c = has_bits a c || has_bits b c.
Proof.
  unfold has_bits. rewrite Z.land_lor_distr_l.
  destruct (Z.eqb_spec (Z.land a c) 0) as [-> | Ha]; simpl.
  - by rewrite Z.lor_0_l.
  - apply negb_true_iff, Z.eqb_neq. intros H.
    apply Z.lor_eq_0_iff in H as [? ?]. done.
Qed.

Lemma has_bits_disjoint a b : Z.land a b = 0%Z → has_bits a b = false.
Proof. intros H. unfold has_bits. by rewrite H. Qed.

Lemma local_event_bits h :
  distinct_flags →
  Z.land (local_event h) POLL_ERR = POLL_ERR ∧
  has_bits (local_event h) POLL_OUT = Z.testbit (_downstream_status h) 1 ∧
  has_bits (local_event h) POLL_IN = Z.testbit (_upstream_status h) 0.
Proof.
  intros (Hin & Hout & Hei & Heo & Hio). unfold local_event.
  rewrite has_bits_WRITING, has_bits_READING.
  assert (Hoe : Z.land POLL_OUT POLL_ERR = 0%Z) by by rewrite Z.land_comm.
  assert (Hie : Z.land POLL_IN POLL_ERR = 0%Z) by by rewrite Z.land_comm.
  assert (Hoi : Z.land POLL_OUT POLL_IN = 0%Z) by by rewrite Z.land_comm.
  destruct (Z.testbit (_downstream_status h) 1),
           (Z.testbit (_upstream_status h) 0);
    rewrite ?Z.land_lor_distr_l, ?has_bits_lor, ?Z.land_diag, ?Hoe, ?Hie,
      ?Z.lor_0_r, ?has_bits_self, ?(has_bits_disjoint _ _ Heo),
      ?(has_bits_disjoint _ _ Hei), ?(has_bits_disjoint _ _ Hio),
      ?(has_bits_disjoint _ _ Hoi) by done; done.
Qed.

Lemma remote_event_bits h :
  distinct_flags →
  Z.land (remote_event h) POLL_ERR = POLL_ERR ∧
  has_bits (remote_event h) POLL_OUT = Z.testbit (_upstream_status h) 1 ∧
  has_bits (remote_event h) POLL_IN = Z.testbit (_downstream_status h) 0.
Proof.
  intros (Hin & Hout & Hei & Heo & Hio). unfold remote_event.
  rewrite has_bits_WRITING, has_bits_READING.
  assert (Hoe : Z.land POLL_OUT POLL_ERR = 0%Z) by by rewrite Z.land_comm.
  assert (Hie : Z.land POLL_IN POLL_ERR = 0%Z) by by rewrite Z.land_comm.
  assert (Hoi : Z.land POLL_OUT POLL_IN = 0%Z) by by rewrite Z.land_comm.
  destruct (Z.testbit (_downstream_status h) 0),
           (Z.testbit (_upstream_status h) 1);
    rewrite ?Z.land_lor_distr_l, ?has_bits_lor, ?Z.land_diag, ?Hoe, ?Hie,
      ?Z.lor_0_r, ?has_bits_self, ?(has_bits_disjoint _ _ Heo),
      ?(has_bits_disjoint _ _ Hei), ?(has_bits_disjoint _ _ Hio),
      ?(has_bits_disjoint _ _ Hoi) by done; done.
Qed.

(** What [update_stream] does when the status changes. *)
Lemma update_stream_dirty stream status h s :
  (stream = STREAM_DOWN ∧ _downstream_status h ≠ status) ∨
  (stream = STREAM_UP ∧ _upstream_status h ≠ status) →
  let h' := if (stream =? STREAM_DOWN)%Z
            then set_downstream_status status h
            else set_upstream_status status h in
  update_stream stream status (h, s) =
    ((h', set_effects
            (effects s ++ modify_effects (_local_sock h) (local_event h')
                       ++ modify_effects (_remote_sock h) (remote_event h')) s),
     Ok tt).
Proof.
  intros [[-> Hne] | [-> Hne]]; apply Z.eqb_neq in Hne;
    unfold update_stream; munfold; simpl; rewrite Hne; simpl;
    destruct (_local_sock h), (_remote_sock h); simpl; record_eq.
Qed.

Lemma local_event_mask h :
  local_event h =
    interest_mask (Z.testbit (_downstream_status h) 1)
                  (Z.testbit (_upstream_status h) 0).
Proof.
  unfold local_event, interest_mask.
  rewrite has_bits_WRITING, has_bits_READING.
  by destruct (Z.testbit (_downstream_status h) 1),
              (Z.testbit (_upstream_status h) 0); rewrite ?Z.lor_0_r.
Qed.

Lemma remote_event_mask h :
  remote_event h =
    interest_mask (Z.testbit (_upstream_status h) 1)
                  (Z.testbit (_downstream_status h) 0).
Proof.
  unfold remote_event, interest_mask.
  rewrite has_bits_WRITING, has_bits_READING.
  destruct (Z.testbit (_upstream_status h) 1),
           (Z.testbit (_downstream_status h) 0); rewrite ?Z.lor_0_r; try done.
  by rewrite <- !Z.lor_assoc, (Z.lor_comm POLL_IN POLL_OUT).
Qed.

(** C3. Interest bitmap: whenever [update_stream] changes the status of a
    direction, that status is the new one, the other status stays, and the
    mask handed to the poller for [local_sock] is exactly [ERR], plus [OUT]
    if and only if the downstream status has the [WRITING] bit, plus [IN]
    if and only if the upstream status has the [READING] bit; the mask for
    [remote_sock] is exactly [ERR], plus [OUT] if and only if the upstream
    status has the [WRITING] bit, plus [IN] if and only if the downstream
    status has the [READING] bit.  The masks are given as values
    ([interest_mask]); that the flags can be told apart in them is shown for
    [IN], [OUT] and [ERR] distinct flags.  A socket that has been released
    gets no mask. *)
Theorem interest_bitmap stream status h s :
  distinct_flags →
  (stream = STREAM_DOWN ∧ _downstream_status h ≠ status) ∨
  (stream = STREAM_UP ∧ _upstream_status h ≠ status) →
  let st' := (update_stream stream status (h, s)).1 in
  let local_mask :=
    interest_mask (Z.testbit (_downstream_status st'.1) 1)
                  (Z.testbit (_upstream_status st'.1) 0) in
  let remote_mask :=
    interest_mask (Z.testbit (_upstream_status st'.1) 1)
                  (Z.testbit (_downstream_status st'.1) 0) in
  (update_stream stream status (h, s)).2 = Ok tt ∧
  (stream = STREAM_DOWN →
     _downstream_status st'.1 = status ∧
     _upstream_status st'.1 = _upstream_status h) ∧
  (stream = STREAM_UP →
     _upstream_status st'.1 = status ∧
     _downstream_status st'.1 = _downstream_status h) ∧
  effects st'.2 =
    effects s ++ modify_effects (_local_sock h) local_mask
              ++ modify_effects (_remote_sock h) remote_mask ∧
  Z.land local_mask POLL_ERR = POLL_ERR ∧
  has_bits local_mask POLL_OUT = Z.testbit (_downstream_status st'.1) 1 ∧
  has_bits local_mask POLL_IN = Z.testbit (_upstream_status st'.1) 0 ∧
  Z.land remote_mask POLL_ERR = POLL_ERR ∧
  has_bits remote_mask POLL_OUT = Z.testbit (_upstream_status st'.1) 1 ∧
  has_bits remote_mask POLL_IN = Z.testbit (_downstream_status st'.1) 0.
Proof.
  intros Hflags Hdirty. rewrite (update_stream_dirty _ _ _ _ Hdirty).
  cbn [fst snd]. cbn zeta.
  match goal with
  | |- context [modify_effects _ (local_event ?h')] =>
      pose proof (local_event_bits h' Hflags) as (? & ? & ?);
      pose proof (remote_event_bits h' Hflags) as (? & ? & ?);
      rewrite <- (local_event_mask h'), <- (remote_event_mask h')
  end.
  split; [done |].
  split; [intros ->; by cbn |].
  split; [intros ->; by cbn |].
  done.
Qed.

(** ** C2: the byte pump *)

(** [update_stream] sets the status of its stream and leaves the queues. *)
Lemma update_stream_down status h s :
  let h' := (update_stream STREAM_DOWN status (h, s)).1.1 in
  _downstream_status h' = status ∧
  _data_to_write_to_local h' = _data_to_write_to_local h ∧
  _data_to_write_to_remote h' = _data_to_write_to_remote h.
Proof.
  unfold update_stream. munfold. simpl.
  destruct (Z.eqb_spec (_downstream_status h) status); simpl; [done |].
  by destruct (_local_sock h), (_remote_sock h).
Qed.

Lemma update_stream_up status h s :
  let h' := (update_stream STREAM_UP status (h, s)).1.1 in
  _upstream_status h' = status ∧
  _data_to_write_to_local h' = _data_to_write_to_local h ∧
  _data_to_write_to_remote h' = _data_to_write_to_remote h.
Proof.
  unfold update_stream. munfold. simpl.
  destruct (Z.eqb_spec (_upstream_status h) status); simpl; [done |].
  by destruct (_local_sock h), (_remote_sock h).
Qed.

(** The queue [data] goes to and the status set when it is not fully
    sent, ... *)
Lemma write_to_sock_uncomplete_tail h s sk d rest :
  direction_of h sk = Some d →
  let st' :=
    ((if bool_decide (Some sk = _local_sock h) then
        modify_self (λ h, set_data_to_write_to_local
                            (_data_to_write_to_local h ++ [rest]) h);;
        update_stream STREAM_DOWN WAIT_STATUS_WRITING
      else if bool_decide (Some sk = _remote_sock h) then
        modify_self (λ h, set_data_to_write_to_remote
                            (_data_to_write_to_remote h ++ [rest]) h);;
        update_stream STREAM_UP WAIT_STATUS_WRITING
      else mret tt) (h, s)).1 in
  pending d st'.1 = pending d h ++ [rest] ∧
  status d st'.1 = WAIT_STATUS_WRITING.
Proof.
  unfold direction_of. intros Hd.
  repeat case_bool_decide; simplify_eq; munfold; simpl.
  - match goal with
    | |- context [update_stream _ ?st (?h1, _)] =>
        pose proof (update_stream_down st h1 s) as (H1 & H2 & H3)
    end.
    simpl in *. by rewrite H1, H2.
  - match goal with
    | |- context [update_stream _ ?st (?h1, _)] =>
        pose proof (update_stream_up st h1 s) as (H1 & H2 & H3)
    end.
    simpl in *. by rewrite H1, H3.
Qed.

(** ... and the status set when it is. *)
Lemma write_to_sock_complete_tail h s sk d :
  direction_of h sk = Some d →
  let st' :=
    ((if bool_decide (Some sk = _local_sock h) then
        update_stream STREAM_DOWN WAIT_STATUS_READING
      else if bool_decide (Some sk = _remote_sock h) then
        update_stream STREAM_UP WAIT_STATUS_READING
      else mret tt) (h, s)).1 in
  pending d st'.1 = pending d h ∧ status d st'.1 = WAIT_STATUS_READING.
Proof.
  unfold direction_of. intros Hd.
  repeat case_bool_decide; simplify_eq; simpl.
  - pose proof (update_stream_down WAIT_STATUS_READING h s) as (H1 & H2 & H3).
    simpl in *. by rewrite H1, H2.
  - pose proof (update_stream_up WAIT_STATUS_READING h s) as (H1 & H2 & H3).
    simpl in *. by rewrite H1, H3.
Qed.

(** C2. Byte pump: [write_to_sock(data, sock)] does nothing when [data] is
    empty or [sock] is released; when [send] transmits only [k < len(data)]
    bytes, [data[k:]] is appended to the pending queue of that direction
    (downstream for [local_sock], upstream for [remote_sock]) and the status
    of that direction becomes [WRITING]; when [send] raises [EAGAIN] or
    [EINPROGRESS], all of [data] is queued the same way; when [send]
    transmits everything, the status of that direction becomes [READING]. *)
Theorem write_to_sock_pump sent data sock h s :
  let st' := (write_to_sock sent data sock (h, s)).1 in
  (data = [] ∨ sock = None →
     write_to_sock sent data sock (h, s) = ((h, s), Ok tt)) ∧
  (∀ sk d, sock = Some sk → data ≠ [] → direction_of h sk = Some d →
     (∀ k, sent = Sent k → k < length data →
        pending d st'.1 = pending d h ++ [drop k data] ∧
        status d st'.1 = WAIT_STATUS_WRITING) ∧
     (sent = SendError EAGAIN ∨ sent = SendError EINPROGRESS →
        pending d st'.1 = pending d h ++ [data] ∧
        status d st'.1 = WAIT_STATUS_WRITING) ∧
     (∀ k, sent = Sent k → length data ≤ k →
        pending d st'.1 = pending d h ∧
        status d st'.1 = WAIT_STATUS_READING)).
Proof.
  split.
  - intros [-> | ->]; unfold write_to_sock; [by destruct sock | done].
  - intros sk d -> Hdata Hd. unfold write_to_sock.
    destruct data as [| b data]; [done |]. cbn [is_empty].
    set (data0 := b :: data) in *.
    split; [| split].
    + intros k -> Hk. apply Nat.ltb_lt in Hk. munfold. cbn [fst snd].
      rewrite Hk.
      apply (write_to_sock_uncomplete_tail h _ sk d (drop k data0) Hd).
    + intros [-> | ->]; munfold; cbn [fst snd];
        apply (write_to_sock_uncomplete_tail h _ sk d data0 Hd).
    + intros k -> Hk. apply Nat.ltb_ge in Hk. munfold. cbn [fst snd].
      rewrite Hk.
      apply (write_to_sock_complete_tail h _ sk d Hd).
Qed.

(** ** C6: the sweep *)

Lemma Qltb_false_stale now s h :
  Qltb (now - inject_Z (last_activity h)) (inject_Z (config_timeout s)) = false
  ↔ stale now s h.
Proof.
  unfold Qltb, stale. rewrite negb_false_iff. apply Qle_bool_iff.
Qed.

Lemma Qltb_true_fresh now s h :
  Qltb (now - inject_Z (last_activity h)) (inject_Z (config_timeout s)) = true
  → ¬ stale now s h.
Proof.
  intros H Hs. apply Qltb_false_stale in Hs. congruence.
Qed.

Lemma tombstones_between_refl pos (ts : list (option nat)) :
  tombstones_between pos pos ts = ts.
Proof.
  unfold tombstones_between. rewrite Nat.sub_diag. simpl. apply take_drop.
Qed.

Lemma tombstones_between_step pos pos' (ts : list (option nat)) :
  pos < length ts → S pos ≤ pos' →
  tombstones_between (S pos) pos' (<[pos := None]> ts) =
  tombstones_between pos pos' ts.
Proof.
  intros Hlt Hle. unfold tombstones_between.
  rewrite (take_S_r _ _ None) by (by apply list_lookup_insert_eq).
  rewrite take_insert_ge by done. rewrite drop_insert_lt by lia.
  replace (pos' - pos) with (S (pos' - S pos)) by lia.
  by rewrite <- app_assoc.
Qed.

Lemma unregister_lookup_other (o : option socket) (fds : gmap Z nat) x :
  (∀ sock, o = Some sock → fileno sock ≠ x) →
  unregister o fds !! x = fds !! x.
Proof.
  intros H. destruct o as [sock |]; [| done]. simpl.
  apply lookup_delete_ne. by apply H.
Qed.

Lemma setitem_tombstone w pos :
  _timeouts (srv w) !! pos = Some None →
  in_server (timeouts_setitem (Z.of_nat pos) None) w = (w, Ok tt).
Proof.
  intros H. unfold in_server, timeouts_setitem.
  rewrite py_setitem_in_range;
    [| lia | rewrite Nat2Z.id; by eapply lookup_lt_Some].
  rewrite Nat2Z.id, (list_insert_id _ _ _ H). record_eq.
Qed.

(** One round of the loop on a stale handler. *)
Lemma destroy_in_world pos w k h :
  sweep_inv pos w → _timeouts (srv w) !! pos = Some (Some k) →
  heap w !! k = Some h →
  ∃ w1,
    with_handler k destroy w = (w1, Ok tt) ∧
    sweep_inv (S pos) w1 ∧
    _timeouts (srv w1) = <[pos := None]> (_timeouts (srv w)) ∧
    _handler_to_timeouts (srv w1) = delete k (_handler_to_timeouts (srv w)) ∧
    heap w1 = <[k := set_local_sock None (set_remote_sock None h)]> (heap w) ∧
    effects (srv w1) =
      effects (srv w) ++ release_effects (_remote_sock h)
                      ++ release_effects (_local_sock h) ∧
    config_timeout (srv w1) = config_timeout (srv w) ∧
    _timeout_offset (srv w1) = _timeout_offset (srv w).
Proof.
  intros (Hheap & Hco & Hfds & Hdang) Hpos Hk.
  pose proof Hco as (Ha & Hb & Hc & Hd).
  pose proof (Hheap _ _ Hk) as Hid.
  pose proof (Hb _ _ Hpos) as Hix.
  pose proof (Hfds _ _ Hk) as Hreg.
  rewrite (with_handler_run _ _ _ _ Hk).
  rewrite (destroy_eq _ _ Hreg Ha). cbn [fst snd].
  eexists. split; [done |].
  unfold destroy_result. cbn [fst snd]. unfold unindexed. simpl.
  rewrite Hid, Hix, Nat2Z.id. simpl.
  split; [| by rewrite <- ?app_assoc].
  assert (Hlt : pos < length (_timeouts (srv w))) by by eapply lookup_lt_Some.
  split; [by apply heap_ok_insert |]. simpl. split; [| split].
  - apply coherent_at_skip; [| by apply list_lookup_insert_eq].
    rewrite <- (Nat2Z.id pos) at 1. by apply coherent_at_tombstone.
  - intros k' h' H'. simpl in H'.
    apply lookup_insert_Some in H' as [[<- <-] | [Hne H']].
    { split; [| split]; simpl; intros; congruence. }
    destruct (Hfds _ _ H') as (Hl' & Hr' & Hlr').
    destruct Hreg as (Hl & Hr & Hlr).
    assert (Hkeep : ∀ sock, _fd_to_handlers (srv w) !! fileno sock = Some (hid h') →
      unregister (_local_sock h) (unregister (_remote_sock h)
        (_fd_to_handlers (srv w))) !! fileno sock = Some (hid h')).
    { intros sock Hs.
      rewrite !unregister_lookup_other; [done | |];
        intros sock' Hs' Heq; rewrite <- Heq in Hs;
        [rewrite (Hr _ Hs') in Hs | rewrite (Hl _ Hs') in Hs];
        injection Hs as Hs; rewrite (Hheap _ _ H') in Hs; congruence. }
    split; [| split]; simpl; [| | done].
    + intros sock Hs. by apply Hkeep, Hl'.
    + intros sock Hs. by apply Hkeep, Hr'.
  - intros i k' H'. simpl in *.
    destruct (decide (i = pos)) as [-> | Hne].
    { rewrite list_lookup_insert_eq in H' by done. congruence. }
    rewrite list_lookup_insert_ne in H' by done.
    apply lookup_insert_is_Some'. right. by eapply Hdang.
Qed.

Lemma walk_stop_here now w pos :
  pos ≤ length (_timeouts (srv w)) →
  (pos = length (_timeouts (srv w)) ∨
   ∃ k h, _timeouts (srv w) !! pos = Some (Some k) ∧ heap w !! k = Some h ∧
          ¬ stale now (srv w) h) →
  walked now w pos pos w ∧ walk_frame w pos pos w.
Proof.
  intros Hle Hstop. split.
  - split; [lia |]. split; [intros i Hi; lia | done].
  - split; [by rewrite tombstones_between_refl | done].
Qed.

Lemma walk_compose_skip now w pos pos' w' :
  _timeouts (srv w) !! pos = Some None →
  walked now w (S pos) pos' w' → walk_frame w (S pos) pos' w' →
  walked now w pos pos' w' ∧ walk_frame w pos pos' w'.
Proof.
  intros Hpos (Hb & Hw & Hstop) (Hts & Hun & Heff & Hcfg & Hoff).
  assert (Hlt : pos < length (_timeouts (srv w))) by by eapply lookup_lt_Some.
  split.
  - split; [lia |]. split; [| done].
    intros i Hi. destruct (decide (i = pos)) as [-> | Hne]; [by left |].
    apply Hw. lia.
  - split; [| split; [| done]].
    + rewrite Hts, <- (tombstones_between_step pos pos') by lia.
      by rewrite (list_insert_id _ _ _ Hpos).
    + intros k Hk. apply Hun. intros i Hi. apply Hk. lia.
Qed.

Lemma walk_compose_destroy now w pos pos' w' w1 k h :
  sweep_inv pos w → _timeouts (srv w) !! pos = Some (Some k) →
  heap w !! k = Some h → stale now (srv w) h →
  sweep_inv (S pos) w1 →
  _timeouts (srv w1) = <[pos := None]> (_timeouts (srv w)) →
  _handler_to_timeouts (srv w1) = delete k (_handler_to_timeouts (srv w)) →
  heap w1 = <[k := set_local_sock None (set_remote_sock None h)]> (heap w) →
  effects (srv w1) =
    effects (srv w) ++ release_effects (_remote_sock h)
                    ++ release_effects (_local_sock h) →
  config_timeout (srv w1) = config_timeout (srv w) →
  _timeout_offset (srv w1) = _timeout_offset (srv w) →
  walked now w1 (S pos) pos' w' → walk_frame w1 (S pos) pos' w' →
  walked now w pos pos' w' ∧ walk_frame w pos pos' w'.
Proof.
  intros (Hheap & Hco & Hfds & Hdang) Hpos Hk Hstale
    (Hheap1 & Hco1 & _ & _) H1ts H1ix H1heap H1eff H1cfg H1off
    (Hb & Hw & Hstop) (Hts & Hun & Heff & Hcfg & Hoff).
  assert (Hlt : pos < length (_timeouts (srv w))) by by eapply lookup_lt_Some.
  assert (Hlen : length (_timeouts (srv w1)) = length (_timeouts (srv w)))
    by (by rewrite H1ts, length_insert).
  assert (F1 : ∀ i, i ≠ pos → _timeouts (srv w1) !! i = _timeouts (srv w) !! i).
  { intros i Hi. rewrite H1ts. by apply list_lookup_insert_ne. }
  assert (F2 : ∀ i, _timeouts (srv w1) !! i ≠ Some (Some k)).
  { intros i Hi. destruct Hco1 as (_ & Hb1 & _).
    pose proof (Hb1 _ _ Hi) as Hix. rewrite H1ix, lookup_delete_eq in Hix.
    done. }
  assert (F3 : ∀ k', k' ≠ k → heap w1 !! k' = heap w !! k').
  { intros k' Hne. rewrite H1heap. by apply lookup_insert_ne. }
  assert (F4 : ∀ h', stale now (srv w1) h' ↔ stale now (srv w) h').
  { intros h'. unfold stale. by rewrite H1cfg. }
  destruct (Hun k) as [Hk' Hix']; [intros i _; apply F2 |].
  assert (Hdes : destroyed_in w' k h).
  { split; [| split].
    - by rewrite Hk', H1heap, lookup_insert_eq.
    - by rewrite Hix', H1ix, lookup_delete_eq.
    - intros sock Hs. destruct Heff as [l ->]. apply elem_of_app. left.
      rewrite H1eff, !elem_of_app. right.
      destruct Hs as [-> | ->]; [right | left]; simpl;
        apply list_elem_of_In; simpl; tauto. }
  split.
  - split; [lia |]. split.
    + intros i Hi. destruct (decide (i = pos)) as [-> | Hne].
      { right. by exists k, h. }
      destruct (Hw i) as [Hnone | (k' & h' & Hi' & Hk1 & Hst & Hd')]; [lia | |].
      * left. by rewrite <- F1.
      * right. exists k', h'.
        assert (k' ≠ k) by (intros ->; by apply (F2 i)).
        rewrite <- F1, <- F3, <- F4 by done. done.
    + destruct Hstop as [-> | (k' & h' & Hi' & Hk1 & Hst)]; [by left |].
      right. exists k', h'.
      assert (k' ≠ k) by (intros ->; by apply (F2 pos')).
      rewrite <- F1, <- F3, <- F4 by (done || lia). done.
  - split; [| split; [| split; [| split]]].
    + rewrite Hts, H1ts. apply tombstones_between_step; [done | lia].
    + intros k'' Hk''.
      assert (k'' ≠ k) by (intros ->; apply (Hk'' pos); [lia | done]).
      destruct (Hun k'') as [E1 E2].
      { intros i Hi. rewrite F1 by lia. apply Hk''. lia. }
      rewrite E1, E2, F3, H1ix by done. split; [done |].
      by apply lookup_delete_ne.
    + etrans; [| exact Heff]. rewrite H1eff. by apply prefix_app_r.
    + congruence.
    + congruence.
Qed.

Lemma sweep_loop_spec now : ∀ fuel pos w,
  sweep_inv pos w → length (_timeouts (srv w)) ≤ pos + fuel →
  ∃ pos' w',
    sweep_loop now (length (_timeouts (srv w))) fuel pos w = (w', Ok pos') ∧
    sweep_inv pos' w' ∧ walked now w pos pos' w' ∧ walk_frame w pos pos' w'.
Proof.
  induction fuel as [| fuel IH]; intros pos w Hinv Hfuel;
    pose proof Hinv as (Hheap & Hco & Hfds & Hdang);
    pose proof Hco as (Ha & Hb & Hc & Hd).
  { exists pos, w. split; [done |]. split; [done |].
    apply walk_stop_here; [done |]. left. lia. }
  rewrite sweep_loop_S.
  destruct (Nat.ltb_spec pos (length (_timeouts (srv w)))) as [Hlt | Hge].
  2: { exists pos, w. split; [done |]. split; [done |].
       apply walk_stop_here; [done |]. left. lia. }
  munfold. cbn [fst snd id].
  destruct (lookup_lt_is_Some_2 _ _ Hlt) as [e Hpos]. rewrite Hpos.
  destruct e as [k |].
  - destruct (Hdang _ _ Hpos) as [h Hk]. rewrite Hk.
    destruct (Qltb _ _) eqn:Hq.
    { exists pos, w. split; [done |]. split; [done |].
      apply walk_stop_here; [done |]. right. exists k, h.
      eauto using Qltb_true_fresh. }
    apply Qltb_false_stale in Hq.
    destruct (destroy_in_world pos w k h Hinv Hpos Hk)
      as (w1 & Hrun & Hinv1 & H1ts & H1ix & H1heap & H1eff & H1cfg & H1off).
    rewrite Hrun. cbn [fst snd].
    rewrite setitem_tombstone
      by (rewrite H1ts; by apply list_lookup_insert_eq).
    cbn [fst snd].
    assert (Hlen : length (_timeouts (srv w1)) = length (_timeouts (srv w)))
      by (by rewrite H1ts, length_insert).
    destruct (IH (S pos) w1 Hinv1) as (pos' & w' & Hloop & Hinv' & Hw & Hf);
      [lia |].
    rewrite Hlen in Hloop. exists pos', w'.
    split; [done |]. split; [done |].
    by eapply walk_compose_destroy.
  - destruct (IH (S pos) w) as (pos' & w' & Hloop & Hinv' & Hw & Hf);
      [split; [done |]; split; [by apply coherent_at_skip | done] | lia |].
    exists pos', w'. split; [done |]. split; [done |].
    by apply walk_compose_skip.
Qed.

Lemma index_after_walk now w pos pos' w' :
  sweep_inv pos w → walked now w pos pos' w' → walk_frame w pos pos' w' →
  _handler_to_timeouts (srv w') =
    index_after_sweep pos' 0 (_handler_to_timeouts (srv w)).
Proof.
  intros (Hheap & (Ha & Hb & Hc & Hd) & _ & _) (Hbd & Hw & _)
    (_ & Hun & _).
  apply map_eq. intros k. unfold index_after_sweep. rewrite lookup_omap.
  destruct (_handler_to_timeouts (srv w) !! k) as [p |] eqn:Hp; simpl.
  - destruct (Ha _ _ Hp) as [H0 Hts].
    assert (Hge : pos ≤ Z.to_nat p).
    { destruct (decide (pos ≤ Z.to_nat p)); [done |].
      rewrite Hd in Hts by lia. congruence. }
    destruct (Z.ltb_spec p (Z.of_nat pos')) as [Hlt | Hge'].
    + destruct (Hw (Z.to_nat p)) as [Hn | (k' & h & Hk' & _ & _ & Hdes)];
        [lia | congruence |].
      rewrite Hts in Hk'. injection Hk' as <-. apply Hdes.
    + destruct (Hun k) as [_ ->]; [| by rewrite Hp, Z.sub_0_r].
      intros i Hi Hts'. pose proof (Hb _ _ Hts') as Hix.
      rewrite Hp in Hix. injection Hix. lia.
  - destruct (Hun k) as [_ ->]; [| done].
    intros i Hi Hts'. pose proof (Hb _ _ Hts') as Hix. congruence.
Qed.

Lemma index_after_sweep_shift pos' (ix : gmap nat Z) :
  (λ i, (i - Z.of_nat pos')%Z) <$> index_after_sweep pos' 0 ix =
  index_after_sweep pos' (Z.of_nat pos') ix.
Proof.
  apply map_eq. intros k. unfold index_after_sweep.
  rewrite lookup_fmap, !lookup_omap.
  destruct (ix !! k) as [p |]; simpl; [| done].
  destruct (p <? Z.of_nat pos')%Z; simpl; [done |]. by rewrite Z.sub_0_r.
Qed.

Lemma drop_tombstones_between pos pos' (ts : list (option nat)) :
  pos ≤ pos' ≤ length ts →
  drop pos' (tombstones_between pos pos' ts) = drop pos' ts.
Proof.
  intros H. unfold tombstones_between. rewrite app_assoc.
  apply drop_app_length'. rewrite length_app, length_take, length_replicate.
  lia.
Qed.

Lemma walked_final now w pos pos' w' w'' :
  walked now w pos pos' w' →
  heap w'' = heap w' → effects (srv w'') = effects (srv w') →
  (∀ k, _handler_to_timeouts (srv w') !! k = None →
        _handler_to_timeouts (srv w'') !! k = None) →
  walked now w pos pos' w''.
Proof.
  intros (Hb & Hw & Hstop) Hheap Heff Hix. split; [done |]. split; [| done].
  intros i Hi. destruct (Hw i Hi) as [? | (k & h & ? & ? & ? & H1 & H2 & H3)];
    [by left |].
  right. exists k, h. repeat split; try done.
  - by rewrite Hheap.
  - by apply Hix.
  - intros sock Hs. rewrite Heff. by apply H3.
Qed.

Lemma clean_condition pos len :
  (TIMEOUTS_CLEAN_SIZE <? pos) && (Nat.shiftr len 1 <? pos) =
  bool_decide (TIMEOUTS_CLEAN_SIZE < pos ∧ len < 2 * pos).
Proof.
  replace (Nat.shiftr len 1) with (Nat.div2 len) by done.
  rewrite Nat.div2_div.
  pose proof (Nat.div_mod_eq len 2). pose proof (Nat.mod_upper_bound len 2).
  destruct (Nat.ltb_spec TIMEOUTS_CLEAN_SIZE pos),
    (Nat.ltb_spec (len `div` 2) pos); simpl;
    [rewrite bool_decide_eq_true_2 | rewrite bool_decide_eq_false_2 ..];
    (done || lia).
Qed.

(** The sweep, from the state the dispatcher keeps. *)
Lemma _sweep_timeout_spec now w :
  sweep_ready w →
  let r := _sweep_timeout now w in
  let ts := _timeouts (srv w) in
  let offset := _timeout_offset (srv w) in
  ∃ pos,
    r.2 = Ok tt ∧
    walked now w offset pos r.1 ∧
    if bool_decide (TIMEOUTS_CLEAN_SIZE < pos ∧ length ts < 2 * pos) then
      _timeouts (srv r.1) = drop pos ts ∧
      _handler_to_timeouts (srv r.1) =
        index_after_sweep pos (Z.of_nat pos) (_handler_to_timeouts (srv w)) ∧
      _timeout_offset (srv r.1) = 0
    else
      _timeouts (srv r.1) = tombstones_between offset pos ts ∧
      _handler_to_timeouts (srv r.1) =
        index_after_sweep pos 0 (_handler_to_timeouts (srv w)) ∧
      _timeout_offset (srv r.1) = pos.
Proof.
  intros (Hheap & Hco & Hfds & Hdang).
  assert (Hinv : sweep_inv (_timeout_offset (srv w)) w) by done.
  pose proof Hco as (Ha & Hb & Hc & Hd).
  unfold _sweep_timeout. munfold. cbn [fst snd id].
  destruct (_timeouts (srv w)) as [| e ts0] eqn:Ets.
  - simpl. simpl in Hc. exists (_timeout_offset (srv w)).
    assert (Hoff : _timeout_offset (srv w) = 0) by lia.
    destruct (walk_stop_here now w (_timeout_offset (srv w))) as [Hw Hf];
      [rewrite Ets; simpl; lia | left; rewrite Ets; simpl; lia |].
    split; [done |]. split; [done |].
    rewrite bool_decide_eq_false_2 by (unfold TIMEOUTS_CLEAN_SIZE; lia).
    rewrite <- (index_after_walk now w _ _ w Hinv Hw Hf).
    rewrite Hoff. done.
  - cbn [is_empty negb]. rewrite <- Ets in *.
    destruct (sweep_loop_spec now
                (length (_timeouts (srv w)) - _timeout_offset (srv w))
                _ w Hinv) as (pos & w' & Hloop & Hinv' & Hw & Hf); [lia |].
    rewrite Hloop. cbn [fst snd]. exists pos.
    pose proof (index_after_walk now w _ _ w' Hinv Hw Hf) as Hix.
    pose proof Hf as (Hts & _ & _ & _ & Hoff).
    pose proof Hw as (Hbd & _).
    rewrite clean_condition. case_bool_decide as Hclean.
    + unfold in_server. simpl.
      split; [done |]. split.
      { eapply walked_final; [done | done | done |]. simpl.
        intros k Hk. by rewrite lookup_fmap, Hk. }
      split; [| split; [| done]].
      * rewrite Hts. by apply drop_tombstones_between.
      * rewrite Hix. apply index_after_sweep_shift.
    + unfold in_server. simpl.
      split; [done |]. split; [by eapply walked_final |]. done.
Qed.

(** C6. Sweep: from the cursor [_timeout_offset] the sweep walks forward,
    skips the tombstones, destroys every live entry whose [last_activity]
    is at least [timeout] seconds old and makes it a tombstone, and stops at
    the first live entry fresher than that; then, when the cursor exceeds
    both [TIMEOUTS_CLEAN_SIZE] = 512 and half the length of the sequence,
    the prefix before the cursor is dropped, every stored index is reduced
    by the cursor and the cursor is reset to 0.  The sweep starts from a
    state as the dispatcher keeps it: the index coherent, the sockets of
    every handler registered, every entry referring to an object. *)
Theorem sweep_procedure now w :
  sweep_ready w →
  let r := _sweep_timeout now w in
  let ts := _timeouts (srv w) in
  let offset := _timeout_offset (srv w) in
  ∃ pos,
    r.2 = Ok tt ∧
    walked now w offset pos r.1 ∧
    if bool_decide (TIMEOUTS_CLEAN_SIZE < pos ∧ length ts < 2 * pos) then
      _timeouts (srv r.1) = drop pos ts ∧
      _handler_to_timeouts (srv r.1) =
        index_after_sweep pos (Z.of_nat pos) (_handler_to_timeouts (srv w)) ∧
      _timeout_offset (srv r.1) = 0
    else
      _timeouts (srv r.1) = tombstones_between offset pos ts ∧
      _handler_to_timeouts (srv r.1) =
        index_after_sweep pos 0 (_handler_to_timeouts (srv w)) ∧
      _timeout_offset (srv r.1) = pos.
Proof. apply _sweep_timeout_spec. Qed.

(** ** What the callbacks leave alone *)

#[local] Instance server_kept_preorder : PreOrder server_kept.
Proof.
  split.
  - by intros st.
  - intros a b c (? & ? & ? & ?) (? & ? & ? & ?).
    unfold server_kept. repeat split; congruence.
Qed.

Ltac server_kept_leaf := unfold server_kept; simpl; done.

Lemma remove_handler_server_kept : stable server_kept remove_handler.
Proof. unfold remove_handler. stable_auto server_kept_leaf. Qed.
#[local] Hint Resolve remove_handler_server_kept : stable.

Lemma update_activity_server_kept t : stable server_kept (update_activity t).
Proof. unfold update_activity. stable_auto server_kept_leaf. Qed.
#[local] Hint Resolve update_activity_server_kept : stable.

Lemma destroy_server_kept : stable server_kept destroy.
Proof. unfold destroy. stable_auto server_kept_leaf. Qed.
#[local] Hint Resolve destroy_server_kept : stable.

Lemma update_stream_server_kept stream status :
  stable server_kept (update_stream stream status).
Proof. unfold update_stream. stable_auto server_kept_leaf. Qed.
#[local] Hint Resolve update_stream_server_kept : stable.

Lemma write_to_sock_server_kept sent data sock :
  stable server_kept (write_to_sock sent data sock).
Proof. unfold write_to_sock. stable_auto server_kept_leaf. Qed.
#[local] Hint Resolve write_to_sock_server_kept : stable.

Lemma on_local_read_connect_server_kept e b data :
  stable server_kept (on_local_read_connect e b data).
Proof. unfold on_local_read_connect. stable_auto server_kept_leaf. Qed.
#[local] Hint Resolve on_local_read_connect_server_kept : stable.

Lemma on_local_read_try_server_kept e b data :
  stable server_kept (on_local_read_try e b data).
Proof. unfold on_local_read_try. stable_auto server_kept_leaf. Qed.
#[local] Hint Resolve on_local_read_try_server_kept : stable.

Lemma on_local_read_server_kept e : stable server_kept (on_local_read e).
Proof. unfold on_local_read. stable_auto server_kept_leaf. Qed.
#[local] Hint Resolve on_local_read_server_kept : stable.

Lemma on_remote_read_server_kept e : stable server_kept (on_remote_read e).
Proof. unfold on_remote_read. stable_auto server_kept_leaf. Qed.
#[local] Hint Resolve on_remote_read_server_kept : stable.

Lemma on_local_write_server_kept e : stable server_kept (on_local_write e).
Proof. unfold on_local_write. stable_auto server_kept_leaf. Qed.
#[local] Hint Resolve on_local_write_server_kept : stable.

Lemma on_remote_write_server_kept e : stable server_kept (on_remote_write e).
Proof. unfold on_remote_write. stable_auto server_kept_leaf. Qed.
#[local] Hint Resolve on_remote_write_server_kept : stable.

Lemma handle_event_server_kept ein eout sock event :
  stable server_kept (handle_event ein eout sock event).
Proof.
  unfold handle_event, on_local_error, on_remote_error.
  stable_auto server_kept_leaf.
Qed.
#[local] Hint Resolve handle_event_server_kept : stable.

Lemma handler_init_server_kept t : stable server_kept (handler_init t).
Proof. unfold handler_init. stable_auto server_kept_leaf. Qed.
#[local] Hint Resolve handler_init_server_kept : stable.

Lemma on_remote_read_settled e : stable settled (on_remote_read e).
Proof. unfold on_remote_read. stable_auto settled_leaf. Qed.
#[local] Hint Resolve on_remote_read_settled : stable.

Lemma on_local_write_settled e : stable settled (on_local_write e).
Proof. unfold on_local_write. stable_auto settled_leaf. Qed.
#[local] Hint Resolve on_local_write_settled : stable.

(** ** C9: the stage machine *)

Lemma settled_edge_rel st st' : settled st st' → edge_rel st st'.
Proof.
  intros (? & ? & Hs & Hr & _). unfold edge_rel, stage_edge.
  rewrite Hs. repeat split; try done; [by left | tauto].
Qed.

Lemma edge_rel_settled_r a b c : edge_rel a b → settled b c → edge_rel a c.
Proof.
  intros (? & ? & He & Hr) (? & ? & Hs & Hr' & _). unfold edge_rel.
  rewrite Hs. repeat split; try congruence.
  destruct Hr' as [-> | ->]; tauto.
Qed.

Lemma edge_rel_settled_l a b c : settled a b → edge_rel b c → edge_rel a c.
Proof.
  intros (? & Hl & Hs & Hr' & _) (? & ? & He & Hr). unfold edge_rel.
  rewrite <- Hl, <- Hs. repeat split; try congruence.
  destruct Hr' as [<- | Hn]; [done |]. rewrite Hn in Hr. tauto.
Qed.

(** A computation that only settles keeps the edge made so far. *)
Lemma wp_settled {A} (m : M hstate A) st0 st :
  stable settled m → edge_rel st0 st →
  wp m (λ st' _, edge_rel st0 st') st.
Proof. intros Hm He. unfold wp. eapply edge_rel_settled_r; [done | apply Hm]. Qed.

Lemma wp_bind_settled {A B} (m : M hstate A) (k : A → M hstate B) st0 st :
  stable settled m → settled st0 st →
  (∀ st' a, settled st0 st' → wp (k a) (λ st' _, edge_rel st0 st') st') →
  wp (m ≫= k) (λ st' _, edge_rel st0 st') st.
Proof.
  intros Hm Hst Hk. apply (wp_bind_stable settled); [done | |].
  - intros st' e H. apply settled_edge_rel. by etrans.
  - intros st' a H. apply Hk. by etrans.
Qed.

Lemma wp_try_destroy (m : M hstate unit) st0 st :
  wp m (λ st' _, edge_rel st0 st') st →
  wp (try_except m (λ _, destroy)) (λ st' _, edge_rel st0 st') st.
Proof.
  unfold wp, try_except. destruct (m st) as [st' [[] | e]]; simpl; [done |].
  intros He. eapply edge_rel_settled_r; [done | apply destroy_settled].
Qed.

(** The tail of the connect path, from the assignment of [_remote_sock]. *)
Lemma connect_tail_edge st0 (h : handler) (s : server) remote_sock sa :
  hid h = hid st0.1 → _is_local h = _is_local st0.1 →
  stage_edge (_is_local st0.1) (_stage st0.1) STAGE_REPLY →
  wp (modify_self (set_remote_sock (Some remote_sock));;
      h ← self;
      modify_server (λ s, set_fd_to_handlers
                            (<[fileno remote_sock := hid h]> (_fd_to_handlers s)) s);;
      emit (SockSetBlocking remote_sock false);;
      emit (SockNoDelay remote_sock);;
      emit (SockConnect remote_sock sa);;
      emit (LoopAdd remote_sock (Z.lor POLL_ERR POLL_OUT));;
      modify_self (set_stage STAGE_REPLY);;
      update_stream STREAM_UP WAIT_STATUS_READWRITING;;
      update_stream STREAM_DOWN WAIT_STATUS_READING)
     (λ st' _, edge_rel st0 st') (h, s).
Proof.
  intros Hid Hl He. unfold wp. munfold. cbn [fst snd].
  match goal with
  | |- context [update_stream STREAM_UP _ ?st] =>
      pose proof (update_stream_settled STREAM_UP WAIT_STATUS_READWRITING st)
        as H1;
      destruct (update_stream STREAM_UP WAIT_STATUS_READWRITING st)
        as [st1 [[] | e]] eqn:E1
  end; cbn [fst snd] in *.
  - pose proof (update_stream_settled STREAM_DOWN WAIT_STATUS_READING st1)
      as H2.
    eapply edge_rel_settled_r; [| exact H2].
    eapply edge_rel_settled_r; [| exact H1].
    unfold edge_rel. simpl. tauto.
  - eapply edge_rel_settled_r; [| exact H1].
    unfold edge_rel. simpl. tauto.
Qed.

Lemma wp_ret_settled {A} (a : A) st0 st :
  settled st0 st → wp (mret a) (λ st' _, edge_rel st0 st') st.
Proof. intros H. by apply settled_edge_rel. Qed.

Lemma wp_raise_settled {A} e st0 st :
  settled st0 st → wp (raise e : M hstate A) (λ st' _, edge_rel st0 st') st.
Proof. intros H. by apply settled_edge_rel. Qed.

Lemma wp_set_stage_settled v st0 st :
  settled st0 st → stage_edge (_is_local st0.1) (_stage st0.1) v →
  wp (modify_self (set_stage v)) (λ st' _, edge_rel st0 st') st.
Proof.
  intros (? & ? & ? & Hr & _) He. unfold wp, edge_rel. simpl. tauto.
Qed.

Lemma on_local_read_connect_edge e b data st0 st :
  settled st0 st →
  stage_edge (_is_local st0.1) (_stage st0.1) STAGE_REPLY →
  wp (on_local_read_connect e b data) (λ st' _, edge_rel st0 st') st.
Proof.
  intros Hst He. unfold on_local_read_connect.
  destruct (parse_header data) as [[[[addrtype ra] rp] hl] |];
    [| by apply wp_raise_settled].
  apply wp_bind_settled; [stable_auto settled_leaf | done |].
  intros st1 _ Hst1.
  apply wp_bind_settled; [stable_auto settled_leaf | done |].
  intros st2 [ra' rp'] Hst2.
  destruct (getaddrinfo e ra' rp') as [| [af sa] ?];
    [by apply wp_raise_settled |].
  destruct st2 as [h2 s2]. destruct Hst2 as (? & ? & _).
  by apply connect_tail_edge.
Qed.

Lemma on_local_read_try_edge e b data st0 st :
  settled st0 st → b = _is_local st0.1 →
  (b = true ∧ _stage st0.1 = STAGE_HELLO) ∨
  (b = false ∧ _stage st0.1 = STAGE_INIT) →
  wp (on_local_read_try e b data) (λ st' _, edge_rel st0 st') st.
Proof.
  intros Hst Hb Hbranch.
  assert (He : stage_edge (_is_local st0.1) (_stage st0.1) STAGE_REPLY).
  { unfold stage_edge. rewrite <- Hb. tauto. }
  unfold on_local_read_try. destruct b.
  2: by apply on_local_read_connect_edge.
  destruct (data !! 1) as [c |]; [| by apply wp_raise_settled].
  cbn zeta. destruct (ord c =? CMD_UDP_ASSOCIATE)%Z.
  - unfold self. apply wp_gets_bind.
    destruct (_local_sock st.1) as [local_sock |];
      [| by apply wp_raise_settled].
    destruct (family local_sock); [| by apply wp_raise_settled].
    destruct (getsockname e) as [addr port].
    apply wp_bind_settled; [stable_auto settled_leaf | done |].
    intros st1 _ Hst1. apply wp_set_stage_settled; [done |].
    unfold stage_edge. rewrite <- Hb. destruct Hbranch as [[_ ->] | [? _]]; [| done].
    tauto.
  - destruct (ord c =? CMD_CONNECT)%Z.
    + by apply on_local_read_connect_edge.
    + apply wp_settled; [stable_auto settled_leaf | by apply settled_edge_rel].
Qed.

Lemma on_local_read_edge e st0 :
  wp (on_local_read e) (λ st' _, edge_rel st0 st') st0.
Proof.
  unfold on_local_read.
  apply wp_bind_settled; [stable_auto settled_leaf | done |].
  intros st1 _ Hst1. unfold self. apply wp_gets_bind.
  destruct (_local_sock st1.1); [| by apply wp_ret_settled].
  cbn zeta.
  destruct (recv e) as [data | err].
  2: { apply wp_settled; [| by apply settled_edge_rel].
       destruct err; stable_auto settled_leaf. }
  destruct (is_empty data).
  { apply wp_settled; [stable_auto settled_leaf | by apply settled_edge_rel]. }
  apply wp_bind_settled; [stable_auto settled_leaf | done |].
  intros st2 data' Hst2.
  pose proof Hst1 as (_ & Hl1 & _). pose proof Hst2 as (_ & Hl2 & Hs2 & _).
  destruct (negb (_is_local st1.1) && is_empty data');
    [by apply wp_ret_settled |].
  apply wp_gets_bind.
  destruct (Z.eqb_spec (_stage st2.1) STAGE_STREAM) as [Es | _].
  { apply wp_settled; [stable_auto settled_leaf | by apply settled_edge_rel]. }
  destruct (_is_local st1.1 && (_stage st2.1 =? STAGE_INIT)%Z) eqn:Einit.
  { apply andb_true_iff in Einit as [El Ei]. apply Z.eqb_eq in Ei.
    apply wp_bind_settled; [stable_auto settled_leaf | done |].
    intros st3 _ Hst3. apply wp_set_stage_settled; [done |].
    unfold stage_edge. rewrite <- Hl1, El, <- Hs2, Ei. tauto. }
  destruct (Z.eqb_spec (_stage st2.1) STAGE_REPLY) as [Er | _].
  { apply wp_settled; [stable_auto settled_leaf | by apply settled_edge_rel]. }
  destruct (_ || _) eqn:Etry; [| by apply wp_ret_settled].
  apply wp_try_destroy. apply on_local_read_try_edge; [done | done |].
  rewrite <- Hs2.
  apply orb_true_iff in Etry as [E | E];
    apply andb_true_iff in E as [E1 E2]; apply Z.eqb_eq in E2;
    [left | right]; (split; [| done]); [done |].
  by apply negb_true_iff in E1.
Qed.

Lemma wp_modify_bind {S B} (f : S → S) (k : unit → M S B) Q s :
  wp (k tt) Q (f s) → wp (modify f ≫= k) Q s.
Proof. done. Qed.

Lemma on_remote_write_edge e st0 st :
  settled st0 st →
  _stage st0.1 = STAGE_REPLY ∨ _stage st0.1 = STAGE_STREAM →
  wp (on_remote_write e) (λ st' _, edge_rel st0 st') st.
Proof.
  intros Hst Hstage. unfold on_remote_write, modify_self.
  apply wp_modify_bind. apply wp_settled; [stable_auto settled_leaf |].
  destruct Hst as (? & ? & ? & Hr & _). unfold edge_rel, stage_edge. simpl.
  repeat split; try done; [| tauto].
  destruct Hstage as [-> | ->]; tauto.
Qed.

Lemma wp_bind_edge_settled {A B} (m : M hstate A) (k : A → M hstate B) st0 st :
  wp m (λ st' _, edge_rel st0 st') st → (∀ a, stable settled (k a)) →
  wp (m ≫= k) (λ st' _, edge_rel st0 st') st.
Proof.
  unfold wp, mbind, M_bind. intros Hm Hk.
  destruct (m st) as [st' [a | e]]; simpl in *; [| done].
  eapply edge_rel_settled_r; [done | apply Hk].
Qed.

Lemma handle_event_edge ein eout sock event h s :
  connected_when_remote h →
  edge_rel (h, s) (handle_event ein eout sock event (h, s)).1.
Proof.
  intros Hconn.
  change (wp (handle_event ein eout sock event)
            (λ st' _, edge_rel (h, s) st') (h, s)).
  unfold handle_event, self, on_local_error, on_remote_error.
  apply wp_gets_bind. cbn [fst].
  case_bool_decide as Hr; [| case_bool_decide as Hl].
  - assert (Hstage : _stage h = STAGE_REPLY ∨ _stage h = STAGE_STREAM)
      by (apply Hconn; congruence).
    apply wp_bind_settled; [stable_auto settled_leaf | done |].
    intros st1 _ Hst1. apply wp_bind_edge_settled.
    + destruct (has_bits event POLL_OUT); simpl.
      * by apply on_remote_write_edge.
      * by apply wp_ret_settled.
    + intros _. stable_auto settled_leaf.
  - apply wp_bind_edge_settled.
    + destruct (has_bits event POLL_IN); simpl.
      * apply on_local_read_edge.
      * by apply wp_ret_settled.
    + intros _. stable_auto settled_leaf.
  - by apply wp_ret_settled.
Qed.

Lemma edge_rel_connected st st' :
  connected_when_remote st.1 → edge_rel st st' → connected_when_remote st'.1.
Proof.
  unfold connected_when_remote, edge_rel, stage_edge.
  intros Hc (_ & _ & He & Hr) Hne.
  destruct Hr as [Hr | [Hr | Hr]]; [| done | tauto].
  rewrite Hr in Hne. specialize (Hc Hne).
  unfold STAGE_INIT, STAGE_HELLO, STAGE_REPLY, STAGE_STREAM,
    STAGE_UDP_ASSOC in *.
  lia.
Qed.

Lemma act_edge a h :
  connected_when_remote h →
  stage_edge (_is_local h) (_stage h) (_stage (act a h)) ∧
  _is_local (act a h) = _is_local h ∧ connected_when_remote (act a h).
Proof.
  intros Hc.
  assert (He : ∃ s, edge_rel (h, s) (act a h, s)).
  { destruct a as [s ein eout sock event | s]; exists s; simpl.
    - pose proof (handle_event_edge ein eout sock event h s Hc) as H.
      unfold edge_rel in *. simpl in *. done.
    - pose proof (settled_edge_rel _ _ (destroy_settled (h, s))) as H.
      unfold edge_rel in *. simpl in *. done. }
  destruct He as [s He]. pose proof He as (_ & Hl & Hs & _).
  split; [done |]. split; [done |].
  by apply (edge_rel_connected (h, s) (act a h, s)).
Qed.

Lemma distinct_stages_head s l :
  ∃ rest, distinct_stages (s :: l) = s :: rest.
Proof.
  simpl. destruct (distinct_stages l) as [| b rest]; [by eexists |].
  destruct (decide (s = b)) as [-> | ?]; by eexists.
Qed.

Lemma distinct_stages_cons a l :
  distinct_stages (a :: l) =
    match distinct_stages l with
    | [] => [a]
    | b :: rest => if decide (a = b) then b :: rest else a :: b :: rest
    end.
Proof. done. Qed.

Lemma stage_history_head h acts :
  ∃ rest, stage_history h acts = _stage h :: rest.
Proof. destruct acts; by eexists. Qed.

Lemma stage_history_chain acts : ∀ h,
  connected_when_remote h →
  chain (_is_local h) (distinct_stages (stage_history h acts)).
Proof.
  induction acts as [| a acts IH]; intros h Hc; [done |].
  destruct (act_edge a h Hc) as (He & Hl & Hc').
  specialize (IH (act a h) Hc'). rewrite Hl in IH.
  cbn [stage_history]. destruct (stage_history_head (act a h) acts) as [r Hr].
  rewrite Hr in *. destruct (distinct_stages_head (_stage (act a h)) r)
    as [r' Hr'].
  rewrite (distinct_stages_cons (_stage h)), Hr' in *.
  destruct (decide (_stage h = _stage (act a h))); [done |].
  simpl. done.
Qed.

Lemma stage_history_sorted acts : ∀ h,
  connected_when_remote h → Sorted Z.le (stage_history h acts).
Proof.
  induction acts as [| a acts IH]; intros h Hc.
  { repeat constructor. }
  destruct (act_edge a h Hc) as (He & Hl & Hc').
  cbn [stage_history]. constructor; [by apply IH |].
  destruct (stage_history_head (act a h) acts) as [r ->]. constructor.
  unfold stage_edge, STAGE_INIT, STAGE_HELLO, STAGE_REPLY, STAGE_STREAM,
    STAGE_UDP_ASSOC in He.
  lia.
Qed.

Lemma chain_on_path role l :
  chain role (STAGE_INIT :: l) → on_a_path role (STAGE_INIT :: l).
Proof.
  unfold on_a_path, stage_paths.
  assert (Hp : ∀ (a b : list Z), a `prefix_of` a ++ b) by
    (intros a b; by exists b).
  intros H.
  repeat
    (match type of H with
     | chain _ [_] => clear H
     | chain _ (_ :: ?l) =>
         let He := fresh "He" in
         let Hne := fresh "Hne" in
         destruct l as [| ? ?];
         [| destruct H as (Hne & He & H);
            unfold stage_edge, STAGE_INIT, STAGE_HELLO, STAGE_REPLY,
              STAGE_STREAM, STAGE_UDP_ASSOC in He;
            destruct He as [? | [(? & ? & ?) | [(? & ? & ?) | [(? & ? & ?)
                             | [(? & ? & ?) | (? & ?)]]]]];
            simplify_eq; try congruence; clear Hne]
     end).
  all: try destruct role.
  all: unfold STAGE_INIT, STAGE_HELLO, STAGE_REPLY, STAGE_STREAM,
      STAGE_UDP_ASSOC; try done.
  all: first
    [ eexists; split; [apply list_elem_of_here |]; by eexists
    | eexists; split; [apply list_elem_of_further, list_elem_of_here |];
      by eexists ].
Qed.

Lemma handler_init_settled t : stable settled (handler_init t).
Proof. unfold handler_init. stable_auto settled_leaf. Qed.

(** C9. Stage monotonicity: whatever events are dispatched to a handler
    after its construction (and whenever the sweeper destroys it), the
    distinct stage values it goes through form a prefix of
    [INIT, HELLO, REPLY, STREAM] or of [INIT, HELLO, UDP_ASSOC] at the local
    role, and of [INIT, REPLY, STREAM] at the remote role; in particular the
    stage never decreases. *)
Theorem stage_monotonicity c id conn role t s0 acts :
  let h0 := (handler_init t (new_handler c id conn role, s0)).1.1 in
  on_a_path role (distinct_stages (stage_history h0 acts)) ∧
  Sorted Z.le (stage_history h0 acts).
Proof.
  intros h0.
  pose proof (handler_init_settled t (new_handler c id conn role, s0))
    as (_ & Hl & Hs & Hr & _).
  fold h0 in Hl, Hs, Hr. simpl in Hl, Hs, Hr.
  assert (Hc : connected_when_remote h0).
  { intros Hne. by destruct Hr. }
  split; [| by apply stage_history_sorted].
  pose proof (stage_history_chain acts h0 Hc) as Hchain.
  destruct (stage_history_head h0 acts) as [r Hr0]. rewrite Hr0 in *.
  destruct (distinct_stages_head (_stage h0) r) as [r' Hr']. rewrite Hr' in *.
  rewrite Hl, Hs in Hchain. rewrite Hs. by apply chain_on_path.
Qed.

#[local] Instance effects_grow_preorder : PreOrder effects_grow.
Proof.
  split.
  - intros st. unfold effects_grow. reflexivity.
  - intros a b c Hab Hbc. unfold effects_grow in *. by etrans.
Qed.

Ltac effects_grow_leaf :=
  unfold effects_grow; simpl; first [ done | by apply prefix_app_r ].

Lemma remove_handler_effects_grow : stable effects_grow remove_handler.
Proof. unfold remove_handler. stable_auto effects_grow_leaf. Qed.
#[local] Hint Resolve remove_handler_effects_grow : stable.

Lemma destroy_effects_grow : stable effects_grow destroy.
Proof. unfold destroy. stable_auto effects_grow_leaf. Qed.
#[local] Hint Resolve destroy_effects_grow : stable.

Lemma update_stream_effects_grow stream status :
  stable effects_grow (update_stream stream status).
Proof. unfold update_stream. stable_auto effects_grow_leaf. Qed.
#[local] Hint Resolve update_stream_effects_grow : stable.

(** A write of a non-empty string starts with a [send] of it. *)
Lemma write_to_sock_sends sent data r st :
  data ≠ [] →
  ∃ evs, effects (write_to_sock sent data (Some r) st).1.2 =
           effects st.2 ++ SockSend r data :: evs.
Proof.
  intros Hdata. unfold write_to_sock. destruct data as [| b data]; [done |].
  cbn [is_empty]. set (d := b :: data).
  match goal with
  | |- context [mbind ?k (emit ?ev)] =>
      assert (Hk : stable effects_grow (k tt))
        by stable_auto effects_grow_leaf;
      change ((mbind k (emit ev)) st)
        with (k tt (st.1, set_effects (effects st.2 ++ [ev]) st.2));
      destruct (Hk (st.1, set_effects (effects st.2 ++ [ev]) st.2))
        as [evs Hevs]
  end.
  exists evs. rewrite Hevs. simpl. by rewrite <- app_assoc.
Qed.

(** ** C10: buffering while the upstream connects *)

Lemma on_local_read_reply e h s l data :
  index_points_to_entry (_timeouts s) (_handler_to_timeouts s) →
  _stage h = STAGE_REPLY → _local_sock h = Some l →
  recv e = Recv data → data ≠ [] →
  let r := on_local_read e (h, s) in
  let chunk := relayed_chunk h data in
  r.2 = Ok tt ∧
  _data_to_write_to_remote r.1.1 =
    (if negb (_is_local h) && is_empty chunk
     then _data_to_write_to_remote h
     else _data_to_write_to_remote h ++ [chunk]) ∧
  effects r.1.2 = effects s ∧
  _upstream_status r.1.1 = _upstream_status h ∧
  _downstream_status r.1.1 = _downstream_status h ∧
  _stage r.1.1 = _stage h ∧
  _remote_sock r.1.1 = _remote_sock h ∧ _local_sock r.1.1 = _local_sock h.
Proof.
  intros Ha Hstage Hlocal Hrecv Hdata.
  unfold relayed_chunk.
  destruct (encrypt (_encryptor h) data) as [enc c1] eqn:Eenc.
  destruct (decrypt (_encryptor h) data) as [dec c2] eqn:Edec.
  unfold on_local_read, cipher_encrypt, cipher_decrypt.
  munfold. rewrite update_activity_eq by done. cbn [fst snd].
  destruct data as [| b data]; [done |].
  destruct (py_int (time_time e) - last_activity h <? TIMEOUT_PRECISION)%Z;
    simpl; rewrite Hlocal, Hrecv; simpl;
    destruct (_is_local h); simpl; rewrite ?Eenc, ?Edec; simpl;
    rewrite ?Hstage; simpl; rewrite ?Eenc, ?Edec; simpl;
    try (destruct dec; simpl); rewrite ?Hstage; simpl; done.
Qed.

#[local] Instance upstream_kept_preorder : PreOrder upstream_kept.
Proof.
  split; [by intros st |].
  intros a b c H1 H2. unfold upstream_kept in *. congruence.
Qed.

Ltac upstream_kept_leaf := unfold upstream_kept; simpl; done.

Lemma update_activity_upstream_kept t :
  stable upstream_kept (update_activity t).
Proof. unfold update_activity. stable_auto upstream_kept_leaf. Qed.
#[local] Hint Resolve update_activity_upstream_kept : stable.

Lemma remove_handler_upstream_kept : stable upstream_kept remove_handler.
Proof. unfold remove_handler. stable_auto upstream_kept_leaf. Qed.
#[local] Hint Resolve remove_handler_upstream_kept : stable.

Lemma destroy_upstream_kept : stable upstream_kept destroy.
Proof. unfold destroy. stable_auto upstream_kept_leaf. Qed.
#[local] Hint Resolve destroy_upstream_kept : stable.

Lemma update_stream_upstream_kept stream status :
  stable upstream_kept (update_stream stream status).
Proof. unfold update_stream. stable_auto upstream_kept_leaf. Qed.
#[local] Hint Resolve update_stream_upstream_kept : stable.

(** Writing to the local socket leaves the upstream queue alone: what is
    not sent goes to the downstream queue. *)
Lemma write_to_local_upstream_kept sent data h s :
  upstream_kept (h, s) (write_to_sock sent data (_local_sock h) (h, s)).1.
Proof.
  unfold write_to_sock. destruct (_local_sock h) as [l |] eqn:Hl; [| done].
  destruct data as [| b data]; [done |]. cbn [is_empty]. set (d := b :: data).
  set (s1 := set_effects (effects s ++ [SockSend l d]) s).
  assert (Hlocal_true : bool_decide (Some l = _local_sock h) = true)
    by (rewrite Hl; by apply bool_decide_eq_true_2).
  assert (Hqueue : ∀ rest,
    upstream_kept (h, s)
      ((modify_self (λ h, set_data_to_write_to_local
                            (_data_to_write_to_local h ++ [rest]) h);;
        update_stream STREAM_DOWN WAIT_STATUS_WRITING) (h, s1)).1).
  { intros rest. munfold. cbn [fst snd].
    etrans; [| apply update_stream_upstream_kept]. done. }
  destruct sent as [k | err]; [| destruct err].
  - munfold. cbn [fst snd]. destruct (k <? length d); cbn [fst snd].
    + rewrite Hlocal_true. apply Hqueue.
    + rewrite Hlocal_true.
      etrans; [| apply update_stream_upstream_kept]. done.
  - munfold. cbn [fst snd]. rewrite Hlocal_true. apply Hqueue.
  - munfold. cbn [fst snd]. rewrite Hlocal_true. apply Hqueue.
  - munfold. cbn [fst snd]. fold s1.
    pose proof (destroy_upstream_kept (h, s1)) as Hk.
    destruct (destroy (h, s1)) as [st2 [[] | e]]; cbn [fst snd] in *;
      [| done].
    etrans; [exact Hk |]. repeat case_bool_decide;
      try apply update_stream_upstream_kept; done.
  - munfold. cbn [fst snd]. fold s1.
    pose proof (destroy_upstream_kept (h, s1)) as Hk.
    destruct (destroy (h, s1)) as [st2 [[] | e]]; cbn [fst snd] in *;
      [| done].
    etrans; [exact Hk |]. repeat case_bool_decide;
      try apply update_stream_upstream_kept; done.
Qed.

Lemma write_to_own_local_upstream_kept sent data :
  stable upstream_kept (h ← self; write_to_sock sent data (_local_sock h)).
Proof. intros [h s]. apply write_to_local_upstream_kept. Qed.
#[local] Hint Resolve write_to_own_local_upstream_kept : stable.

Lemma on_remote_read_upstream_kept e : stable upstream_kept (on_remote_read e).
Proof. unfold on_remote_read. stable_auto upstream_kept_leaf. Qed.

Lemma on_local_write_upstream_kept e : stable upstream_kept (on_local_write e).
Proof.
  intros [h s]. unfold on_local_write. munfold. cbn [fst snd].
  destruct (_data_to_write_to_local h) as [| q qs]; cbn [is_empty negb].
  - apply update_stream_upstream_kept.
  - apply (write_to_local_upstream_kept _ _
             (set_data_to_write_to_local [] h) s).
Qed.

(** C10. While the handler is in stage [REPLY], a chunk read from the local
    socket goes to the end of [_data_to_write_to_remote], encrypted at the
    local role and decrypted at the remote role; nothing is sent (the
    callback has no effect on any socket or on the poller) and the two
    statuses and the stage stay as they are.  The queue is flushed by the
    remote-writable callback, which sends its concatenation on the remote
    socket, and only by it: the remote-readable and the local-writable
    callback and destruction (the error callbacks) leave the queue as it
    is.  The timeout index of the server is assumed coherent. *)
Theorem reply_stage_buffering e h s l data :
  coherent s → _stage h = STAGE_REPLY → _local_sock h = Some l →
  recv e = Recv data → data ≠ [] →
  let st' := (on_local_read e (h, s)).1 in
  concat (_data_to_write_to_remote st'.1) =
    concat (_data_to_write_to_remote h) ++ relayed_chunk h data ∧
  (relayed_chunk h data ≠ [] →
     _data_to_write_to_remote st'.1 =
       _data_to_write_to_remote h ++ [relayed_chunk h data]) ∧
  sends (effects st'.2) = sends (effects s) ∧
  effects st'.2 = effects s ∧
  _upstream_status st'.1 = _upstream_status h ∧
  _downstream_status st'.1 = _downstream_status h ∧
  _stage st'.1 = STAGE_REPLY ∧
  (∀ eout r,
     _remote_sock st'.1 = Some r →
     concat (_data_to_write_to_remote st'.1) ≠ [] →
     ∃ evs, effects (on_remote_write eout st').1.2 =
              effects st'.2
              ++ SockSend r (concat (_data_to_write_to_remote st'.1)) :: evs) ∧
  (∀ e', upstream_kept st' (on_remote_read e' st').1 ∧
         upstream_kept st' (on_local_write e' st').1 ∧
         upstream_kept st' (destroy st').1).
Proof.
  intros (Ha & _) Hstage Hlocal Hrecv Hdata.
  destruct (on_local_read_reply e h s l data Ha Hstage Hlocal Hrecv Hdata)
    as (_ & Hq & Heff & Hup & Hdown & Hst & Hrs & Hls).
  cbn zeta in *.
  set (st' := (on_local_read e (h, s)).1) in *.
  split; [| split; [| split; [| split; [| split; [| split; [| split;
    [| split]]]]]]];
    try done.
  - rewrite Hq. destruct (negb (_is_local h) && is_empty _) eqn:E.
    + apply andb_true_iff in E as [_ E].
      destruct (relayed_chunk h data); [| done]. by rewrite app_nil_r.
    + by rewrite concat_app, (concat_cons (relayed_chunk h data)),
        concat_nil, app_nil_r.
  - intros Hne. rewrite Hq. destruct (relayed_chunk h data); [done |].
    by rewrite andb_false_r.
  - by rewrite Heff.
  - congruence.
  - intros eout r Hr Hq2. destruct st' as [h' s']. simpl in *.
    unfold on_remote_write. munfold. simpl. rewrite Hr.
    destruct (_data_to_write_to_remote h') as [| q qs] eqn:Eq; [done |].
    cbn [is_empty negb].
    apply (write_to_sock_sends _ _ r (set_data_to_write_to_remote [] _, s')).
    done.
  - intros e'. split; [apply on_remote_read_upstream_kept |].
    split; [apply on_local_write_upstream_kept |].
    apply destroy_upstream_kept.
Qed.

(** ** C7: the CONNECT request *)

#[local] Instance request_kept_preorder : PreOrder request_kept.
Proof.
  split.
  - intros st. unfold request_kept. by repeat split.
  - intros a b c (? & ? & ? & ? & ? & ? & ? & ? & ?) (? & ? & ? & ? & ? & ? & ? & ? & ?).
    unfold request_kept. repeat split; try congruence. by etrans.
Qed.

#[local] Instance statuses_only_preorder : PreOrder statuses_only.
Proof.
  split.
  - intros st. unfold statuses_only. by repeat split.
  - intros a b c (? & ? & ? & ?) (? & ? & ? & ?).
    unfold statuses_only. split; [by etrans |]. repeat split; congruence.
Qed.

Lemma sends_snoc_other l ev :
  (∀ s d, ev ≠ SockSend s d) → sends (l ++ [ev]) = sends l.
Proof.
  intros H. unfold sends. rewrite omap_app. simpl.
  destruct ev; try by rewrite app_nil_r. by destruct (H s data).
Qed.

Ltac request_kept_leaf :=
  unfold statuses_only, request_kept; simpl;
  rewrite ?sends_snoc_other by done;
  repeat split; first [ done | by apply prefix_app_r ].

Lemma remove_handler_request_kept : stable request_kept remove_handler.
Proof. unfold remove_handler. stable_auto request_kept_leaf. Qed.
#[local] Hint Resolve remove_handler_request_kept : stable.

Lemma destroy_request_kept : stable request_kept destroy.
Proof. unfold destroy. stable_auto request_kept_leaf. Qed.
#[local] Hint Resolve destroy_request_kept : stable.

Lemma update_stream_statuses_only stream status :
  stable statuses_only (update_stream stream status).
Proof. unfold update_stream. stable_auto request_kept_leaf. Qed.
#[local] Hint Resolve update_stream_statuses_only : stable.

Lemma update_stream_ok stream status st :
  (update_stream stream status st).2 = Ok tt.
Proof.
  unfold update_stream. munfold. simpl.
  repeat case_match; simplify_eq/=; done.
Qed.

Lemma sockets_registered_effects h s evs :
  sockets_registered h s → sockets_registered h (set_effects evs s).
Proof. done. Qed.

(** Writing to the local socket, whatever [send] does: the request is
    left as it is and one [send] is recorded. *)
Lemma write_to_local_spec sent data l h s :
  _local_sock h = Some l → sockets_registered h s →
  index_points_to_entry (_timeouts s) (_handler_to_timeouts s) →
  data ≠ [] →
  let r := write_to_sock sent data (Some l) (h, s) in
  r.2 = Ok tt ∧
  request_kept (h, set_effects (effects s ++ [SockSend l data]) s) r.1.
Proof.
  intros Hlocal Hreg Ha Hdata. unfold write_to_sock.
  destruct data as [| b data]; [done |]. cbn [is_empty]. set (d := b :: data).
  set (s1 := set_effects (effects s ++ [SockSend l d]) s).
  assert (Hlocal_true : ∀ h' : handler, _local_sock h' = Some l →
            bool_decide (Some l = _local_sock h') = true)
    by (intros h' ->; by apply bool_decide_eq_true_2).
  assert (Hpartial : ∀ rest,
    let r := (modify_self (λ h, set_data_to_write_to_local
                                  (_data_to_write_to_local h ++ [rest]) h);;
              update_stream STREAM_DOWN WAIT_STATUS_WRITING) (h, s1) in
    r.2 = Ok tt ∧ request_kept (h, s1) r.1).
  { intros rest. munfold. cbn [fst snd]. split; [apply update_stream_ok |].
    etrans; [| apply update_stream_statuses_only]. request_kept_leaf. }
  destruct sent as [k | err]; [| destruct err].
  - munfold. cbn [fst snd]. destruct (k <? length d); cbn [fst snd].
    + rewrite Hlocal_true by done. apply Hpartial.
    + rewrite Hlocal_true by done. split; [apply update_stream_ok |].
      apply update_stream_statuses_only.
  - munfold. cbn [fst snd]. rewrite Hlocal_true by done. apply Hpartial.
  - munfold. cbn [fst snd]. rewrite Hlocal_true by done. apply Hpartial.
  - munfold. cbn [fst snd]. fold s1.
    pose proof (destroy_request_kept (h, s1)) as Hk.
    rewrite (destroy_eq h s1) in * by done. cbn [fst snd] in *.
    unfold destroy_result at 1 2. cbn [fst snd _local_sock _remote_sock
      set_local_sock set_remote_sock].
    rewrite !bool_decide_eq_false_2 by done. done.
  - munfold. cbn [fst snd]. fold s1.
    pose proof (destroy_request_kept (h, s1)) as Hk.
    rewrite (destroy_eq h s1) in * by done. cbn [fst snd] in *.
    unfold destroy_result at 1 2. cbn [fst snd _local_sock _remote_sock
      set_local_sock set_remote_sock].
    rewrite !bool_decide_eq_false_2 by done. done.
Qed.

#[local] Instance grows_by_preorder P : PreOrder (grows_by P).
Proof.
  split.
  - intros st. exists []. by rewrite app_nil_r.
  - intros a b c (e1 & H1 & F1) (e2 & H2 & F2). exists (e1 ++ e2).
    split; [by rewrite H2, H1, app_assoc | by apply Forall_app].
Qed.

Lemma grows_by_weaken (P Q : effect → Prop) st st' :
  (∀ ev, P ev → Q ev) → grows_by P st st' → grows_by Q st st'.
Proof.
  intros HPQ (evs & H & F). exists evs. split; [done |].
  by eapply Forall_impl.
Qed.

Ltac grows_by_leaf :=
  unfold grows_by; simpl;
  first [ by exists []; rewrite app_nil_r
        | by eexists [_]; split; [reflexivity | repeat constructor] ].

Lemma remove_handler_housekeeping :
  stable (grows_by housekeeping) remove_handler.
Proof. unfold remove_handler. stable_auto grows_by_leaf. Qed.
#[local] Hint Resolve remove_handler_housekeeping : stable.

Lemma destroy_housekeeping : stable (grows_by housekeeping) destroy.
Proof. unfold destroy. stable_auto grows_by_leaf. Qed.
#[local] Hint Resolve destroy_housekeeping : stable.

Lemma update_stream_poller_update stream status :
  stable (grows_by poller_update) (update_stream stream status).
Proof. unfold update_stream. stable_auto grows_by_leaf. Qed.

Lemma update_stream_housekeeping stream status :
  stable (grows_by housekeeping) (update_stream stream status).
Proof.
  intros st. eapply grows_by_weaken; [| apply update_stream_poller_update].
  by intros [].
Qed.
#[local] Hint Resolve update_stream_housekeeping : stable.

(** After its [send], writing to the local socket only closes sockets or
    updates the poller. *)
Lemma write_to_local_housekeeping sent data l h s :
  _local_sock h = Some l → sockets_registered h s →
  index_points_to_entry (_timeouts s) (_handler_to_timeouts s) →
  data ≠ [] →
  grows_by housekeeping
    (h, set_effects (effects s ++ [SockSend l data]) s)
    (write_to_sock sent data (Some l) (h, s)).1.
Proof.
  intros Hlocal Hreg Ha Hdata. unfold write_to_sock.
  destruct data as [| b data]; [done |]. cbn [is_empty]. set (d := b :: data).
  set (s1 := set_effects (effects s ++ [SockSend l d]) s).
  assert (Hlocal_true : ∀ h' : handler, _local_sock h' = Some l →
            bool_decide (Some l = _local_sock h') = true)
    by (intros h' ->; by apply bool_decide_eq_true_2).
  assert (Hpartial : ∀ rest,
    grows_by housekeeping (h, s1)
      ((modify_self (λ h, set_data_to_write_to_local
                            (_data_to_write_to_local h ++ [rest]) h);;
        update_stream STREAM_DOWN WAIT_STATUS_WRITING) (h, s1)).1).
  { intros rest. munfold. cbn [fst snd].
    etrans; [| apply update_stream_housekeeping]. grows_by_leaf. }
  destruct sent as [k | err]; [| destruct err].
  - munfold. cbn [fst snd]. destruct (k <? length d); cbn [fst snd].
    + rewrite Hlocal_true by done. apply Hpartial.
    + rewrite Hlocal_true by done. apply update_stream_housekeeping.
  - munfold. cbn [fst snd]. rewrite Hlocal_true by done. apply Hpartial.
  - munfold. cbn [fst snd]. rewrite Hlocal_true by done. apply Hpartial.
  - munfold. cbn [fst snd]. fold s1.
    pose proof (destroy_housekeeping (h, s1)) as Hk.
    rewrite (destroy_eq h s1) in * by done. cbn [fst snd] in *.
    unfold destroy_result at 1 2. cbn [fst snd _local_sock _remote_sock
      set_local_sock set_remote_sock].
    rewrite !bool_decide_eq_false_2 by done. done.
  - munfold. cbn [fst snd]. fold s1.
    pose proof (destroy_housekeeping (h, s1)) as Hk.
    rewrite (destroy_eq h s1) in * by done. cbn [fst snd] in *.
    unfold destroy_result at 1 2. cbn [fst snd _local_sock _remote_sock
      set_local_sock set_remote_sock].
    rewrite !bool_decide_eq_false_2 by done. done.
Qed.

Lemma connect_request_run e h s l (data : bytes) c addrtype ra rp hl af sa
    rest :
  _local_sock h = Some l → sockets_registered h s →
  index_points_to_entry (_timeouts s) (_handler_to_timeouts s) →
  data !! 1%nat = Some c → ord c = CMD_CONNECT →
  parse_header (drop 3 data) = Some (addrtype, ra, rp, hl) →
  getaddrinfo e (config_server s) (config_server_port s) = (af, sa) :: rest →
  let r := on_local_read_try e true data (h, s) in
  r.2 = Ok tt ∧ _remote_address r.1.1 = Some (ra, rp) ∧
  _stage r.1.1 = STAGE_REPLY ∧
  sends (effects r.1.2) =
    sends (effects s)
    ++ [(l, [x05; x00; x00; x01; x00; x00; x00; x00; x10; x10])] ∧
  _data_to_write_to_remote r.1.1 =
    _data_to_write_to_remote h ++ [(encrypt (_encryptor h) (drop 3 data)).1] ∧
  _remote_sock r.1.1 = Some (socket_socket e af) ∧
  ∃ during after,
    effects r.1.2 =
      effects s
      ++ [SockSend l [x05; x00; x00; x01; x00; x00; x00; x00; x10; x10]]
      ++ during ++ nonblocking_connect (socket_socket e af) sa ++ after ∧
    Forall housekeeping during ∧ Forall poller_update after.
Proof.
  intros Hlocal Hreg Ha Hc Hord Hparse Hgai.
  unfold on_local_read_try. rewrite Hc. cbn zeta. rewrite Hord.
  change (CMD_CONNECT =? CMD_UDP_ASSOCIATE)%Z with false.
  change (CMD_CONNECT =? CMD_CONNECT)%Z with true. cbn iota.
  unfold on_local_read_connect. rewrite Hparse.
  unfold cipher_encrypt. munfold. cbn [fst snd].
  set (h2 := set_remote_address (Some (ra, rp)) h).
  assert (Hlocal2 : _local_sock h2 = Some l) by done.
  rewrite Hlocal2.
  destruct (write_to_local_spec (send e)
              ([x05; x00; x00; x01] ++ [x00; x00; x00; x00; x10; x10])
              l h2 s Hlocal2) as [Hok Hkept]; [done | done | done |].
  destruct (write_to_local_housekeeping (send e)
              ([x05; x00; x00; x01] ++ [x00; x00; x00; x00; x10; x10])
              l h2 s Hlocal2) as (during & Hduring & Fduring);
    [done | done | done |].
  destruct (write_to_sock _ _ _ _) as [[h3 s3] r3]. cbn [fst snd] in *.
  subst r3.
  destruct Hkept as (Hid & Hil & Hra & Henc & Hq & Hcs & Hcp & Hsends & Hpre).
  cbn [fst snd] in *.
  rewrite Henc. change (_encryptor h2) with (_encryptor h).
  destruct (encrypt (_encryptor h) (drop 3 data)) as [out c1] eqn:Eenc.
  cbn [fst snd]. rewrite Hcs, Hcp. cbn [config_server config_server_port
    set_effects]. rewrite Hgai. cbn [fst snd].
  match goal with
  | |- context [update_stream STREAM_UP ?x ?st] => set (st_a := st)
  end.
  assert (Ha_addr : _remote_address st_a.1 = Some (ra, rp)) by (by simpl).
  assert (Ha_stage : _stage st_a.1 = STAGE_REPLY) by done.
  assert (Ha_q : _data_to_write_to_remote st_a.1 =
                 _data_to_write_to_remote h ++ [out])
    by (simpl; by rewrite Hq).
  assert (Ha_rs : _remote_sock st_a.1 = Some (socket_socket e af)) by done.
  assert (Ha_sends : sends (effects st_a.2) =
    sends (effects s)
    ++ [(l, [x05; x00; x00; x01; x00; x00; x00; x00; x10; x10])]).
  { simpl. rewrite !sends_snoc_other by done. rewrite Hsends. simpl.
    unfold sends. by rewrite omap_app. }
  assert (Ha_eff : effects st_a.2 =
            effects s3 ++ nonblocking_connect (socket_socket e af) sa).
  { simpl. unfold nonblocking_connect. by rewrite <- !app_assoc. }
  pose proof (update_stream_poller_update STREAM_UP WAIT_STATUS_READWRITING
                st_a) as Hg1.
  pose proof (update_stream_poller_update STREAM_DOWN WAIT_STATUS_READING
                (update_stream STREAM_UP WAIT_STATUS_READWRITING st_a).1)
    as Hg2.
  clearbody st_a.
  pose proof (update_stream_ok STREAM_UP WAIT_STATUS_READWRITING st_a) as Hok1.
  pose proof (update_stream_statuses_only STREAM_UP WAIT_STATUS_READWRITING
                st_a) as Hk1.
  destruct (update_stream STREAM_UP WAIT_STATUS_READWRITING st_a)
    as [st_b rb]. cbn [fst snd] in *. subst rb.
  pose proof (update_stream_ok STREAM_DOWN WAIT_STATUS_READING st_b) as Hok2.
  pose proof (update_stream_statuses_only STREAM_DOWN WAIT_STATUS_READING
                st_b) as Hk2.
  destruct (update_stream STREAM_DOWN WAIT_STATUS_READING st_b)
    as [st_c rc]. cbn [fst snd] in *. subst rc.
  assert (Hk : statuses_only st_a st_c) by by etrans.
  assert (Hg : grows_by poller_update st_a st_c) by by etrans.
  destruct Hk as ((_ & _ & Kra & _ & Kq & _ & _ & Ksends & _)
                   & Kstage & Krs & _).
  destruct Hg as (after & Hafter & Fafter).
  rewrite Kra, Kstage, Ksends, Kq, Krs.
  do 6 (split; [done |]). exists during, after.
  split; [| done]. rewrite Hafter, Ha_eff, Hduring. cbn [effects set_effects].
  by rewrite <- !app_assoc.
Qed.


Lemma update_activity_request t h s :
  coherent s →
  ∃ h1 s1,
    update_activity t (h, s) = ((h1, s1), Ok tt) ∧
    index_points_to_entry (_timeouts s1) (_handler_to_timeouts s1) ∧
    hid h1 = hid h ∧ _is_local h1 = _is_local h ∧
    _local_sock h1 = _local_sock h ∧ _remote_sock h1 = _remote_sock h ∧
    _stage h1 = _stage h ∧ _encryptor h1 = _encryptor h ∧
    _data_to_write_to_remote h1 = _data_to_write_to_remote h ∧
    _fd_to_handlers s1 = _fd_to_handlers s ∧ effects s1 = effects s ∧
    config_server s1 = config_server s ∧
    config_server_port s1 = config_server_port s.
Proof.
  intros Hco. pose proof Hco as (Ha & _).
  rewrite update_activity_eq by done.
  destruct (_ <? _)%Z; eexists _, _; (split; [done |]); simpl;
    (split; [| done]); [done |].
  unfold tombstoned.
  destruct (_handler_to_timeouts s !! hid h) as [p |] eqn:Hp.
  - rewrite <- (insert_delete_eq (_handler_to_timeouts s)).
    rewrite <- (length_insert (_timeouts s) (Z.to_nat p) None).
    apply coherent_at_append with (off := _timeout_offset s);
      [| apply lookup_delete_eq].
    by apply coherent_at_tombstone.
  - by apply coherent_at_append with (off := _timeout_offset s).
Qed.

(** C7 (as amended). A request read in stage [HELLO] at the local role
    whose byte 1 is [CMD_CONNECT] = 1, whose remainder after the first three
    bytes parses as an address header, and for which the configured server
    resolves: the handler records the parsed address, sends exactly
    [05 00 00 01 00 00 00 00 10 10] to the local socket, queues the
    encryption of the request less its first three bytes for the upstream,
    and starts a non-blocking connect to the first address of the
    configured [server] and [server_port]: after the reply, and with
    nothing in between, the new socket is made non-blocking, gets
    [TCP_NODELAY], is connected, and is added to the poller for [ERR] and
    [OUT]; every other call made only closes a socket or updates the
    poller.  The handler's socket is registered with a server whose timeout
    index is coherent. *)
Theorem connect_request e h s l data addrtype ra rp hl :
  coherent s → sockets_registered h s →
  _is_local h = true → _stage h = STAGE_HELLO → _local_sock h = Some l →
  recv e = Recv data → ord <$> data !! 1%nat = Some CMD_CONNECT →
  parse_header (drop 3 data) = Some (addrtype, ra, rp, hl) →
  getaddrinfo e (config_server s) (config_server_port s) ≠ [] →
  let r := on_local_read e (h, s) in
  r.2 = Ok tt ∧ _remote_address r.1.1 = Some (ra, rp) ∧
  _stage r.1.1 = STAGE_REPLY ∧ connect_handled e h s l data r.1.
Proof.
  intros Hco (Hl & Hr & Hlr) Hrole Hstage Hlocal Hrecv Hcmd Hparse Hgai.
  destruct (data !! 1%nat) as [c |] eqn:Hc; [| done].
  injection Hcmd as Hord.
  destruct (getaddrinfo e (config_server s) (config_server_port s))
    as [| [af sa] rest] eqn:Egai; [done |].
  destruct (update_activity_request (time_time e) h s Hco)
    as (h1 & s1 & Hupd & Ha1 & Hid1 & Hrole1 & Hlocal1 & Hremote1 & Hstage1
        & Henc1 & Hq1 & Hfd1 & Heff1 & Hcs1 & Hcp1).
  assert (Hreg1 : sockets_registered h1 s1).
  { unfold sockets_registered. rewrite Hlocal1, Hremote1, Hfd1, Hid1. done. }
  rewrite <- Hcs1, <- Hcp1 in Egai. rewrite Hlocal in Hlocal1.
  pose proof (connect_request_run e h1 s1 l data c addrtype ra rp hl af sa
                rest Hlocal1 Hreg1 Ha1 Hc Hord Hparse Egai)
    as (Hok & Haddr & Hst & Hsends & Hq & Hrs & Hcalls).
  cbn zeta in *.
  assert (Hrun : on_local_read e (h, s) = on_local_read_try e true data (h1, s1)).
  { unfold on_local_read. munfold. rewrite Hupd. cbn [fst snd].
    rewrite Hlocal1, Hrecv, Hrole1, Hrole.
    destruct data as [| b data]; [done |]. cbn [is_empty negb andb].
    cbn [fst snd]. rewrite Hstage1, Hstage.
    change (STAGE_HELLO =? STAGE_STREAM)%Z with false.
    change (STAGE_HELLO =? STAGE_INIT)%Z with false.
    change (STAGE_HELLO =? STAGE_REPLY)%Z with false.
    change (STAGE_HELLO =? STAGE_HELLO)%Z with true.
    cbn [andb orb negb].
    destruct (on_local_read_try e true (b :: data) (h1, s1))
      as [st' [[] | ?]]; [done | done]. }
  rewrite Hrun. split; [done |]. split; [done |]. split; [done |].
  unfold connect_handled. rewrite Haddr, Hsends, Hq, Heff1, Hq1, Henc1.
  split; [done |]. split; [done |]. split; [done |].
  exists af, sa, rest. rewrite <- Hcs1, <- Hcp1.
  rewrite Heff1 in Hcalls. done.
Qed.

(** ** C8: when the sweeper runs *)

#[local] Instance last_time_kept_preorder : PreOrder last_time_kept.
Proof.
  split; [by intros w |].
  intros a b c H1 H2. unfold last_time_kept in *. congruence.
Qed.

Lemma with_handler_last_time {A} k (m : M hstate A) :
  stable server_kept m → stable last_time_kept (with_handler k m).
Proof.
  intros Hm w. unfold with_handler, last_time_kept.
  destruct (heap w !! k) as [h |]; [| done].
  specialize (Hm (h, srv w)). destruct (m (h, srv w)) as [[h' s'] r].
  by destruct Hm as (? & _).
Qed.

Lemma dispatch_last_time ev : stable last_time_kept (dispatch ev).
Proof.
  unfold dispatch.
  apply (stable_bind last_time_kept); [apply (stable_gets last_time_kept) |].
  intros w. repeat case_match;
    try apply (stable_ret last_time_kept);
    try apply (stable_raise last_time_kept).
  - apply (stable_bind last_time_kept);
      [by apply (stable_modify last_time_kept) |].
    intros _. apply with_handler_last_time, handler_init_server_kept.
  - apply with_handler_last_time, handle_event_server_kept.
Qed.

Lemma dispatch_all_last_time events :
  stable last_time_kept (dispatch_all events).
Proof.
  induction events as [| ev events IH]; simpl.
  - apply (stable_ret last_time_kept).
  - apply (stable_bind last_time_kept); [apply dispatch_last_time | done].
Qed.

Lemma Qltb_true_iff x y : Qltb x y = true ↔ (x < y)%Q.
Proof.
  unfold Qltb. rewrite negb_true_iff, <- not_true_iff_false, Qle_bool_iff.
  split; [apply Qnot_le_lt | apply Qlt_not_le].
Qed.

(** C8 (as amended). After a batch of events has been processed,
    [_handle_events] runs the timeout sweeper and sets [_last_time] to the
    time it has read if and only if that time is strictly more than
    [TIMEOUT_PRECISION] = 4 seconds after [_last_time]; the callbacks of the
    batch leave [_last_time] as it was, and with exactly four seconds gone
    nothing is swept. *)
Theorem sweeper_trigger_strict : sweeper_trigger advanced_more_than.
Proof.
  intros events now now_sweep w batch Hok.
  pose proof (dispatch_all_last_time events w) as Hkept.
  unfold last_time_kept in Hkept. fold batch in Hkept.
  assert (Hrun : _handle_events events now now_sweep w =
                 if Qltb (inject_Z TIMEOUT_PRECISION)
                      (now - _last_time (srv w))
                 then sweep_and_stamp now now_sweep batch.1 else batch).
  { unfold _handle_events, sweep_and_stamp, mbind, M_bind, gets.
    fold batch. destruct batch as [w' [[] | e]]; [| done].
    simpl in *. rewrite Hkept. by destruct (Qltb _ _). }
  rewrite Hrun. unfold advanced_more_than.
  destruct (Qltb _ _) eqn:Hq.
  - apply Qltb_true_iff in Hq. split; [done |]. by intros [].
  - split; [| done]. intros Hlt. apply Qltb_true_iff in Hlt. congruence.
Qed.

(** ** The example states satisfy what the theorems ask *)

Lemma streaming_server_coherent b : coherent (streaming_server b).
Proof.
  split_coherent; simpl.
  - intros k p H. apply lookup_singleton_Some in H as [<- <-]. done.
  - intros [| i] k H; simplify_eq/=. done.
  - lia.
  - intros i Hi. lia.
Qed.

Lemma streaming_handler_registered c b :
  sockets_registered (streaming_handler c b) (streaming_server b).
Proof.
  split; [| split]; simpl.
  - by intros sock [= <-].
  - by intros sock [= <-].
  - by intros l r [= <-] [= <-].
Qed.

Lemma connecting_handler_registered c b :
  sockets_registered (connecting_handler c b) (streaming_server b).
Proof. apply (streaming_handler_registered c b). Qed.

Lemma streaming_world_ready c b : sweep_ready (streaming_world c b).
Proof.
  split; [| split; [| split]].
  - intros k h H. simpl in H. apply lookup_singleton_Some in H as [<- <-]. done.
  - apply streaming_server_coherent.
  - intros k h H. simpl in H. apply lookup_singleton_Some in H as [<- <-].
    apply streaming_handler_registered.
  - intros [| i] k H; simplify_eq/=. by eexists.
Qed.

Lemma one_handler_registered c b :
  sockets_registered (new_handler c 0 (sample_socket 5) b)
    (srv (one_handler_world c b)).
Proof.
  split; [| split]; simpl; [| done | done]. by intros sock [= <-].
Qed.

Lemma two_handler_world_ok c a0 a1 :
  timeout_index_ok (two_handler_world c a0 a1).
Proof.
  split; [| split; [| split]].
  - intros k h H. simpl in H.
    apply lookup_insert_Some in H as [[<- <-] | [_ H]]; [done |].
    apply lookup_singleton_Some in H as [<- <-]. done.
  - intros k p H. simpl in H.
    apply lookup_insert_Some in H as [[<- <-] | [_ H]]; [done |].
    apply lookup_singleton_Some in H as [<- <-]. done.
  - intros [| [| i]] k H; simplify_eq/=; done.
  - split; [simpl; lia | intros i Hi; simpl in Hi; lia].
Qed.

Lemma compaction_world_ready c : sweep_ready (compaction_world c).
Proof.
  assert (Hts : _timeouts (srv (compaction_world c))
                = replicate 513 None ++ [Some 0]) by done.
  assert (Hix : _handler_to_timeouts (srv (compaction_world c))
                = {[ 0 := 513%Z ]}) by done.
  assert (Hheap : heap (compaction_world c)
                  = {[ 0 := streaming_handler c true ]}) by done.
  assert (Hentry : ∀ i k,
            (replicate 513 None ++ [Some 0]) !! i = Some (Some k) →
            i = 513 ∧ k = 0).
  { intros i k H. apply lookup_app_Some in H as [H | [Hge H]].
    - apply lookup_replicate in H as [? _]. done.
    - rewrite length_replicate in *.
      apply list_lookup_singleton_Some in H as [Hi [= <-]]. lia. }
  split; [| split; [| split]].
  - intros k h H. rewrite Hheap in H.
    apply lookup_singleton_Some in H as [<- <-]. done.
  - unfold coherent. rewrite Hts, Hix. split_coherent.
    + intros k p H. apply lookup_singleton_Some in H as [<- <-].
      split; [lia |]. rewrite lookup_app_r; rewrite length_replicate; done.
    + intros i k H. apply Hentry in H as [-> ->]. done.
    + rewrite length_app, length_replicate.
      change (_timeout_offset (srv (compaction_world c))) with 0. lia.
    + change (_timeout_offset (srv (compaction_world c))) with 0.
      intros i Hi. lia.
  - intros k h H. rewrite Hheap in H.
    apply lookup_singleton_Some in H as [<- <-].
    apply streaming_handler_registered.
  - intros i k H. rewrite Hts in H. apply Hentry in H as [-> ->].
    rewrite Hheap. by eexists.
Qed.

(** ** Callbacks keep the state of the dispatcher and do not raise *)

Lemma triple_ret {S A} (P E : S → Prop) (a : A) : triple P (mret a) P E.
Proof. by intros s H. Qed.

Lemma triple_gets {S A} (P E : S → Prop) (f : S → A) : triple P (gets f) P E.
Proof. by intros s H. Qed.

Lemma triple_raise {S A} (P Q : S → Prop) e :
  triple P (raise e : M S A) Q P.
Proof. by intros s H. Qed.

Lemma triple_bind {S A B} (P Q' Q E : S → Prop) (m : M S A) (k : A → M S B) :
  triple P m Q' E → (∀ a, triple Q' (k a) Q E) → triple P (m ≫= k) Q E.
Proof.
  intros Hm Hk s HP. specialize (Hm s HP). unfold mbind, M_bind.
  destruct (m s) as [s' [a | e]]; simpl in *; [by apply Hk | done].
Qed.

Lemma triple_try {S A} (P Q E E' : S → Prop) (m : M S A) handler :
  triple P m Q E' → (∀ e, triple E' (handler e) Q E) →
  triple P (try_except m handler) Q E.
Proof.
  intros Hm Hh s HP. specialize (Hm s HP). unfold try_except.
  destruct (m s) as [s' [a | e]]; simpl in *; [done | by apply Hh].
Qed.

Lemma triple_conseq {S A} (P P' Q Q' E E' : S → Prop) (m : M S A) :
  triple P m Q E → (∀ s, P' s → P s) → (∀ s, Q s → Q' s) →
  (∀ s, E s → E' s) → triple P' m Q' E'.
Proof.
  intros Hm HP HQ HE s Hs. specialize (Hm s (HP s Hs)).
  destruct (m s).2; auto.
Qed.

Lemma triple_gets_bind {S A B} (P Q E : S → Prop) (f : S → A)
    (k : A → M S B) :
  (∀ s0, P s0 → triple (λ s, s = s0) (k (f s0)) Q E) →
  triple P (gets f ≫= k) Q E.
Proof. intros H s HP. exact (H s HP s eq_refl). Qed.

Lemma triple_when {S} (P E : S → Prop) (b : bool) (m : M S unit) :
  triple P m P E → triple P (when b m) P E.
Proof. intros Hm. destruct b; [done | apply triple_ret]. Qed.

(** A computation that is safe may stand inside a [try] as well. *)
Lemma safe_keeps k known pinned {A} (m : M hstate A) E :
  safe k known pinned m →
  triple (handler_ready k known pinned) m (handler_ready k known pinned) E.
Proof. intros Hm. eapply triple_conseq; [exact Hm | done | done | done]. Qed.

Lemma safe_try k known pinned {A} (m : M hstate A) handler :
  safe k known pinned m → safe k known pinned (try_except m handler).
Proof.
  intros Hm s HP. specialize (Hm s HP). unfold try_except.
  by destruct (m s) as [s' [a | e]].
Qed.

Lemma safe_ret k known pinned {A} (a : A) : safe k known pinned (mret a).
Proof. apply triple_ret. Qed.

Lemma safe_gets k known pinned {A} (f : hstate → A) :
  safe k known pinned (gets f).
Proof. apply triple_gets. Qed.

Lemma safe_bind k known pinned {A B} (m : M hstate A) (f : A → M hstate B) :
  safe k known pinned m → (∀ a, safe k known pinned (f a)) →
  safe k known pinned (m ≫= f).
Proof. apply triple_bind. Qed.

Lemma safe_when k known pinned (b : bool) (m : M hstate unit) :
  safe k known pinned m → safe k known pinned (when b m).
Proof. apply triple_when. Qed.

Create HintDb safe discriminated.

(** Decompose a computation along its syntax, as for [stable]. *)
Ltac safe_leaf :=
  intros [? ?] (? & ? & ? & ? & ? & ? & ?);
  unfold modify_self, modify_server, emit, cipher_encrypt, cipher_decrypt,
    modify in *;
  simpl; repeat case_match; simplify_eq/=;
  unfold handler_ready, coherent, sockets_registered in *; simpl in *; done.

Ltac safe_step :=
  lazymatch goal with
  | |- safe _ _ _ _ =>
    first
      [ solve [auto 1 with safe nocore]
      | apply safe_ret
      | apply safe_gets
      | apply safe_bind; [| intros ?]
      | apply safe_try
      | apply safe_when
      | lazymatch goal with
        | |- safe _ _ _ (if ?b then _ else _) => destruct b
        | |- safe _ _ _ (match ?x with _ => _ end) => destruct x
        end
      | solve [safe_leaf] ]
  end.

Ltac safe_auto := unfold self, server_of; repeat safe_step.

Lemma tombstoned_entry k s i k' :
  tombstoned k s !! i = Some (Some k') → _timeouts s !! i = Some (Some k').
Proof.
  unfold tombstoned. destruct (_handler_to_timeouts s !! k) as [p |]; [| done].
  intros H. destruct (decide (i = Z.to_nat p)) as [-> | Hne].
  - apply list_lookup_insert_Some in H as [(_ & ? & _) | (? & _)]; done.
  - by rewrite list_lookup_insert_ne in H.
Qed.

Lemma coherent_refresh k s :
  coherent s →
  coherent_at (tombstoned k s ++ [Some k])
    (<[k := Z.of_nat (length (_timeouts s))]> (_handler_to_timeouts s))
    (_timeout_offset s).
Proof.
  intros Hco. unfold tombstoned.
  destruct (_handler_to_timeouts s !! k) as [p |] eqn:Hp.
  - rewrite <- (insert_delete_eq (_handler_to_timeouts s)).
    rewrite <- (length_insert (_timeouts s) (Z.to_nat p) None).
    apply coherent_at_append; [| apply lookup_delete_eq].
    by apply coherent_at_tombstone.
  - by apply coherent_at_append.
Qed.

Lemma coherent_unindexed k s : coherent s → coherent (unindexed k s).
Proof.
  intros Hco. unfold unindexed, coherent.
  destruct (_handler_to_timeouts s !! k) as [p |] eqn:Hp; [| done].
  simpl. by apply coherent_at_tombstone.
Qed.

Lemma unindexed_entry k s i k' :
  _timeouts (unindexed k s) !! i = Some (Some k') →
  _timeouts s !! i = Some (Some k').
Proof.
  unfold unindexed.
  destruct (_handler_to_timeouts s !! k) as [p |] eqn:Hp; [| done].
  simpl. intros H. destruct (decide (i = Z.to_nat p)) as [-> | Hne].
  - apply list_lookup_insert_Some in H as [(_ & ? & _) | (? & _)]; done.
  - by rewrite list_lookup_insert_ne in H.
Qed.

Lemma update_activity_safe k known pinned t :
  safe k known pinned (update_activity t).
Proof.
  intros [h s] (Hid & Hk & Hco & Hreg & Hknown & Hfds & Hpin). simpl in *.
  rewrite update_activity_eq by apply Hco.
  destruct (_ <? _)%Z; simpl; [done |].
  split; [done |]. split; [done |].
  split; [| split; [done | split; [| done]]].
  - unfold coherent. simpl. by apply coherent_refresh.
  - simpl. intros i k' H. apply lookup_app_Some in H as [H | [_ H]].
    + eapply Hknown, tombstoned_entry, H.
    + apply list_lookup_singleton_Some in H as [_ [= <-]]. by rewrite Hid.
Qed.
#[local] Hint Resolve update_activity_safe : safe.

Lemma destroy_safe k known pinned : safe k known pinned destroy.
Proof.
  intros [h s] (Hid & Hk & Hco & Hreg & Hknown & Hfds & Hpin). simpl in *.
  rewrite destroy_eq by (done || apply Hco). simpl.
  unfold destroy_result.
  split; [done |]. split; [done |]. split; [| split; [| split; [| split]]].
  - simpl. by apply coherent_unindexed.
  - simpl. by split; [| split].
  - simpl. intros i k' H. apply unindexed_entry in H. by eapply Hknown.
  - simpl. intros fd k'. rewrite unindexed_fd_to_handlers. simpl.
    intros H. apply (Hfds fd).
    destruct (_local_sock h), (_remote_sock h); simpl in H;
      repeat (apply lookup_delete_Some in H as [_ H]); done.
  - simpl. intros fd v Hfd. destruct (Hpin fd v Hfd) as [Hv Hlook].
    split; [done |]. rewrite unindexed_fd_to_handlers. simpl.
    destruct Hreg as (Hl & Hr & _).
    rewrite !unregister_lookup_other; [done | |].
    + intros sock Hs <-. rewrite (Hr _ Hs), Hid in Hlook. congruence.
    + intros sock Hs <-. rewrite (Hl _ Hs), Hid in Hlook. congruence.
Qed.
#[local] Hint Resolve destroy_safe : safe.

Lemma update_stream_safe k known pinned stream status :
  safe k known pinned (update_stream stream status).
Proof. unfold update_stream. safe_auto. Qed.
#[local] Hint Resolve update_stream_safe : safe.

Lemma write_to_sock_safe k known pinned sent data sock :
  safe k known pinned (write_to_sock sent data sock).
Proof. unfold write_to_sock. safe_auto. Qed.
#[local] Hint Resolve write_to_sock_safe : safe.

Lemma on_local_write_safe k known pinned e :
  safe k known pinned (on_local_write e).
Proof. unfold on_local_write. safe_auto. Qed.
#[local] Hint Resolve on_local_write_safe : safe.

Lemma on_remote_write_safe k known pinned e :
  safe k known pinned (on_remote_write e).
Proof. unfold on_remote_write. safe_auto. Qed.
#[local] Hint Resolve on_remote_write_safe : safe.

Lemma handler_ready_weaken k known (pinned pinned' : Z → option nat → Prop) st :
  (∀ fd v, pinned' fd v → pinned fd v) →
  handler_ready k known pinned st → handler_ready k known pinned' st.
Proof.
  intros Hsub (? & ? & ? & ? & ? & ? & Hpin).
  repeat (split; [done |]). intros fd v Hfd. by apply Hpin, Hsub.
Qed.

Lemma safe_weaken k known (pinned pinned' : Z → option nat → Prop) {A}
    (m : M hstate A) E :
  (∀ fd v, pinned' fd v → pinned fd v) →
  safe k known pinned m →
  triple (handler_ready k known pinned) m (handler_ready k known pinned') E.
Proof.
  intros Hsub Hm. eapply triple_conseq; [exact Hm | done | | done].
  intros st. by apply handler_ready_weaken.
Qed.

Lemma raise_weaken k known (pinned pinned' : Z → option nat → Prop) {A} e Q :
  (∀ fd v, pinned' fd v → pinned fd v) →
  triple (handler_ready k known pinned) (raise e : M hstate A) Q
    (handler_ready k known pinned').
Proof.
  intros Hsub. eapply triple_conseq; [apply triple_raise | done | done |].
  intros st. by apply handler_ready_weaken.
Qed.

Lemma pinned_besides_sub e pinned fd v :
  pinned_besides e pinned fd v → pinned fd v.
Proof. by intros [? _]. Qed.

(** The tail of the connect path, from the assignment of [_remote_sock]:
    the new socket takes a descriptor that was not in use. *)
Lemma connect_tail_ready k known pinned e af sa E :
  (∀ af, pinned (fileno (socket_socket e af)) None) →
  let remote_sock := socket_socket e af in
  triple (handler_ready k known pinned)
    (modify_self (set_remote_sock (Some remote_sock));;
     h ← self;
     modify_server (λ s, set_fd_to_handlers
                           (<[fileno remote_sock := hid h]> (_fd_to_handlers s)) s);;
     emit (SockSetBlocking remote_sock false);;
     emit (SockNoDelay remote_sock);;
     emit (SockConnect remote_sock sa);;
     emit (LoopAdd remote_sock (Z.lor POLL_ERR POLL_OUT));;
     modify_self (set_stage STAGE_REPLY);;
     update_stream STREAM_UP WAIT_STATUS_READWRITING;;
     update_stream STREAM_DOWN WAIT_STATUS_READING)
    (handler_ready k known (pinned_besides e pinned)) E.
Proof.
  intros Hfree r [h s]
    (Hid & Hk & Hco & (Hl & Hr & Hlr) & Hknown & Hfds & Hpin).
  simpl in *.
  assert (Hnone : _fd_to_handlers s !! fileno r = None)
    by (by destruct (Hpin _ _ (Hfree af))).
  pose (rest := (emit (SockSetBlocking r false);;
                 emit (SockNoDelay r);;
                 emit (SockConnect r sa);;
                 emit (LoopAdd r (Z.lor POLL_ERR POLL_OUT));;
                 modify_self (set_stage STAGE_REPLY);;
                 update_stream STREAM_UP WAIT_STATUS_READWRITING;;
                 update_stream STREAM_DOWN WAIT_STATUS_READING) : M hstate unit).
  assert (Hrest : safe k known (pinned_besides e pinned) rest)
    by (unfold rest; safe_auto).
  pose (st' := (set_remote_sock (Some r) h,
                set_fd_to_handlers
                  (<[fileno r := hid h]> (_fd_to_handlers s)) s)).
  assert (Hinv' : handler_ready k known (pinned_besides e pinned) st').
  { unfold st'. split; [done |]. split; [done |]. split; [done |].
    split; [| split; [done | split]].
    - split; [| split]; simpl.
      + intros sock Hs. rewrite lookup_insert_ne; [by apply Hl |].
        intros Heq. rewrite Heq, (Hl _ Hs) in Hnone. done.
      + intros sock [= <-]. by rewrite lookup_insert_eq.
      + intros l r' Hs [= <-] Heq. rewrite <- Heq, (Hl _ Hs) in Hnone. done.
    - simpl. intros fd k' H.
      apply lookup_insert_Some in H as [[_ <-] | [_ H]];
        [by rewrite Hid | by eapply Hfds].
    - simpl. intros fd v [Hfd Hne]. destruct (Hpin _ _ Hfd) as [? ?].
      split; [done |]. rewrite lookup_insert_ne; [done |].
      apply not_eq_sym, Hne. }
  specialize (Hrest st' Hinv').
  change (match (rest st').2 with
          | Ok _ => handler_ready k known (pinned_besides e pinned) (rest st').1
          | Raise _ => E (rest st').1
          end).
  by destruct (rest st') as [st2 [[] | err]].
Qed.

Lemma on_local_read_connect_ready k known pinned e b data :
  (∀ af, pinned (fileno (socket_socket e af)) None) →
  triple (handler_ready k known pinned) (on_local_read_connect e b data)
    (handler_ready k known (pinned_besides e pinned))
    (handler_ready k known (pinned_besides e pinned)).
Proof.
  intros Hfree. unfold on_local_read_connect.
  destruct (parse_header data) as [[[[addrtype ra] rp] hl] |];
    [| apply raise_weaken, pinned_besides_sub].
  eapply triple_bind; [apply safe_keeps; safe_auto |]. intros _.
  eapply triple_bind; [apply safe_keeps; safe_auto |]. intros [ra' rp'].
  destruct (getaddrinfo e ra' rp') as [| [af sa] ?];
    [apply raise_weaken, pinned_besides_sub |].
  by apply connect_tail_ready.
Qed.

Lemma on_local_read_try_ready k known pinned e b data :
  (∀ af, pinned (fileno (socket_socket e af)) None) →
  triple (handler_ready k known pinned) (on_local_read_try e b data)
    (handler_ready k known (pinned_besides e pinned))
    (handler_ready k known (pinned_besides e pinned)).
Proof.
  intros Hfree. unfold on_local_read_try.
  destruct b; [| by apply on_local_read_connect_ready].
  destruct (data !! 1%nat) as [c |];
    [| apply raise_weaken, pinned_besides_sub].
  cbn zeta. destruct (ord c =? CMD_UDP_ASSOCIATE)%Z.
  - unfold self. eapply triple_bind; [apply safe_keeps, safe_gets |].
    intros h. destruct (_local_sock h) as [local_sock |];
      [| apply raise_weaken, pinned_besides_sub].
    destruct (family local_sock); [| apply raise_weaken, pinned_besides_sub].
    destruct (getsockname e) as [addr port].
    apply safe_weaken; [apply pinned_besides_sub | safe_auto].
  - destruct (ord c =? CMD_CONNECT)%Z.
    + by apply on_local_read_connect_ready.
    + apply safe_weaken; [apply pinned_besides_sub | safe_auto].
Qed.

Lemma on_local_read_ready k known pinned e :
  (∀ af, pinned (fileno (socket_socket e af)) None) →
  triple (handler_ready k known pinned) (on_local_read e)
    (handler_ready k known (pinned_besides e pinned)) (λ _, False).
Proof.
  intros Hfree. unfold on_local_read.
  eapply triple_bind; [apply update_activity_safe |]. intros _.
  unfold self. eapply triple_bind; [apply safe_gets |]. intros h.
  destruct (_local_sock h);
    [| apply safe_weaken; [apply pinned_besides_sub | safe_auto]].
  cbn zeta. destruct (recv e) as [data | err].
  2: { apply safe_weaken; [apply pinned_besides_sub |].
       destruct err; safe_auto. }
  destruct (is_empty data).
  { apply safe_weaken; [apply pinned_besides_sub | safe_auto]. }
  eapply triple_bind; [apply safe_keeps; safe_auto |]. intros data'.
  destruct (negb (_is_local h) && is_empty data').
  { apply safe_weaken; [apply pinned_besides_sub | safe_auto]. }
  eapply triple_bind; [apply safe_gets |]. intros h2.
  destruct (_stage h2 =? STAGE_STREAM)%Z.
  { apply safe_weaken; [apply pinned_besides_sub | safe_auto]. }
  destruct (_is_local h && (_stage h2 =? STAGE_INIT)%Z).
  { apply safe_weaken; [apply pinned_besides_sub | safe_auto]. }
  destruct (_stage h2 =? STAGE_REPLY)%Z.
  { apply safe_weaken; [apply pinned_besides_sub | safe_auto]. }
  destruct (_ || _).
  - eapply triple_try; [by apply on_local_read_try_ready |].
    intros _. apply destroy_safe.
  - apply safe_weaken; [apply pinned_besides_sub | safe_auto].
Qed.

Lemma on_remote_read_ready k known pinned e :
  triple (λ st, handler_ready k known pinned st ∧ _remote_sock st.1 ≠ None)
    (on_remote_read e) (handler_ready k known pinned) (λ _, False).
Proof.
  unfold on_remote_read.
  eapply (triple_bind _
    (λ st, handler_ready k known pinned st ∧ _remote_sock st.1 ≠ None)).
  { intros [h s] [Hinv Hr].
    pose proof (update_activity_safe k known pinned (time_time e) (h, s) Hinv)
      as Hs.
    pose proof Hinv as (_ & _ & Hco & _). simpl in Hco.
    rewrite update_activity_eq in * by apply Hco.
    cbn [fst snd] in *. split; [done |]. by destruct (_ <? _)%Z. }
  intros _. unfold self. apply triple_gets_bind. intros [h s] [Hinv Hr].
  cbn [fst snd] in *. destruct (_remote_sock h) as [r |]; [| done].
  apply (triple_conseq (handler_ready k known pinned) _
           (handler_ready k known pinned) _ (λ _, False));
    [| by intros ? -> | done | done].
  change (safe k known pinned
            match recv e with
            | Recv data =>
              if is_empty data then destroy else
              data ← (if _is_local h then cipher_decrypt data
                      else cipher_encrypt data);
              try_except
                (h ← gets fst; write_to_sock (send e) data (_local_sock h))
                (λ _, destroy)
            | RecvError ETIMEDOUT | RecvError EAGAIN => mret tt
            | RecvError _ => destroy
            end).
  safe_auto.
Qed.

Lemma ret_from k known (pinned pinned' : Z → option nat → Prop) st0 :
  (∀ fd v, pinned' fd v → pinned fd v) →
  handler_ready k known pinned st0 →
  triple (λ st, st = st0) (mret tt) (handler_ready k known pinned')
    (λ _, False).
Proof. intros Hsub Hinv st ->. simpl. by eapply handler_ready_weaken. Qed.

Lemma handle_event_ready k known pinned ein eout sock event :
  (∀ af, pinned (fileno (socket_socket ein af)) None) →
  triple (handler_ready k known pinned) (handle_event ein eout sock event)
    (handler_ready k known (pinned_besides ein pinned)) (λ _, False).
Proof.
  intros Hfree. unfold handle_event, self, on_remote_error, on_local_error.
  apply triple_gets_bind. intros [h s] Hinv. cbn [fst].
  case_bool_decide as Hr; [| case_bool_decide as Hl].
  - eapply (triple_bind _ (handler_ready k known pinned)).
    + unfold when. destruct (has_bits event POLL_IN).
      * eapply triple_conseq; [apply on_remote_read_ready | | done | done].
        intros ? ->. split; [done |]. simpl. by rewrite <- Hr.
      * by apply (ret_from k known pinned pinned).
    + intros _. apply safe_weaken; [apply pinned_besides_sub | safe_auto].
  - eapply (triple_bind _ (handler_ready k known (pinned_besides ein pinned))).
    + unfold when. destruct (has_bits event POLL_IN).
      * eapply triple_conseq;
          [by apply on_local_read_ready | by intros ? -> | done | done].
      * apply (ret_from k known pinned); [apply pinned_besides_sub | done].
    + intros _.
      change (safe k known (pinned_besides ein pinned)
                (when (has_bits event POLL_OUT) (on_local_write eout);;
                 when (has_bits event POLL_ERR) destroy)).
      safe_auto.
  - apply (ret_from k known pinned); [apply pinned_besides_sub | done].
Qed.

(** ** The dispatcher keeps its state *)

Lemma foreign_registered w k fd v :
  heap_ok w →
  (∀ k' h', heap w !! k' = Some h' → k' ≠ k →
     sockets_registered h' (srv w)) →
  foreign w k fd v → v ≠ Some k ∧ _fd_to_handlers (srv w) !! fd = v.
Proof.
  intros Hheap Hreg (k' & h' & sock & -> & Hne & Hk' & Hsock & <-).
  split; [congruence |].
  destruct (Hreg _ _ Hk' Hne) as (Hl & Hr & _).
  rewrite <- (Hheap _ _ Hk'). destruct Hsock; [by apply Hl | by apply Hr].
Qed.

(** A method that leaves its handler ready leaves the dispatcher ready. *)
Lemma with_handler_ready k (m : M hstate unit)
    (pinned : Z → option nat → Prop) w h :
  heap_ok w → (∀ j, next_id w ≤ j → heap w !! j = None) →
  (∀ k' h', heap w !! k' = Some h' → k' ≠ k →
     sockets_registered h' (srv w)) →
  heap w !! k = Some h →
  (∀ fd v, foreign w k fd v → pinned fd v) →
  triple (λ st, st = (h, srv w)) m (handler_ready k (allocated w) pinned)
    (λ _, False) →
  (with_handler k m w).2 = Ok tt ∧ dispatcher_ready (with_handler k m w).1.
Proof.
  intros Hheap Hfresh Hothers Hk Hforeign Hm.
  rewrite (with_handler_run _ _ _ _ Hk). specialize (Hm _ eq_refl).
  destruct (m (h, srv w)) as [[h' s'] [[] | err]]; simpl in *; [| done].
  destruct Hm as (Hid & _ & Hco & Hreg & Hknown & Hfds & Hpin).
  simpl in *. split; [done |].
  assert (Hdom : ∀ j, is_Some (heap w !! j) → is_Some (<[k := h']> (heap w) !! j)).
  { intros j Hj. destruct (decide (j = k)) as [-> | Hne].
    - rewrite lookup_insert_eq. by eexists.
    - by rewrite lookup_insert_ne. }
  split; [split; [| split; [| split]] | split].
  - by apply heap_ok_insert.
  - done.
  - intros j hj Hj. simpl in *.
    apply lookup_insert_Some in Hj as [[<- <-] | [Hne Hj]]; [done |].
    destruct (Hothers _ _ Hj) as (Hl & Hr & Hlr); [done |].
    assert (Hmine : ∀ sock,
              _local_sock hj = Some sock ∨ _remote_sock hj = Some sock →
              _fd_to_handlers s' !! fileno sock = Some (hid hj)).
    { intros sock Hsock.
      destruct (Hpin (fileno sock) (Some j)) as [_ Hlook].
      - apply Hforeign. exists j, hj, sock. by repeat split.
      - by rewrite (Hheap _ _ Hj). }
    split; [| split; [| done]]; intros sock Hs; apply Hmine; auto.
  - intros i j Hi. simpl in *. by apply Hdom, (Hknown i).
  - simpl. intros j Hj. rewrite lookup_insert_ne; [by apply Hfresh |].
    intros <-. rewrite Hfresh in Hk by done. done.
  - simpl. intros fd j Hj. by apply Hdom, (Hfds fd).
Qed.

Lemma handler_ready_in_world k w h (extra : Z → option nat → Prop) :
  dispatcher_ready w → heap w !! k = Some h →
  (∀ fd v, extra fd v → v = None ∧ _fd_to_handlers (srv w) !! fd = None) →
  handler_ready k (allocated w) (λ fd v, foreign w k fd v ∨ extra fd v)
    (h, srv w).
Proof.
  intros ((Hheap & Hco & Hreg & Hdang) & Hfresh & Hfds) Hk Hextra.
  split; [by apply Hheap |]. split; [by eexists |]. split; [done |].
  split; [by eapply Hreg |]. split; [done |]. split; [done |].
  intros fd v [Hf | He].
  - eapply foreign_registered; [done | | done].
    intros k' h' Hk' _. by eapply Hreg.
  - destruct (Hextra _ _ He) as [-> ?]. done.
Qed.

(** The statements of [TCPRelayHandler.__init__] on a new object, whose
    connection has a descriptor that is not in use. *)
Lemma handler_init_ready w c conn t :
  dispatcher_ready w → _fd_to_handlers (srv w) !! fileno conn = None →
  let k := next_id w in
  let w1 := {| srv := srv w;
               heap := <[k := new_handler c k conn (is_local (srv w))]>
                         (heap w);
               next_id := S k |} in
  (with_handler k (handler_init t) w1).2 = Ok tt ∧
  dispatcher_ready (with_handler k (handler_init t) w1).1.
Proof.
  intros ((Hheap & Hco & Hreg & Hdang) & Hfresh & Hfds) Hnone k w1.
  pose (h0 := new_handler c k conn (is_local (srv w))).
  assert (Hk : heap w !! k = None) by (by apply Hfresh).
  assert (Hold : ∀ j hj, heap w1 !! j = Some hj → j ≠ k →
                 heap w !! j = Some hj).
  { intros j hj Hj Hne. simpl in Hj. by rewrite lookup_insert_ne in Hj. }
  assert (Hallocated : ∀ j, is_Some (heap w !! j) → allocated w1 j).
  { intros j Hj. unfold allocated. simpl.
    destruct (decide (j = k)) as [-> | Hne].
    - rewrite lookup_insert_eq. by eexists.
    - by rewrite lookup_insert_ne. }
  apply (with_handler_ready k _ (foreign w1 k) w1 h0).
  - by apply heap_ok_insert.
  - simpl. intros j Hj. rewrite lookup_insert_ne by lia. apply Hfresh. lia.
  - intros j hj Hj Hne. simpl. eapply Hreg, Hold; done.
  - simpl. apply lookup_insert_eq.
  - done.
  - intros st ->.
    pose (rest := (emit (SockSetBlocking conn false);;
                   emit (SockNoDelay conn);;
                   emit (LoopAdd conn (Z.lor POLL_IN POLL_ERR));;
                   update_activity t) : M hstate unit).
    assert (Hrest : safe k (allocated w1) (foreign w1 k) rest)
      by (unfold rest; safe_auto).
    pose (st1 := (h0, set_fd_to_handlers
                        (<[fileno conn := k]> (_fd_to_handlers (srv w)))
                        (srv w))).
    assert (Hinv : handler_ready k (allocated w1) (foreign w1 k) st1).
    { split; [done |].
      split; [unfold allocated; simpl; rewrite lookup_insert_eq; by eexists |].
      split; [done |]. split; [| split; [| split]].
      - split; [| split]; simpl; [| done | done].
        intros sock [= <-]. apply lookup_insert_eq.
      - simpl. intros i j Hi. by eapply Hallocated, Hdang.
      - simpl. intros fd j Hj.
        apply lookup_insert_Some in Hj as [[_ <-] | [_ Hj]].
        + unfold allocated. simpl. rewrite lookup_insert_eq. by eexists.
        + by eapply Hallocated, Hfds.
      - intros fd v (j & hj & sock & -> & Hne & Hj & Hsock & <-).
        split; [congruence |]. simpl.
        apply Hold in Hj; [| done].
        destruct (Hreg _ _ Hj) as (Hl & Hr & _).
        assert (Hlook : _fd_to_handlers (srv w) !! fileno sock = Some j).
        { rewrite <- (Hheap _ _ Hj). destruct Hsock; [by apply Hl | by apply Hr]. }
        rewrite lookup_insert_ne; [done |].
        intros Heq. rewrite <- Heq, Hnone in Hlook. done. }
    specialize (Hrest st1 Hinv).
    change (match (rest st1).2 with
            | Ok _ => handler_ready k (allocated w1) (foreign w1 k) (rest st1).1
            | Raise _ => False
            end).
    exact Hrest.
Qed.

(** One event, well answered, leaves the dispatcher ready and raises
    nothing. *)
Lemma dispatch_ready ev w :
  dispatcher_ready w → event_ok ev w →
  (dispatch ev w).2 = Ok tt ∧ dispatcher_ready (dispatch ev w).1.
Proof.
  intros Hw Hev. unfold dispatch, event_ok in *.
  unfold mbind, M_bind, gets, modify. cbn [fst snd id].
  case_bool_decide as Hsrv.
  - destruct Hev as [Herr Hconn]. rewrite Herr.
    destruct (ev_accept ev) as [conn | err]; [| by split; [| exact Hw]].
    by apply handler_init_ready, Hconn.
  - destruct (ev_sock ev) as [sock |]; [| by split; [| exact Hw]].
    destruct (_fd_to_handlers (srv w) !! ev_fd ev) as [k |] eqn:Hfd;
      [| by split; [| exact Hw]].
    pose proof Hw as ((Hheap & Hco & Hreg & Hdang) & Hfresh & Hfds).
    destruct (Hfds _ _ Hfd) as [h Hk].
    pose (extra := λ (fd : Z) (v : option nat),
            v = None ∧ ∃ af, fd = fileno (socket_socket (ev_in ev) af)).
    apply (with_handler_ready k _
             (pinned_besides (ev_in ev)
                (λ fd v, foreign w k fd v ∨ extra fd v)) w h);
      try done.
    + intros k' h' Hk' _. by eapply Hreg.
    + intros fd v Hf. split; [by left |]. intros af ->.
      assert (Hothers : ∀ k' h', heap w !! k' = Some h' → k' ≠ k →
                sockets_registered h' (srv w))
        by (intros k' h' Hk' _; by eapply Hreg).
      destruct (foreign_registered w k _ _ Hheap Hothers Hf) as [_ Hlook].
      destruct Hf as (k' & _ & _ & -> & _). by rewrite Hev in Hlook.
    + eapply triple_conseq; [apply handle_event_ready | | done | done].
      * intros af. right. split; [done |]. by exists af.
      * intros st ->. apply handler_ready_in_world; [done | done |].
        intros fd v [-> [af ->]]. split; [done |]. apply Hev.
Qed.

Lemma dispatch_all_ready events : ∀ w,
  dispatcher_ready w → batch_ok events w →
  (dispatch_all events w).2 = Ok tt ∧
  dispatcher_ready (dispatch_all events w).1.
Proof.
  induction events as [| ev events IH]; intros w Hw Hok; [done |].
  destruct Hok as [Hev Hrest]. simpl.
  destruct (dispatch_ready ev w Hw Hev) as [Hr Hw1].
  unfold mbind, M_bind.
  destruct (dispatch ev w) as [w1 [[] | err]]; simpl in *; [| done].
  by apply IH.
Qed.

(** ** The sweeper leaves the dispatcher ready *)

#[local] Instance fds_shrink_preorder : PreOrder fds_shrink.
Proof.
  split; [by intros st fd k H |].
  intros a b c H1 H2 fd k H. by apply H1, H2.
Qed.

Ltac fds_shrink_leaf :=
  unfold fds_shrink; simpl; intros ? ? ?;
  repeat match goal with
         | H : delete _ _ !! _ = Some _ |- _ =>
             apply lookup_delete_Some in H as [_ H]
         end; done.

Lemma destroy_fds_shrink : stable fds_shrink destroy.
Proof. unfold destroy, remove_handler. stable_auto fds_shrink_leaf. Qed.

#[local] Instance heap_kept_preorder : PreOrder heap_kept.
Proof.
  split; [by intros w; split; [| split] |].
  intros a b c (H1 & H2 & H3) (H1' & H2' & H3').
  split; [congruence |]. split.
  - intros k. by rewrite H2', H2.
  - intros fd k H. by apply H3, H3'.
Qed.

Lemma with_handler_heap_kept {A} k (m : M hstate A) :
  stable fds_shrink m → stable heap_kept (with_handler k m).
Proof.
  intros Hm w. unfold with_handler.
  destruct (heap w !! k) as [h |] eqn:Hk; [| done].
  specialize (Hm (h, srv w)). destruct (m (h, srv w)) as [[h' s'] r].
  simpl in *. split; [done |]. split; [| done].
  intros j. simpl. destruct (decide (j = k)) as [-> | Hne].
  - rewrite lookup_insert_eq, Hk. by split; eexists.
  - by rewrite lookup_insert_ne.
Qed.

Lemma tombstone_heap_kept pos :
  stable heap_kept (in_server (timeouts_setitem pos None)).
Proof.
  intros w. unfold in_server, timeouts_setitem.
  by destruct (py_setitem _ _ _).
Qed.

Lemma sweep_loop_heap_kept now len fuel : ∀ pos,
  stable heap_kept (sweep_loop now len fuel pos).
Proof.
  induction fuel as [| fuel IH]; intros pos;
    [apply (stable_ret heap_kept) |].
  rewrite sweep_loop_S. destruct (pos <? len);
    [| apply (stable_ret heap_kept)].
  apply (stable_bind heap_kept); [apply (stable_gets heap_kept) |].
  intros w. destruct (_timeouts (srv w) !! pos) as [[k |] |];
    [| apply IH | apply (stable_raise heap_kept)].
  destruct (heap w !! k); [| apply (stable_raise heap_kept)].
  destruct (Qltb _ _); [apply (stable_ret heap_kept) |].
  apply (stable_bind heap_kept);
    [apply with_handler_heap_kept, destroy_fds_shrink |]. intros _.
  apply (stable_bind heap_kept); [apply tombstone_heap_kept |]. intros _.
  apply IH.
Qed.

Lemma _sweep_timeout_ready now w :
  dispatcher_ready w →
  (_sweep_timeout now w).2 = Ok tt ∧
  dispatcher_ready (_sweep_timeout now w).1.
Proof.
  intros ((Hheap & Hco & Hfds & Hdang) & Hfresh & Hknown).
  assert (Hinv : sweep_inv (_timeout_offset (srv w)) w) by done.
  unfold _sweep_timeout. munfold. cbn [fst snd id].
  destruct (_timeouts (srv w)) as [| e ts0] eqn:Ets; [done |].
  cbn [is_empty negb]. rewrite <- Ets in *.
  pose proof Hco as (_ & _ & Hc & _).
  destruct (sweep_loop_spec now
              (length (_timeouts (srv w)) - _timeout_offset (srv w))
              _ w Hinv) as (pos & w' & Hloop & Hinv' & Hw & Hf); [lia |].
  pose proof (sweep_loop_heap_kept now (length (_timeouts (srv w)))
                (length (_timeouts (srv w)) - _timeout_offset (srv w))
                (_timeout_offset (srv w)) w) as Hkept.
  rewrite Hloop in *. cbn [fst snd] in *.
  destruct Hkept as (Hnext & Hdom & Hmap).
  destruct Hinv' as (Hheap' & Hco' & Hfds' & Hdang').
  assert (Hfresh' : ∀ k, next_id w' ≤ k → heap w' !! k = None).
  { intros k Hk. rewrite Hnext in Hk. apply eq_None_not_Some.
    rewrite Hdom, Hfresh by done. by intros []. }
  assert (Hknown' : ∀ fd k, _fd_to_handlers (srv w') !! fd = Some k →
                            is_Some (heap w' !! k)).
  { intros fd k Hk. apply Hdom. by eapply Hknown, Hmap. }
  destruct (_ && _); unfold in_server; simpl.
  - split; [done |]. split; [split; [| split; [| split]] | done].
    + done.
    + by apply coherent_at_compact.
    + done.
    + intros i k Hi. simpl in Hi. rewrite lookup_drop in Hi. by eapply Hdang'.
  - done.
Qed.

(** X4. A batch of events never raises, and leaves the relay as it found
    it: from a state in which every heap cell holds the object of its
    identity, the timeout index is coherent, the sockets of every handler
    are registered under distinct descriptors, every queue entry and every
    registered descriptor refers to an object, and no identity from
    [next_id] on is in use, [_handle_events] returns normally and ends in
    such a state, whatever the sockets answer, with or without a sweep.
    The batch is one the operating system can deliver: no error on the
    listening socket, and a connection accepted or a socket created during
    a callback has a descriptor that is not in use. *)
Theorem _handle_events_ready events now now_sweep w :
  dispatcher_ready w → batch_ok events w →
  (_handle_events events now now_sweep w).2 = Ok tt ∧
  dispatcher_ready (_handle_events events now now_sweep w).1.
Proof.
  intros Hw Hok. destruct (dispatch_all_ready events w Hw Hok) as [Hr Hw1].
  unfold _handle_events, mbind, M_bind, gets.
  destruct (dispatch_all events w) as [w1 [[] | err]]; simpl in *; [| done].
  destruct (Qltb _ _); [| done].
  destruct (_sweep_timeout_ready now_sweep w1 Hw1) as [Hs Hw2].
  destruct (_sweep_timeout now_sweep w1) as [w2 [[] | err]]; simpl in *;
    [| done].
  unfold in_server, modify. simpl. done.
Qed.

(** ** Running the callbacks *)

Lemma refreshed_refl h : refreshed h h.
Proof. unfold refreshed. by destruct h. Qed.

(** [update_activity] on a coherent index: it returns, and touches the
    activity of the handler and the timeout structures only. *)
Lemma update_activity_run t h s :
  coherent s →
  ∃ h1 s1,
    update_activity t (h, s) = ((h1, s1), Ok tt) ∧ refreshed h h1 ∧
    coherent s1 ∧ _fd_to_handlers s1 = _fd_to_handlers s ∧
    effects s1 = effects s ∧ config_server s1 = config_server s ∧
    config_server_port s1 = config_server_port s ∧
    (∀ h', sockets_registered h' s → sockets_registered h' s1).
Proof.
  intros Hco. rewrite update_activity_eq by apply Hco.
  destruct (_ <? _)%Z; eexists _, _; (split; [done |]).
  - split; [apply refreshed_refl |]. done.
  - split; [done |].
    split; [unfold coherent; simpl; by apply coherent_refresh |]. done.
Qed.

Lemma on_local_read_eq e h s l (data : bytes) :
  coherent s → _local_sock h = Some l → recv e = Recv data → data ≠ [] →
  ∃ h1 s1,
    update_activity (time_time e) (h, s) = ((h1, s1), Ok tt) ∧
    on_local_read e (h, s) = on_local_read_data e (_is_local h) data (h1, s1) ∧
    refreshed h h1 ∧ coherent s1 ∧
    _fd_to_handlers s1 = _fd_to_handlers s ∧ effects s1 = effects s ∧
    config_server s1 = config_server s ∧
    config_server_port s1 = config_server_port s ∧
    (∀ h', sockets_registered h' s → sockets_registered h' s1).
Proof.
  intros Hco Hl Hrecv Hdata.
  destruct (update_activity_run (time_time e) h s Hco)
    as (h1 & s1 & Hupd & Hh1 & Hrest).
  exists h1, s1. split; [done |]. split; [| done].
  unfold on_local_read, mbind at 1, M_bind at 1. rewrite Hupd.
  unfold self, mbind at 1, M_bind at 1, gets. cbn [fst snd].
  rewrite Hh1. cbn [_local_sock set_last_activity _is_local].
  rewrite Hl, Hrecv. destruct data as [| b data]; [done |].
  cbn [is_empty]. rewrite <- Hh1. done.
Qed.

Lemma refreshed_fields h h1 :
  refreshed h h1 →
  hid h1 = hid h ∧ _is_local h1 = _is_local h ∧
  _local_sock h1 = _local_sock h ∧ _remote_sock h1 = _remote_sock h ∧
  _stage h1 = _stage h ∧ _encryptor h1 = _encryptor h ∧
  _data_to_write_to_local h1 = _data_to_write_to_local h ∧
  _data_to_write_to_remote h1 = _data_to_write_to_remote h ∧
  _upstream_status h1 = _upstream_status h ∧
  _downstream_status h1 = _downstream_status h ∧
  _remote_address h1 = _remote_address h.
Proof. intros ->. done. Qed.

Lemma refreshed_registered h h1 s :
  refreshed h h1 → sockets_registered h s → sockets_registered h1 s.
Proof. intros ->. done. Qed.

(** Destruction of a registered handler, as [destroyed_from] says it. *)
Lemma destroy_destroyed h s h1 s1 :
  refreshed h h1 → effects s1 = effects s →
  coherent s1 → sockets_registered h1 s1 →
  (destroy (h1, s1)).2 = Ok tt ∧ destroyed_from h s (destroy (h1, s1)).1 ∧
  _stage (destroy (h1, s1)).1.1 = _stage h.
Proof.
  intros Hh Heff Hco Hreg.
  destruct (refreshed_fields _ _ Hh)
    as (Hid & _ & Hl & Hr & Hst & _).
  rewrite destroy_eq by (done || apply Hco). cbn [fst snd].
  split; [done |]. split; [| by rewrite <- Hst].
  unfold destroyed_from, destroy_result. cbn [fst snd].
  split; [done |]. split; [| split].
  - rewrite unindexed_effects. simpl. by rewrite Heff, Hl, Hr.
  - rewrite <- Hid. apply unindexed_lookup.
  - intros sock Hsock. rewrite unindexed_fd_to_handlers. simpl.
    rewrite <- Hl, <- Hr in Hsock.
    destruct Hreg as (_ & _ & Hlr).
    destruct (_local_sock h1) as [a |], (_remote_sock h1) as [b |];
      simpl; destruct Hsock as [[= <-] | [= <-]];
      rewrite ?lookup_delete_eq; try done.
    rewrite lookup_delete_ne by (by apply (Hlr a b)).
    apply lookup_delete_eq.
Qed.

(** The read callback in stage [HELLO] at the local role. *)
Lemma on_local_read_hello e h s l (data : bytes) :
  coherent s → _is_local h = true → _stage h = STAGE_HELLO →
  _local_sock h = Some l → recv e = Recv data → data ≠ [] →
  ∃ h1 s1,
    on_local_read e (h, s) =
      try_except (on_local_read_try e true data) (λ _, destroy) (h1, s1) ∧
    refreshed h h1 ∧ coherent s1 ∧
    _fd_to_handlers s1 = _fd_to_handlers s ∧ effects s1 = effects s ∧
    config_server s1 = config_server s ∧
    config_server_port s1 = config_server_port s ∧
    (∀ h', sockets_registered h' s → sockets_registered h' s1).
Proof.
  intros Hco Hrole Hstage Hl Hrecv Hdata.
  destruct (on_local_read_eq e h s l data Hco Hl Hrecv Hdata)
    as (h1 & s1 & _ & Hrun & Hh1 & Hrest).
  exists h1, s1. split; [| done]. rewrite Hrun, Hrole.
  destruct (refreshed_fields _ _ Hh1) as (_ & _ & _ & _ & Hst & _).
  unfold on_local_read_data, self, mbind, M_bind, mret, M_ret, gets.
  cbn [negb andb fst snd]. rewrite Hst, Hstage.
  change (STAGE_HELLO =? STAGE_STREAM)%Z with false.
  change (STAGE_HELLO =? STAGE_INIT)%Z with false.
  change (STAGE_HELLO =? STAGE_REPLY)%Z with false.
  change (STAGE_HELLO =? STAGE_HELLO)%Z with true.
  done.
Qed.

(** X3. A request that the local role does not serve, read in stage
    [HELLO]: a request of one byte, a command other than CONNECT and UDP
    ASSOCIATE (BIND among them), or a CONNECT whose address header does not
    parse.  The handler is destroyed without an answer: nothing is sent,
    both sockets are closed, and no exception leaves the callback.  The
    handler's sockets are registered with a server whose timeout index is
    coherent. *)
Theorem request_rejected e h s l (data : bytes) :
  coherent s → sockets_registered h s →
  _is_local h = true → _stage h = STAGE_HELLO → _local_sock h = Some l →
  recv e = Recv data → data ≠ [] → unacceptable data →
  let r := on_local_read e (h, s) in
  r.2 = Ok tt ∧ destroyed_from h s r.1 ∧ _stage r.1.1 = STAGE_HELLO ∧
  sends (effects r.1.2) = sends (effects s).
Proof.
  intros Hco Hreg Hrole Hstage Hl Hrecv Hdata Hbad.
  destruct (on_local_read_hello e h s l data Hco Hrole Hstage Hl Hrecv Hdata)
    as (h1 & s1 & Hrun & Hh1 & Hco1 & Hfd & Heff & _ & _ & Hreg1).
  pose proof (refreshed_registered _ _ _ Hh1 (Hreg1 _ Hreg)) as Hreg'.
  destruct (destroy_destroyed h s h1 s1 Hh1 Heff Hco1 Hreg')
    as (Hok & Hdes & Hst).
  assert (Hrun' : on_local_read e (h, s) = destroy (h1, s1)).
  { rewrite Hrun. unfold try_except, on_local_read_try, unacceptable in *.
    destruct (data !! 1%nat) as [c |]; [| done].
    cbn zeta. destruct Hbad as [[Hudp Hconn] | [Hconn Hparse]].
    - rewrite (proj2 (Z.eqb_neq _ _) Hudp), (proj2 (Z.eqb_neq _ _) Hconn).
      by destruct (destroy (h1, s1)) as [st' [[] | err]].
    - rewrite Hconn.
      change (CMD_CONNECT =? CMD_UDP_ASSOCIATE)%Z with false.
      change (CMD_CONNECT =? CMD_CONNECT)%Z with true. cbn iota.
      unfold on_local_read_connect. by rewrite Hparse. }
  cbn zeta. rewrite Hrun'. rewrite Hstage in Hst.
  split; [done |]. split; [done |]. split; [done |].
  destruct Hdes as (_ & -> & _).
  unfold sends. rewrite !omap_app.
  by destruct (_remote_sock h), (_local_sock h); simpl; rewrite ?app_nil_r.
Qed.

(** ** The membership of the queue *)

Lemma queued_indexed s k :
  coherent s → queued s k ↔ is_Some (_handler_to_timeouts s !! k).
Proof.
  intros (Ha & Hb & _). split.
  - intros [[i Hi] | H]; [| done]. by rewrite (Hb _ _ Hi).
  - by right.
Qed.

Lemma index_after_sweep_lookup pos shift (ix : gmap nat Z) k :
  index_after_sweep pos shift ix !! k =
    p ← ix !! k; if (p <? Z.of_nat pos)%Z then None else Some (p - shift)%Z.
Proof. unfold index_after_sweep. by rewrite lookup_omap. Qed.

Lemma _sweep_timeout_queue now w :
  sweep_ready w → queue_kept (OpSweep now) w (_sweep_timeout now w).1.
Proof.
  intros Hready _.
  assert (Hco' : coherent (srv (_sweep_timeout now w).1)).
  { apply _sweep_timeout_index. destruct Hready as (? & ? & _). by split. }
  destruct (_sweep_timeout_spec now w Hready) as (pos & _ & Hw & Hcase).
  cbn zeta in Hcase.
  destruct Hready as (Hheap & Hco & _ & _).
  pose proof Hco as (Ha & Hb & Hc & Hd).
  assert (∃ shift, _handler_to_timeouts (srv (_sweep_timeout now w).1) =
            index_after_sweep pos shift (_handler_to_timeouts (srv w)))
    as [shift Hix].
  { case_bool_decide; destruct Hcase as (_ & ? & _); by eexists. }
  clear Hcase. split.
  - intros k Hq. apply (queued_indexed _ _ Hco') in Hq.
    apply queued_indexed; [done |].
    rewrite Hix, index_after_sweep_lookup in Hq.
    by destruct (_handler_to_timeouts (srv w) !! k).
  - intros k Hq. apply (queued_indexed _ _ Hco) in Hq as [p Hp].
    destruct (Ha _ _ Hp) as [H0 Hts].
    destruct (Z.ltb_spec p (Z.of_nat pos)) as [Hlt | Hge].
    + right. destruct Hw as (_ & Hw & _).
      assert (Hoff : _timeout_offset (srv w) ≤ Z.to_nat p).
      { destruct (decide (_timeout_offset (srv w) ≤ Z.to_nat p)); [done |].
        rewrite Hd in Hts by lia. congruence. }
      destruct (Hw (Z.to_nat p)) as [Hn | (k' & h & Hk' & Hh & Hst & Hdes)];
        [lia | congruence |].
      rewrite Hts in Hk'. injection Hk' as <-. by exists h.
    + left. apply queued_indexed; [done |].
      rewrite Hix, index_after_sweep_lookup, Hp. simpl.
      destruct (Z.ltb_spec p (Z.of_nat pos)); [lia | by eexists].
Qed.

(** X2. The membership of the queue over the operations on the timeout
    structures: [update_activity] keeps every handler of the queue and adds
    its own once [TIMEOUT_PRECISION] seconds have passed on the clock,
    [remove_handler] drops its handler and no other, and the sweep drops
    the stale handlers it destroys and no other. *)
Theorem timeout_queue_kept op w :
  timeout_index_ok w → queue_kept op w (run_timeout_op op w).1.
Proof.
  intros Hok. pose proof (run_timeout_op_index op w Hok) as [_ Hco'].
  pose proof Hok as [Hheap Hco].
  destruct op as [k t | k | now]; cbn [run_timeout_op queue_kept] in *;
    [| | intros Hready; by apply _sweep_timeout_queue].
  - destruct (heap w !! k) as [h |] eqn:Hk.
    2: { rewrite with_handler_dangling by done. cbn [fst].
         split; [done |]. split; [by right | done]. }
    pose proof (Hheap _ _ Hk) as Hid.
    rewrite (with_handler_run _ _ _ _ Hk) in *.
    rewrite update_activity_eq in * by apply Hco.
    destruct (Z.ltb_spec (py_int t - last_activity h) TIMEOUT_PRECISION)
      as [Hlt | Hge]; cbn [fst snd srv] in *.
    + split; [done |]. split; [by right |]. intros h' [= <-] ?. lia.
    + rewrite Hid in *. split; [| split].
      * intros k' Hq. apply (queued_indexed _ _ Hco) in Hq.
        apply queued_indexed; [done |]. simpl.
        apply lookup_insert_is_Some.
        destruct (decide (k = k')); [by left | by right].
      * intros k' Hq. apply (queued_indexed _ _ Hco') in Hq. simpl in Hq.
        apply lookup_insert_is_Some in Hq as [-> | [_ Hq]]; [by left |].
        right. by apply queued_indexed.
      * intros _ _ _. apply queued_indexed; [done |]. simpl.
        rewrite lookup_insert_eq. by eexists.
  - destruct (heap w !! k) as [h |] eqn:Hk.
    2: { rewrite with_handler_dangling by done. cbn [fst].
         split; [done |]. by intros []. }
    pose proof (Hheap _ _ Hk) as Hid.
    rewrite (with_handler_run _ _ _ _ Hk) in *.
    rewrite remove_handler_eq in * by apply Hco.
    cbn [fst snd srv] in *. rewrite Hid in *.
    destruct (_handler_to_timeouts (srv w) !! k) as [p |] eqn:Hp.
    + split.
      * intros k' Hne. rewrite (queued_indexed _ _ Hco'),
          (queued_indexed _ _ Hco). simpl. by rewrite lookup_delete_ne.
      * intros _ Hq. apply (queued_indexed _ _ Hco') in Hq. simpl in Hq.
        rewrite lookup_delete_eq in Hq. by destruct Hq.
    + split; [done |]. intros _ Hq. apply (queued_indexed _ _ Hco) in Hq.
      rewrite Hp in Hq. by destruct Hq.
Qed.

(** ** A live handler outside the queue *)

Lemma hello_world_ready c : dispatcher_ready (hello_world c).
Proof.
  assert (Hheap : ∀ k h, heap (hello_world c) !! k = Some h →
            k = 0 ∧ h = set_last_activity 10 (hello_handler c)).
  { intros k h H. simpl in H. by apply lookup_singleton_Some in H as [<- <-]. }
  split; [split; [| split; [| split]] | split].
  - intros k h H. by destruct (Hheap _ _ H) as [-> ->].
  - split_coherent; simpl.
    + intros k p H. apply lookup_singleton_Some in H as [<- <-]. done.
    + intros [| i] k H; simplify_eq/=. done.
    + lia.
    + intros i Hi. lia.
  - intros k h H. destruct (Hheap _ _ H) as [-> ->].
    split; [| split]; simpl; [by intros sock [= <-] | done | done].
  - intros [| i] k H; simplify_eq/=. by eexists.
  - intros k Hk. simpl in *. apply lookup_singleton_ne. lia.
  - intros fd k H. simpl in H. apply lookup_singleton_Some in H as [_ <-].
    by eexists.
Qed.

Lemma connect_reply_fails_ok c :
  event_ok (connect_reply_fails c) (hello_world c).
Proof.
  unfold event_ok. rewrite bool_decide_eq_false_2 by done.
  intros af. done.
Qed.

Lemma hello_world_queued c : live_handlers_queued (hello_world c).
Proof.
  intros k h H _. simpl in H. apply lookup_singleton_Some in H as [<- _].
  apply coherent_at_one_position; [apply hello_world_ready |].
  right. by eexists.
Qed.

(** ** The greeting and UDP ASSOCIATE *)

(** A reply written to the local socket and a stage entered, whatever
    [send] does. *)
Lemma reply_and_stage e (reply : bytes) stage l h1 s1 :
  _local_sock h1 = Some l → sockets_registered h1 s1 → coherent s1 →
  reply ≠ [] →
  let r := (write_to_sock (send e) reply (Some l);;
            modify_self (set_stage stage)) (h1, s1) in
  r.2 = Ok tt ∧ _stage r.1.1 = stage ∧
  sends (effects r.1.2) = sends (effects s1) ++ [(l, reply)].
Proof.
  intros Hl Hreg Hco Hreply.
  destruct (write_to_local_spec (send e) reply l h1 s1 Hl Hreg) as [Hok Hkept];
    [apply Hco | done |].
  unfold mbind, M_bind, modify_self, modify. cbn zeta in *.
  destruct (write_to_sock (send e) reply (Some l) (h1, s1)) as [[h2 s2] r2].
  cbn [fst snd] in *. subst r2. cbn [fst snd].
  split; [done |]. split; [done |].
  destruct Hkept as (_ & _ & _ & _ & _ & _ & _ & Hsends & _).
  cbn [fst snd effects set_effects] in *. rewrite Hsends.
  unfold sends. by rewrite omap_app.
Qed.

(** X5. The greeting: the first chunk a client sends to the local role,
    whatever it holds, is answered with [05 00] (version 5, no
    authentication), and the handler enters stage [HELLO].  Exactly that
    is sent, and no exception leaves the callback, whatever [send] does.
    The handler's sockets are registered with a server whose timeout index
    is coherent. *)
Theorem greeting_answered e h s l (data : bytes) :
  coherent s → sockets_registered h s →
  _is_local h = true → _stage h = STAGE_INIT → _local_sock h = Some l →
  recv e = Recv data → data ≠ [] →
  let r := on_local_read e (h, s) in
  r.2 = Ok tt ∧ _stage r.1.1 = STAGE_HELLO ∧
  sends (effects r.1.2) = sends (effects s) ++ [(l, [x05; x00])].
Proof.
  intros Hco Hreg Hrole Hstage Hl Hrecv Hdata.
  destruct (on_local_read_eq e h s l data Hco Hl Hrecv Hdata)
    as (h1 & s1 & _ & Hrun & Hh1 & Hco1 & _ & Heff & _ & _ & Hreg1).
  pose proof (refreshed_registered _ _ _ Hh1 (Hreg1 _ Hreg)) as Hreg'.
  destruct (refreshed_fields _ _ Hh1) as (_ & _ & Hl1 & _ & Hst1 & _).
  rewrite Hl in Hl1. rewrite Hstage in Hst1.
  assert (Hrun' : on_local_read e (h, s) =
            (write_to_sock (send e) [x05; x00] (Some l);;
             modify_self (set_stage STAGE_HELLO)) (h1, s1)).
  { rewrite Hrun, Hrole. unfold on_local_read_data.
    cbn [negb andb]. unfold self, mbind at 1 2, M_bind at 1 2, mret, M_ret, gets.
    cbn [fst snd]. rewrite Hst1, Hl1.
    change (STAGE_INIT =? STAGE_STREAM)%Z with false.
    change (STAGE_INIT =? STAGE_INIT)%Z with true. done. }
  cbn zeta. rewrite Hrun', <- Heff.
  by apply reply_and_stage.
Qed.

(** X6. UDP ASSOCIATE on an IPv4 socket: a request read in stage [HELLO]
    at the local role whose byte 1 is [CMD_UDP_ASSOCIATE] = 3 is answered
    with [05 00 00 01], the address the client's socket is bound to and
    its port in network byte order, and the handler enters stage
    [UDP_ASSOC].  Exactly that is sent, and no exception leaves the
    callback, whatever [send] does. *)
Theorem udp_associate_answered e h s l (data : bytes) c :
  coherent s → sockets_registered h s →
  _is_local h = true → _stage h = STAGE_HELLO → _local_sock h = Some l →
  recv e = Recv data → data !! 1%nat = Some c →
  ord c = CMD_UDP_ASSOCIATE → family l = AF_INET →
  let r := on_local_read e (h, s) in
  r.2 = Ok tt ∧ _stage r.1.1 = STAGE_UDP_ASSOC ∧
  sends (effects r.1.2) = sends (effects s) ++ [(l, udp_reply e)].
Proof.
  intros Hco Hreg Hrole Hstage Hl Hrecv Hc Hord Hfam.
  assert (Hdata : data ≠ []) by (by intros ->).
  destruct (on_local_read_hello e h s l data Hco Hrole Hstage Hl Hrecv Hdata)
    as (h1 & s1 & Hrun & Hh1 & Hco1 & _ & Heff & _ & _ & Hreg1).
  pose proof (refreshed_registered _ _ _ Hh1 (Hreg1 _ Hreg)) as Hreg'.
  destruct (refreshed_fields _ _ Hh1) as (_ & _ & Hl1 & _).
  rewrite Hl in Hl1.
  destruct (reply_and_stage e (udp_reply e) STAGE_UDP_ASSOC l h1 s1
              Hl1 Hreg' Hco1) as (Hok & Hst & Hsends); [done |].
  cbn zeta in *.
  assert (Hrun' : on_local_read e (h, s) =
            (write_to_sock (send e) (udp_reply e) (Some l);;
             modify_self (set_stage STAGE_UDP_ASSOC)) (h1, s1)).
  { rewrite Hrun. unfold try_except, on_local_read_try. rewrite Hc.
    cbn zeta. rewrite Hord.
    change (CMD_UDP_ASSOCIATE =? CMD_UDP_ASSOCIATE)%Z with true. cbn iota.
    unfold self, mbind at 1, M_bind at 1, gets. cbn [fst snd].
    rewrite Hl1, Hfam. unfold udp_reply in *.
    destruct (getsockname e) as [addr port]. cbn [fst snd] in *.
    match goal with
    | |- context [match ?m (h1, s1) with _ => _ end] =>
        destruct (m (h1, s1)) as [st' [[] | err]]
    end; [done | by cbn [snd] in Hok]. }
  rewrite Hrun', <- Heff. done.
Qed.

(** X7. UDP ASSOCIATE on an IPv6 socket: [getsockname()] of such a socket
    returns four values, the assignment to [addr, port] raises, and the
    handler is destroyed without an answer: nothing is sent, both sockets
    are closed, and no exception leaves the callback. *)
Theorem udp_associate_ipv6_rejected e h s l (data : bytes) c :
  coherent s → sockets_registered h s →
  _is_local h = true → _stage h = STAGE_HELLO → _local_sock h = Some l →
  recv e = Recv data → data !! 1%nat = Some c →
  ord c = CMD_UDP_ASSOCIATE → family l = AF_INET6 →
  let r := on_local_read e (h, s) in
  r.2 = Ok tt ∧ destroyed_from h s r.1 ∧ _stage r.1.1 = STAGE_HELLO ∧
  sends (effects r.1.2) = sends (effects s).
Proof.
  intros Hco Hreg Hrole Hstage Hl Hrecv Hc Hord Hfam.
  assert (Hdata : data ≠ []) by (by intros ->).
  destruct (on_local_read_hello e h s l data Hco Hrole Hstage Hl Hrecv Hdata)
    as (h1 & s1 & Hrun & Hh1 & Hco1 & Hfd & Heff & _ & _ & Hreg1).
  pose proof (refreshed_registered _ _ _ Hh1 (Hreg1 _ Hreg)) as Hreg'.
  destruct (refreshed_fields _ _ Hh1) as (_ & _ & Hl1 & _).
  rewrite Hl in Hl1.
  destruct (destroy_destroyed h s h1 s1 Hh1 Heff Hco1 Hreg')
    as (Hok & Hdes & Hst).
  assert (Hrun' : on_local_read e (h, s) = destroy (h1, s1)).
  { rewrite Hrun. unfold try_except, on_local_read_try. rewrite Hc.
    cbn zeta. rewrite Hord.
    change (CMD_UDP_ASSOCIATE =? CMD_UDP_ASSOCIATE)%Z with true. cbn iota.
    unfold self, mbind at 1, M_bind at 1, gets. cbn [fst snd].
    by rewrite Hl1, Hfam. }
  cbn zeta. rewrite Hrun'. rewrite Hstage in Hst.
  split; [done |]. split; [done |]. split; [done |].
  destruct Hdes as (_ & -> & _).
  unfold sends. rewrite !omap_app.
  by destruct (_remote_sock h), (_local_sock h); simpl; rewrite ?app_nil_r.
Qed.

End Relay.

(** * Examples *)

(** A handler registers at time 100, is refreshed at time 200 and is swept
    at time 1000, when it has been idle longer than the timeout. *)
Lemma timeout_index_coherence_witness :
  let w1 := (run_timeout_op (OpUpdateActivity 0 100)
               (one_handler_world (0 : toy_cipher) true)).1 in
  let w2 := (run_timeout_op (OpUpdateActivity 0 200) w1).1 in
  let w3 := (run_timeout_op (OpSweep 1000) w2).1 in
  timeout_index_ok w3 ∧ at_one_position (srv w2) 0 ∧
  ¬ queued (srv w3) 0.
Proof.
  intros w1 w2 w3.
  destruct (timeout_index_coherence (OpUpdateActivity 0 100)
              (one_handler_world (0 : toy_cipher) true)
              (one_handler_world_ok 0 true)) as (H1 & _).
  destruct (timeout_index_coherence (OpUpdateActivity 0 200) _ H1)
    as (H2 & _ & Hone).
  destruct (timeout_index_coherence (OpSweep 1000) _ H2) as (H3 & _).
  split; [exact H3 |]. split.
  - apply Hone. right. by eexists.
  - intros [[i Hi] | [p Hp]].
    + destruct i as [| [| [| i]]]; vm_compute in Hi; discriminate.
    + vm_compute in Hp. discriminate.
Defined.

(** [send] takes one byte of two offered to the client: the other waits in
    the downstream queue and the downstream is marked as writing. *)
Lemma write_to_sock_pump_witness :
  let h := streaming_handler (0 : toy_cipher) true in
  let st' := (write_to_sock 1 4 8 (Sent 1) [x41; x42]
                (Some (sample_socket 5)) (h, streaming_server true)).1 in
  _data_to_write_to_local st'.1 = [[x42]] ∧
  _downstream_status st'.1 = WAIT_STATUS_WRITING.
Proof.
  intros h st'.
  destruct (write_to_sock_pump 1 4 8 (Sent 1) [x41; x42]
              (Some (sample_socket 5)) h (streaming_server true))
    as [_ Hpump].
  destruct (Hpump (sample_socket 5) Downstream eq_refl) as (Hpart & _).
  - discriminate.
  - reflexivity.
  - apply (Hpart 1); [reflexivity | simpl; lia].
Defined.

(** The flags 1, 4 and 8 for readable, writable and error; a fresh handler
    whose downstream turns to writing: its socket is watched for errors and
    for writability, and for input since the upstream is reading. *)
Lemma interest_bitmap_witness :
  let h := new_handler (0 : toy_cipher) 0 (sample_socket 5) true in
  let s := new_server true 0 in
  let st' := (update_stream 1 4 8 STREAM_DOWN WAIT_STATUS_WRITING (h, s)).1 in
  _downstream_status st'.1 = WAIT_STATUS_WRITING ∧
  effects st'.2 = [LoopModify (sample_socket 5) 13].
Proof.
  intros h s st'.
  destruct (interest_bitmap 1 4 8 STREAM_DOWN WAIT_STATUS_WRITING h s)
    as (_ & Hdown & _ & Heff & _).
  - by repeat split.
  - left. by split.
  - destruct (Hdown eq_refl) as [Hd Hu]. split; [exact Hd |].
    fold st' in Heff, Hd, Hu. rewrite Heff, Hd, Hu. reflexivity.
Defined.

(** Destroying the streaming handler twice closes descriptors 5 and 6 once
    each. *)
Lemma destroy_idempotent_witness :
  let h := streaming_handler (0 : toy_cipher) true in
  let s := streaming_server true in
  let st1 := (destroy (h, s)).1 in
  released st1.1 ∧ destroy st1 = (st1, Ok tt) ∧
  closes (sample_socket 5) (effects (destroy st1).1.2) = 1 ∧
  closes (sample_socket 6) (effects (destroy st1).1.2) = 1.
Proof.
  intros h s st1.
  destruct (destroy_idempotent h s (streaming_server_coherent true)
              (streaming_handler_registered 0 true))
    as (_ & _ & _ & Hrel & _ & Hagain & Hclose).
  split; [exact Hrel |]. split; [exact Hagain |].
  split; apply Hclose; [by left | by right].
Defined.

(** Handler 0, last active at 100 and queued before handler 1, which was
    last active at 102, reports activity at 105.5: its entry becomes a
    tombstone, a new one is appended after the entry of handler 1, and the
    live activities, [[100; 102]] before, are [[102; 105]]. *)
Lemma update_activity_order_witness :
  let w := two_handler_world (0 : toy_cipher) 100 102 in
  let r := with_handler 0 (update_activity (211 # 2)) w in
  live_activities w = [100; 102]%Z ∧
  r.2 = Ok tt ∧ _timeouts (srv r.1) = [None; Some 1; Some 0] ∧
  _handler_to_timeouts (srv r.1) !! 0 = Some 2%Z ∧
  live_activities r.1 = [102; 105]%Z ∧
  Sorted Z.le (live_activities r.1).
Proof.
  intros w r.
  destruct (update_activity_order 0 (211 # 2) w
              (set_last_activity 100 (streaming_handler 0 true)))
    as (Hok & _ & Hnew & Hsorted).
  - apply two_handler_world_ok.
  - reflexivity.
  - by vm_compute.
  - destruct Hnew as (Hts & Hix & _); [by vm_compute |].
    split; [reflexivity |].
    split; [exact Hok |]. split; [exact Hts |]. split; [| split].
    + fold r in Hix. rewrite Hix. reflexivity.
    + reflexivity.
    + apply Hsorted.
      * repeat constructor. by vm_compute.
      * repeat constructor; by vm_compute.
Defined.

(** The clock steps back.  Handler 0 was last active at 40 and handler 1
    at 100, so the live activities are [[40; 100]]; handler 0 then reports
    activity when the clock reads 50.  Ten seconds have elapsed for it, so
    its entry is appended anew, after the entry of handler 1: the live
    activities are [[100; 50]]. *)
Lemma update_activity_order_counterexample :
  ¬ activity_order_unconditional (cipher := toy_cipher).
Proof.
  intros H.
  specialize (H 0 50%Q (two_handler_world (0 : toy_cipher) 40 100)
                (set_last_activity 40 (streaming_handler 0 true))
                (two_handler_world_ok 0 40 100) eq_refl).
  assert (Hrun : live_activities
            (with_handler 0 (update_activity 50)
               (two_handler_world (0 : toy_cipher) 40 100)).1
          = [100; 50]%Z) by reflexivity.
  rewrite Hrun in H.
  assert (Hsorted : Sorted Z.le [100; 50]%Z).
  { apply H; [by vm_compute |]. repeat constructor. by vm_compute. }
  inversion Hsorted as [| ? ? _ Hd]. inversion Hd. lia.
Qed.

(** The sweep at time 101 over a queue of 513 tombstones before one fresh
    entry: the cursor stops at 513, which exceeds 512 and half of 514, so
    the prefix is dropped, the index of the handler becomes 0 and the
    cursor is reset. *)
Lemma sweep_procedure_witness :
  let r := _sweep_timeout 101 (compaction_world (0 : toy_cipher)) in
  r.2 = Ok tt ∧ _timeouts (srv r.1) = [Some 0] ∧
  _handler_to_timeouts (srv r.1) = {[ 0 := 0%Z ]} ∧
  _timeout_offset (srv r.1) = 0.
Proof.
  intros r.
  destruct (sweep_procedure 101 (compaction_world (0 : toy_cipher))
              (compaction_world_ready 0))
    as (pos & Hok & (Hpos & Hpassed & Hstop) & Hif).
  fold r in Hok, Hif.
  change (_timeouts (srv (compaction_world (0 : toy_cipher))))
    with (replicate 513 (@None nat) ++ [Some 0]) in *.
  change (_timeout_offset (srv (compaction_world (0 : toy_cipher))))
    with 0 in *.
  rewrite length_app, length_replicate in *. cbn [length] in *.
  assert (pos = 513) as ->.
  { destruct (decide (pos = 514)) as [-> | Hne].
    - destruct (Hpassed 513) as [H | (k & h & H & Hh & Hstale & _)]; [lia | |].
      + rewrite lookup_app_r, length_replicate in H
          by (rewrite length_replicate; lia).
        discriminate.
      + rewrite lookup_app_r, length_replicate in H
          by (rewrite length_replicate; lia).
        injection H as <-. injection Hh as <-.
        exfalso. revert Hstale. clear. vm_compute. intros H. by apply H.
    - destruct Hstop as [-> | (k & h & H & _)]; [lia |].
      apply lookup_app_Some in H as [H | [Hge H]].
      + apply lookup_replicate in H as [? _]. done.
      + rewrite length_replicate in *. lia. }
  rewrite bool_decide_eq_true_2 in Hif by (unfold TIMEOUTS_CLEAN_SIZE; lia).
  destruct Hif as (Hts & Hix & Hoff).
  split; [exact Hok |]. split; [| split; [| exact Hoff]].
  - rewrite Hts. by rewrite drop_app_length'; [| rewrite length_replicate].
  - rewrite Hix. reflexivity.
Defined.

(** A handler idle since 100 is destroyed by the sweep at time 1000, and its
    entry becomes a tombstone behind the cursor. *)
Lemma sweep_destroys_idle :
  let r := _sweep_timeout 1000 (streaming_world (0 : toy_cipher) true) in
  r.2 = Ok tt ∧ _timeouts (srv r.1) = [None] ∧
  _handler_to_timeouts (srv r.1) = ∅ ∧ _timeout_offset (srv r.1) = 1 ∧
  (released <$> heap r.1 !! 0) ≠ None ∧
  effects (srv r.1) =
    [LoopRemove (sample_socket 6); SockClose (sample_socket 6);
     LoopRemove (sample_socket 5); SockClose (sample_socket 5)].
Proof. by vm_compute. Qed.

(** The request [05 01 00 01 7f 00 00 01 00 50], CONNECT to 127.0.0.1:80,
    read by a handler in stage [HELLO]. *)
Lemma connect_request_witness :
  let data := [x05; x01; x00; x01; x7f; x00; x00; x01; x00; x50] in
  let e := sample_env 6 10 (Recv data) (Sent 10) in
  let h := hello_handler (0 : toy_cipher) in
  let s := srv (one_handler_world (0 : toy_cipher) true) in
  let r := on_local_read toy_crypt toy_crypt parse_header_model 1 4 8 e (h, s) in
  r.2 = Ok tt ∧ _remote_address r.1.1 = Some ([x7f; x00; x00; x01], 80%Z) ∧
  _stage r.1.1 = STAGE_REPLY ∧
  connect_handled toy_crypt 4 8 e h s (sample_socket 5) data r.1.
Proof.
  intros data e h s.
  apply (connect_request toy_crypt toy_crypt parse_header_model 1 4 8 e h s
           (sample_socket 5) data 1 [x7f; x00; x00; x01] 80 7).
  - destruct (one_handler_world_ok (0 : toy_cipher) true) as [_ Hco].
    exact Hco.
  - apply (one_handler_registered (0 : toy_cipher) true).
  - reflexivity.
  - reflexivity.
  - reflexivity.
  - reflexivity.
  - reflexivity.
  - reflexivity.
  - discriminate.
Defined.

(** The request [05 01 00 09]: byte 1 is [CMD_CONNECT], but 9 is no address
    type.  The parser returns nothing, the exception is caught and the
    handler is destroyed: no address is recorded and no reply is sent. *)
Lemma connect_request_counterexample :
  ¬ connect_unconditional toy_crypt toy_crypt parse_header_model 1 4 8.
Proof.
  intros H.
  destruct (one_handler_world_ok (0 : toy_cipher) true) as [_ Hco].
  specialize (H (sample_env 6 10 (Recv [x05; x01; x00; x09]) (Sent 10))
                (hello_handler (0 : toy_cipher))
                (srv (one_handler_world (0 : toy_cipher) true))
                (sample_socket 5) [x05; x01; x00; x09] Hco
                (one_handler_registered (0 : toy_cipher) true)
                eq_refl eq_refl eq_refl eq_refl eq_refl).
  destruct H as (_ & Hsends & _). vm_compute in Hsends. discriminate.
Qed.

(** The run behind the counterexample: the handler ends released, with
    nothing sent. *)
Lemma connect_request_unparsed :
  let e := sample_env 6 10 (Recv [x05; x01; x00; x09]) (Sent 10) in
  let r := on_local_read toy_crypt toy_crypt parse_header_model 1 4 8 e
             (hello_handler (0 : toy_cipher),
              srv (one_handler_world (0 : toy_cipher) true)) in
  r.2 = Ok tt ∧ released r.1.1 ∧ _remote_address r.1.1 = None ∧
  sends (effects r.1.2) = [] ∧ _stage r.1.1 = STAGE_HELLO.
Proof. by vm_compute. Qed.

(** Five seconds after the last sweep the sweeper runs. *)
Lemma sweeper_trigger_strict_witness :
  _handle_events toy_crypt toy_crypt parse_header_model 1 4 8
    [readable_5 (0 : toy_cipher)] 1005 1005 (idle_world (0 : toy_cipher))
  = sweep_and_stamp 1005 1005
      (dispatch_all toy_crypt toy_crypt parse_header_model 1 4 8
         [readable_5 (0 : toy_cipher)] (idle_world (0 : toy_cipher))).1.
Proof.
  assert (Hok : (dispatch_all toy_crypt toy_crypt parse_header_model 1 4 8
                   [readable_5 (0 : toy_cipher)]
                   (idle_world (0 : toy_cipher))).2 = Ok tt)
    by (vm_compute; reflexivity).
  assert (Hdue : advanced_more_than 1005
                   (_last_time (srv (idle_world (0 : toy_cipher)))))
    by (vm_compute; reflexivity).
  exact (proj1 (sweeper_trigger_strict toy_crypt toy_crypt parse_header_model
                  1 4 8 [readable_5 (0 : toy_cipher)] 1005%Q 1005%Q
                  (idle_world (0 : toy_cipher)) Hok) Hdue).
Defined.

(** Exactly four seconds after the last sweep, with an empty batch: were
    the sweep due, the idle handler would be destroyed and [_last_time]
    would become 1004; the dispatcher leaves the world as it is. *)
Lemma sweeper_trigger_counterexample :
  ¬ sweeper_trigger toy_crypt toy_crypt parse_header_model 1 4 8
      advanced_at_least.
Proof.
  intros H.
  destruct (H [] 1004%Q 1004%Q (idle_world (0 : toy_cipher)) eq_refl) as [Hdue _].
  assert (Hle : advanced_at_least 1004%Q (_last_time (srv (idle_world (0 : toy_cipher)))))
    by (by vm_compute).
  apply Hdue in Hle.
  apply (f_equal (λ r, _last_time (srv r.1))) in Hle.
  vm_compute in Hle. discriminate.
Qed.

(** The run behind the counterexample. *)
Lemma sweeper_not_run_at_four :
  _handle_events toy_crypt toy_crypt parse_header_model 1 4 8
    [] 1004 1004 (idle_world (0 : toy_cipher)) = ((idle_world (0 : toy_cipher)), Ok tt) ∧
  (sweep_and_stamp 1004 1004 (idle_world (0 : toy_cipher))).1 ≠ (idle_world (0 : toy_cipher)) ∧
  SockClose (sample_socket 5)
    ∈ effects (srv (sweep_and_stamp 1004 1004 (idle_world (0 : toy_cipher))).1).
Proof.
  split; [by vm_compute |]. split.
  - intros Heq. apply (f_equal (λ w, _last_time (srv w))) in Heq.
    vm_compute in Heq. discriminate.
  - vm_compute. repeat constructor.
Qed.

(** A handler of the local role whose upstream is still connecting reads
    [41 42] from the client. *)
Lemma reply_stage_buffering_witness :
  let h := connecting_handler (0 : toy_cipher) true in
  let s := streaming_server true in
  let e := sample_env 7 101 (Recv [x41; x42]) (Sent 0) in
  let st' := (on_local_read toy_crypt toy_crypt parse_header_model 1 4 8
                e (h, s)).1 in
  _data_to_write_to_remote st'.1 = [[x01; x02]; [xbe; xbd]] ∧
  effects st'.2 = [] ∧
  _upstream_status st'.1 = WAIT_STATUS_READWRITING ∧
  _downstream_status st'.1 = WAIT_STATUS_READING ∧
  _stage st'.1 = STAGE_REPLY.
Proof.
  intros h s e st'.
  destruct (reply_stage_buffering toy_crypt toy_crypt parse_header_model
              1 4 8 e h s (sample_socket 5) [x41; x42])
    as (_ & Hq & _ & Heff & Hup & Hdown & Hstage & _).
  - apply streaming_server_coherent.
  - reflexivity.
  - reflexivity.
  - reflexivity.
  - discriminate.
  - split; [apply Hq; discriminate |]. done.
Defined.

(** A client session at the local role: the greeting, a CONNECT request,
    the upstream becoming writable, then a timeout. *)
Lemma stage_history_session :
  let s := srv (one_handler_world (0 : toy_cipher) true) in
  let h0 := (handler_init 1 8 10
               (new_handler (0 : toy_cipher) 0 (sample_socket 5) true, s)).1.1 in
  let quiet := sample_env 6 10 (Recv []) (Sent 10) in
  let greeting := sample_env 6 10 (Recv [x05; x01; x00]) (Sent 2) in
  let request :=
    sample_env 6 10
      (Recv [x05; x01; x00; x01; x7f; x00; x00; x01; x00; x50]) (Sent 10) in
  stage_history toy_crypt toy_crypt parse_header_model 1 4 8 h0
    [Dispatched s greeting quiet (sample_socket 5) 1;
     Dispatched s request quiet (sample_socket 5) 1;
     Dispatched s quiet quiet (sample_socket 6) 4;
     Swept s]
  = [STAGE_INIT; STAGE_HELLO; STAGE_REPLY; STAGE_STREAM; STAGE_STREAM].
Proof. by vm_compute. Qed.

(** C1. The reply to a CONNECT request cannot be sent, and a live handler
    is left outside the queue.  Handler 0 of [hello_world] is in the queue;
    the client sends [05 01 00 01 7f 00 00 01 00 50] and [send] of the
    reply raises errno 32.  [write_to_sock] destroys the handler, which
    takes it out of the queue and closes the client's socket, and returns;
    [on_local_read] goes on, opens the upstream socket on descriptor 6 and
    registers it.  After the callback the handler holds that socket, in
    stage [REPLY], and has neither an entry in [_timeouts] nor a stored
    index; an [update_activity] at time 12 returns early and the sweep at
    time 13 finds nothing, so that it stays outside the queue. *)
Theorem live_handler_unqueued :
  let w := hello_world (0 : toy_cipher) in
  let r := dispatch toy_crypt toy_crypt parse_header_model 1 4 8
             (connect_reply_fails 0) w in
  let w1 := r.1 in
  let w2 := (run_timeout_op (OpUpdateActivity 0 12) w1).1 in
  let w3 := (run_timeout_op (OpSweep 13) w2).1 in
  live_handlers_queued w ∧ r.2 = Ok tt ∧
  (∃ h, heap w1 !! 0 = Some h ∧ live h ∧ _local_sock h = None ∧
        _remote_sock h = Some (sample_socket 6) ∧ _stage h = STAGE_REPLY) ∧
  SockClose (sample_socket 5) ∈ effects (srv w1) ∧
  _fd_to_handlers (srv w1) = {[ 6%Z := 0 ]} ∧
  _timeouts (srv w1) = [None] ∧ _handler_to_timeouts (srv w1) = ∅ ∧
  ¬ queued (srv w1) 0 ∧ ¬ live_handlers_queued w1 ∧
  heap w2 = heap w1 ∧ srv w2 = srv w1 ∧
  heap w3 = heap w1 ∧ _fd_to_handlers (srv w3) = {[ 6%Z := 0 ]} ∧
  _timeouts (srv w3) = [None] ∧ _handler_to_timeouts (srv w3) = ∅ ∧
  ¬ live_handlers_queued w3.
Proof.
  intros w r w1 w2 w3.
  assert (Hh : ∃ h, heap w1 !! 0 = Some h ∧ live h ∧ _local_sock h = None ∧
             _remote_sock h = Some (sample_socket 6) ∧
             _stage h = STAGE_REPLY).
  { vm_compute. eexists. split; [reflexivity |].
    split; [by intros [_ ?] | done]. }
  assert (Hix1 : _handler_to_timeouts (srv w1) = ∅) by (vm_compute; reflexivity).
  assert (Hts1 : _timeouts (srv w1) = [None]) by (vm_compute; reflexivity).
  assert (Hheap3 : heap w3 = heap w1) by (vm_compute; reflexivity).
  assert (Hix3 : _handler_to_timeouts (srv w3) = ∅) by (vm_compute; reflexivity).
  assert (Hnot : ∀ w', heap w' = heap w1 → _handler_to_timeouts (srv w') = ∅ →
            ¬ live_handlers_queued w').
  { intros w' Hheap Hix Hall. destruct Hh as (h & Hh & Hlive & _).
    rewrite <- Hheap in Hh. destruct (Hall 0 h Hh Hlive) as (p & Hp & _).
    rewrite Hix in Hp. discriminate. }
  split; [apply hello_world_queued |]. split; [vm_compute; reflexivity |].
  split; [exact Hh |].
  split; [apply list_elem_of_In; vm_compute; tauto |].
  split; [vm_compute; reflexivity |]. split; [exact Hts1 |]. split; [exact Hix1 |].
  split.
  { intros [[i Hi] | [p Hp]].
    - rewrite Hts1 in Hi. by destruct i as [| [| i]].
    - rewrite Hix1 in Hp. discriminate. }
  split; [apply Hnot; [reflexivity | exact Hix1] |].
  split; [vm_compute; reflexivity |]. split; [vm_compute; reflexivity |].
  split; [exact Hheap3 |]. split; [vm_compute; reflexivity |]. split; [vm_compute; reflexivity |].
  split; [exact Hix3 |]. apply Hnot; [exact Hheap3 | exact Hix3].
Qed.

(** The same run against the invariant: the dispatcher starts from a state
    it keeps, the event is one the operating system can deliver, every
    live handler is in the queue before, and one is not after. *)
Lemma live_handlers_counterexample :
  ¬ live_handlers_stay_queued toy_crypt toy_crypt parse_header_model 1 4 8.
Proof.
  intros H.
  destruct (H (connect_reply_fails (0 : toy_cipher)) (OpUpdateActivity 0 12)
              (hello_world (0 : toy_cipher))
              (hello_world_ready 0) (connect_reply_fails_ok 8 0)
              (hello_world_queued 0)) as [H1 _].
  assert (Hh : ∃ h,
            heap (dispatch toy_crypt toy_crypt parse_header_model 1 4 8
                    (connect_reply_fails (0 : toy_cipher))
                    (hello_world (0 : toy_cipher))).1 !! 0 = Some h ∧ live h).
  { vm_compute. eexists. split; [reflexivity |]. intros [_ ?]. discriminate. }
  destruct Hh as (h & Hh & Hlive).
  destruct (H1 0 h Hh Hlive) as (p & Hp & _).
  vm_compute in Hp. discriminate.
Qed.

(** Removed from the queue, the streaming handler is in it no more. *)
Lemma timeout_queue_kept_witness :
  let w := streaming_world (0 : toy_cipher) true in
  queued (srv w) 0 ∧
  ¬ queued (srv (run_timeout_op (OpRemoveHandler 0) w).1) 0.
Proof.
  intros w. split; [right; eexists; reflexivity |].
  destruct (timeout_queue_kept (OpRemoveHandler 0) w) as [_ H].
  - destruct (streaming_world_ready (0 : toy_cipher) true) as (? & ? & _).
    split; assumption.
  - apply H. eexists. reflexivity.
Defined.

(** The request [05 02 00 01]: BIND, which the relay does not serve. *)
Lemma request_rejected_witness :
  let data := [x05; x02; x00; x01] in
  let e := sample_env 6 10 (Recv data) (Sent 10) in
  let h := hello_handler (0 : toy_cipher) in
  let s := srv (one_handler_world (0 : toy_cipher) true) in
  let r := on_local_read toy_crypt toy_crypt parse_header_model 1 4 8 e (h, s) in
  r.2 = Ok tt ∧ destroyed_from h s r.1 ∧ _stage r.1.1 = STAGE_HELLO ∧
  sends (effects r.1.2) = [].
Proof.
  intros data e h s.
  apply (request_rejected toy_crypt toy_crypt parse_header_model 1 4 8 e h s
           (sample_socket 5) data).
  - destruct (one_handler_world_ok (0 : toy_cipher) true) as [_ Hco].
    exact Hco.
  - apply (one_handler_registered (0 : toy_cipher) true).
  - reflexivity.
  - reflexivity.
  - reflexivity.
  - reflexivity.
  - discriminate.
  - left. split; discriminate.
Defined.

(** One event, the CONNECT request whose reply cannot be sent, and no
    sweep: the batch returns and the relay is ready for the next. *)
Lemma _handle_events_ready_witness :
  let r := _handle_events toy_crypt toy_crypt parse_header_model 1 4 8
             [connect_reply_fails (0 : toy_cipher)] 10 10
             (hello_world (0 : toy_cipher)) in
  r.2 = Ok tt ∧ dispatcher_ready r.1.
Proof.
  apply (_handle_events_ready toy_crypt toy_crypt parse_header_model 1 4 8).
  - apply hello_world_ready.
  - split; [apply connect_reply_fails_ok | exact I].
Defined.

(** A client greets with [05 01 00]. *)
Lemma greeting_answered_witness :
  let data := [x05; x01; x00] in
  let e := sample_env 6 10 (Recv data) (Sent 2) in
  let h := new_handler (0 : toy_cipher) 0 (sample_socket 5) true in
  let s := srv (one_handler_world (0 : toy_cipher) true) in
  let r := on_local_read toy_crypt toy_crypt parse_header_model 1 4 8 e (h, s) in
  r.2 = Ok tt ∧ _stage r.1.1 = STAGE_HELLO ∧
  sends (effects r.1.2) = [(sample_socket 5, [x05; x00])].
Proof.
  intros data e h s.
  apply (greeting_answered toy_crypt toy_crypt parse_header_model 1 4 8 e h s
           (sample_socket 5) data).
  - destruct (one_handler_world_ok (0 : toy_cipher) true) as [_ Hco].
    exact Hco.
  - apply (one_handler_registered (0 : toy_cipher) true).
  - reflexivity.
  - reflexivity.
  - reflexivity.
  - reflexivity.
  - discriminate.
Defined.

(** The request [05 03 00 01 00 00 00 00 00 00] on a socket bound to
    127.0.0.1:1080: the reply carries that address and the port as
    [04 38]. *)
Lemma udp_associate_answered_witness :
  let data := [x05; x03; x00; x01; x00; x00; x00; x00; x00; x00] in
  let e := sample_env 6 10 (Recv data) (Sent 10) in
  let h := hello_handler (0 : toy_cipher) in
  let s := srv (one_handler_world (0 : toy_cipher) true) in
  let r := on_local_read toy_crypt toy_crypt parse_header_model 1 4 8 e (h, s) in
  r.2 = Ok tt ∧ _stage r.1.1 = STAGE_UDP_ASSOC ∧
  sends (effects r.1.2) =
    [(sample_socket 5,
      [x05; x00; x00; x01; x7f; x00; x00; x01; x04; x38])].
Proof.
  intros data e h s.
  apply (udp_associate_answered toy_crypt toy_crypt parse_header_model 1 4 8
           e h s (sample_socket 5) data x03).
  - destruct (one_handler_world_ok (0 : toy_cipher) true) as [_ Hco].
    exact Hco.
  - apply (one_handler_registered (0 : toy_cipher) true).
  - reflexivity.
  - reflexivity.
  - reflexivity.
  - reflexivity.
  - reflexivity.
  - reflexivity.
  - reflexivity.
Defined.

(** The same request on an IPv6 socket. *)
Lemma udp_associate_ipv6_rejected_witness :
  let data := [x05; x03; x00; x01; x00; x00; x00; x00; x00; x00] in
  let e := sample_env 6 10 (Recv data) (Sent 10) in
  let l := {| sock_id := 5; fileno := 5; family := AF_INET6 |} in
  let h := set_local_sock (Some l) (hello_handler (0 : toy_cipher)) in
  let s := srv (one_handler_world (0 : toy_cipher) true) in
  let r := on_local_read toy_crypt toy_crypt parse_header_model 1 4 8 e (h, s) in
  r.2 = Ok tt ∧ destroyed_from h s r.1 ∧ _stage r.1.1 = STAGE_HELLO ∧
  sends (effects r.1.2) = [].
Proof.
  intros data e l h s.
  apply (udp_associate_ipv6_rejected toy_crypt toy_crypt parse_header_model
           1 4 8 e h s l data x03).
  - destruct (one_handler_world_ok (0 : toy_cipher) true) as [_ Hco].
    exact Hco.
  - split; [| split].
    + intros sock [= <-]. reflexivity.
    + intros sock [=].
    + intros ? r [= <-] [=].
  - reflexivity.
  - reflexivity.
  - reflexivity.
  - reflexivity.
  - reflexivity.
  - reflexivity.
  - reflexivity.
Defined.
